(** * Coordinate maps of nipy.core.reference.coordinate_map

    A shallow embedding of [CoordinateMap], [AffineTransform], [compose],
    [product], [linearize] and the reordering and renaming methods.
    Coordinates are modelled in exact rational arithmetic ([Qc], the
    canonical rationals, so that equal numbers are equal terms). A point is
    a [vec] (a list of numbers) and a batch of points, an N x ndim array in
    NumPy, is a [mat] (a list of rows). Fallible Python code returns a
    [result]. *)

From Stdlib Require Import String List Bool Arith Lia ZArith QArith Qcanon.
From Stdlib Require Import Permutation.
Import ListNotations.

Declare Scope result_scope.
Open Scope nat_scope.
Open Scope string_scope.
Open Scope list_scope.

(* ------------------------------------------------------------------ *)
(** ** Vectors and matrices *)

Definition vec := list Qc.
Definition mat := list vec.

Fixpoint zipWith {A B C : Type} (f : A -> B -> C) (l1 : list A) (l2 : list B)
  : list C :=
  match l1, l2 with
  | a :: l1', b :: l2' => f a b :: zipWith f l1' l2'
  | _, _ => []
  end.

Definition vadd (u v : vec) : vec := zipWith Qcplus u v.
Definition vsub (u v : vec) : vec := zipWith Qcminus u v.
Definition vscale (c : Qc) (v : vec) : vec := map (Qcmult c) v.
Definition dot (u v : vec) : Qc := fold_right Qcplus 0%Qc (zipWith Qcmult u v).
Definition zeros (n : nat) : vec := repeat 0%Qc n.

(** Row [i] of the n x n identity ([np.eye]). *)
Definition unit_vec (n i : nat) : vec :=
  map (fun j => if Nat.eqb j i then 1%Qc else 0%Qc) (seq 0 n).

Definition identity (n : nat) : mat := map (unit_vec n) (seq 0 n).

(** [M[i, j]], reading 0 out of range. *)
Definition get (M : mat) (i j : nat) : Qc := nth j (nth i M []) 0%Qc.

Definition column (M : mat) (j : nat) : vec := map (fun r => nth j r 0%Qc) M.

(** [M.T] for a matrix with [ncols] columns. *)
Definition transpose (ncols : nat) (M : mat) : mat := map (column M) (seq 0 ncols).

Definition ncols (M : mat) : nat := length (hd [] M).

(** [np.dot(A, x)] for a matrix [A] and a vector [x]. *)
Definition mat_vec (A : mat) (x : vec) : vec := map (fun r => dot r x) A.

(** [np.dot(A, B)]. *)
Definition mat_mul (A B : mat) : mat :=
  map (fun r => map (fun j => dot r (column B j)) (seq 0 (ncols B))) A.

(** Every row of [M] has [n] entries. *)
Definition rows_have (n : nat) (M : mat) : bool :=
  forallb (fun r => Nat.eqb (length r) n) M.

Definition vec_eqb (u v : vec) : bool :=
  (Nat.eqb (length u) (length v)) && forallb (fun p => Qc_eq_bool (fst p) (snd p)) (combine u v).

Definition mat_eqb (A B : mat) : bool :=
  (Nat.eqb (length A) (length B)) && forallb (fun p => vec_eqb (fst p) (snd p)) (combine A B).

(** [nipy.core.transforms.affines.to_matrix_vector]: the linear block
    [transform[:-1, :-1]] and the translation [transform[:-1, -1]]. *)
Definition to_matrix_vector (M : mat) : mat * vec :=
  (map (@removelast Qc) (removelast M), map (fun r => last r 0%Qc) (removelast M)).

(* ------------------------------------------------------------------ *)
(** ** Precisions

    Modelled from the spec: a coordinate precision belongs to a total order
    over numeric kinds and [safe_dtype] returns the least upper bound of the
    precisions it is given. *)

Inductive dtype := Int64 | Float64 | Complex128.

Definition dtype_rank (d : dtype) : nat :=
  match d with Int64 => 0 | Float64 => 1 | Complex128 => 2 end.

Definition dtype_eqb (a b : dtype) : bool := Nat.eqb (dtype_rank a) (dtype_rank b).

Definition dtype_lub (a b : dtype) : dtype :=
  if Nat.leb (dtype_rank a) (dtype_rank b) then b else a.

Definition safe_dtype (ds : list dtype) : dtype := fold_right dtype_lub Int64 ds.

(* ------------------------------------------------------------------ *)
(** ** Errors *)

Inductive message :=
| FunctionNotCallable
| CoordinateLengthsDoNotMatchAffine
| CoordNamesNotDistinct
| NoInputCoordinateNamed (n : string)
| NoOutputCoordinateNamed (n : string)
| ShapeAndNamesDisagree
| InnamesOutnamesLengths
| NoSuchAxis (n : string)
| InputOutputCoordinatesDoNotMatch (input output : list string * dtype)
| NoInverseForThisAffine
| ValuesWrongDimension
| ValuesWrongPrecision
| OriginShape
| NeedAtLeastOneArray
| ShapesDoNotBroadcast.

Inductive error :=
| ValueError (m : message)
| IndexError
| TypeError.

Inductive result (A : Type) : Type :=
| Ok (a : A)
| Err (e : error).
Arguments Ok {A} a.
Arguments Err {A} e.

Definition bind {A B : Type} (m : result A) (k : A -> result B) : result B :=
  match m with Ok a => k a | Err e => Err e end.

Notation "'let*' x ':=' m 'in' k" := (bind m (fun x => k))
  (at level 200, x name, m at level 100, k at level 200) : result_scope.
Open Scope result_scope.

Fixpoint mapM {A B : Type} (f : A -> result B) (l : list A) : result (list B) :=
  match l with
  | [] => Ok []
  | a :: l' => let* b := f a in let* bs := mapM f l' in Ok (b :: bs)
  end.

(* ------------------------------------------------------------------ *)
(** ** Coordinate systems (nipy.core.reference.coordinate_system) *)

Record CoordinateSystem := mkCS {
  coord_names : list string;
  cs_name : string;
  coord_dtype : dtype
}.

Fixpoint names_eqb (a b : list string) : bool :=
  match a, b with
  | [], [] => true
  | x :: a', y :: b' => String.eqb x y && names_eqb a' b'
  | _, _ => false
  end.

Fixpoint distinctb (l : list string) : bool :=
  match l with
  | [] => true
  | x :: l' => negb (existsb (String.eqb x) l') && distinctb l'
  end.

(** Modelled from the spec: [CoordinateSystem(coord_names, name, coord_dtype)]
    holds an ordered sequence of unique axis names, a label and a
    precision; building one with repeated axis names fails. *)
Definition CoordinateSystem_new (names : list string) (name : string) (dt : dtype)
  : result CoordinateSystem :=
  if distinctb names then Ok (mkCS names name dt)
  else Err (ValueError CoordNamesNotDistinct).

(** Modelled from the spec: equality of coordinate systems compares the
    axis names, the label and the precision. *)
Definition cs_eqb (a b : CoordinateSystem) : bool :=
  names_eqb (coord_names a) (coord_names b)
  && String.eqb (cs_name a) (cs_name b)
  && dtype_eqb (coord_dtype a) (coord_dtype b).

(** Modelled from the spec: the [dtype] a coordinate system reports, one
    field per axis name, all of the coordinate precision. *)
Definition cs_dtype (cs : CoordinateSystem) : list string * dtype :=
  (coord_names cs, coord_dtype cs).

Definition ndim (cs : CoordinateSystem) : nat := length (coord_names cs).

Fixpoint position (s : string) (l : list string) : option nat :=
  match l with
  | [] => None
  | x :: l' => if String.eqb x s then Some 0
               else match position s l' with Some i => Some (S i) | None => None end
  end.

(** Modelled from the spec: [CoordinateSystem.index], the axis-name-to-index
    lookup ([list.index] of the names: a [ValueError] when absent). *)
Definition cs_index (cs : CoordinateSystem) (s : string) : result nat :=
  match position s (coord_names cs) with
  | Some i => Ok i
  | None => Err (ValueError (NoSuchAxis s))
  end.

(** Modelled from the spec: a number is representable at a precision. A
    batch is modelled by its values: at [int64] a coordinate must be an
    integer (the 64-bit range is not modelled); the floating precisions
    hold every exact value of the model. *)
Definition fits (d : dtype) (q : Qc) : bool :=
  match d with
  | Int64 => Pos.eqb (Qden (this q)) 1
  | Float64 | Complex128 => true
  end.

Definition vec_fits (d : dtype) (x : vec) : bool := forallb (fits d) x.

Definition mat_fits (d : dtype) (X : mat) : bool := forallb (vec_fits d) X.

(** Modelled from the spec: [CoordinateSystem._checked_values], which
    validates a batch against the dimensionality and the precision of the
    system: every point must have [ndim] coordinates, each representable
    at [coord_dtype]; a mismatch raises a [ValueError]. A batch that
    passes is returned unchanged, as coercing a representable value to
    the precision keeps it. *)
Definition checked_values (cs : CoordinateSystem) (x : mat) : result mat :=
  if rows_have (ndim cs) x then
    if mat_fits (coord_dtype cs) x then Ok x
    else Err (ValueError ValuesWrongPrecision)
  else Err (ValueError ValuesWrongDimension).

(** Modelled from the spec: [coordinate_system.product], the concatenation
    of the axes, labelled ['product'], at the promoted precision. *)
Definition coordsys_product (css : list CoordinateSystem) : result CoordinateSystem :=
  CoordinateSystem_new (concat (map coord_names css)) "product"
    (safe_dtype (map coord_dtype css)).

(* ------------------------------------------------------------------ *)
(** ** CoordinateMap and AffineTransform *)

(** A callable from points to points; it may raise. *)
Definition func := vec -> result vec.

Record CoordinateMap := mkCoordinateMap {
  cm_function : func;
  cm_input_coords : CoordinateSystem;
  cm_output_coords : CoordinateSystem;
  cm_inverse_function : option func
}.

Record AffineTransform := mkAffineTransform {
  affine : mat;
  at_input_coords : CoordinateSystem;
  at_output_coords : CoordinateSystem
}.

(** [AffineTransform] is a subclass of [CoordinateMap]: a value of the
    Python class hierarchy is one or the other. *)
Inductive cmap :=
| Generic (c : CoordinateMap)
| Affine (a : AffineTransform).

Definition is_affine (c : cmap) : bool :=
  match c with Affine _ => true | Generic _ => false end.

(** [_function] of [AffineTransform.__init__]: [np.dot(x, A.T) + b], on
    a point of the input dimension (the only points [__call__] passes to
    it after its check; [np.dot] raises on others, which are not
    modelled). *)
Definition affine_function (M : mat) : func :=
  fun x => let (A, b) := to_matrix_vector M in Ok (vadd (mat_vec A x) b).

Definition function (c : cmap) : func :=
  match c with
  | Generic g => cm_function g
  | Affine a => affine_function (affine a)
  end.

Definition input_coords (c : cmap) : CoordinateSystem :=
  match c with Generic g => cm_input_coords g | Affine a => at_input_coords a end.

Definition output_coords (c : cmap) : CoordinateSystem :=
  match c with Generic g => cm_output_coords g | Affine a => at_output_coords a end.

Definition ndims (c : cmap) : nat * nat :=
  (ndim (input_coords c), ndim (output_coords c)).

(** [CoordinateMap.__call__] on a batch of points. *)
Definition call (c : cmap) (x : mat) : result mat :=
  let* in_vals := checked_values (input_coords c) x in
  let* out_vals := mapM (function c) in_vals in
  checked_values (output_coords c) out_vals.

(** [CoordinateMap.__init__], with [_checkfunction]: the function is
    probed on a batch of 10 zero points. *)
Definition CoordinateMap_new (f : func) (inc outc : CoordinateSystem)
  (inv : option func) : result cmap :=
  let c := Generic (mkCoordinateMap f inc outc inv) in
  let* _ := call c (repeat (zeros (ndim inc)) 10) in
  Ok c.

(** [AffineTransform.__init__]; [mdt] is the dtype of the array passed. *)
Definition AffineTransform_new (M : mat) (mdt : dtype) (inc outc : CoordinateSystem)
  : result cmap :=
  let dt := safe_dtype [mdt; coord_dtype inc; coord_dtype outc] in
  let* inc' := CoordinateSystem_new (coord_names inc) (cs_name inc) dt in
  let* outc' := CoordinateSystem_new (coord_names outc) (cs_name outc) dt in
  if Nat.eqb (length M) (ndim outc' + 1) && rows_have (ndim inc' + 1) M
  then Ok (Affine (mkAffineTransform M inc' outc'))
  else Err (ValueError CoordinateLengthsDoNotMatchAffine).

(* ------------------------------------------------------------------ *)
(** ** [np.linalg.inv]

    NumPy's inverse (LAPACK [getrf]/[getri]) in exact arithmetic: Gauss-Jordan
    elimination with row pivoting on a square matrix. It raises
    [LinAlgError] (here [None]) on a non-square or singular matrix. *)

Definition swap_rows (i j : nat) (M : mat) : mat :=
  map (fun k => nth (if Nat.eqb k i then j else if Nat.eqb k j then i else k) M [])
      (seq 0 (length M)).

Definition scale_row (i : nat) (c : Qc) (M : mat) : mat :=
  map (fun k => if Nat.eqb k i then vscale c (nth k M []) else nth k M [])
      (seq 0 (length M)).

(** Row [i] += [c] * row [j]. *)
Definition add_row (i j : nat) (c : Qc) (M : mat) : mat :=
  map (fun k => if Nat.eqb k i then vadd (nth k M []) (vscale c (nth j M []))
                else nth k M [])
      (seq 0 (length M)).

Definition find_pivot (C : mat) (k n : nat) : option nat :=
  find (fun p => negb (Qc_eq_bool (get C p k) 0%Qc)) (seq k (n - k)).

(** Clear column [k] in every row but [k]. *)
Fixpoint elim_rows (k : nat) (rows : list nat) (C E : mat) : mat * mat :=
  match rows with
  | [] => (C, E)
  | i :: rs =>
      if Nat.eqb i k then elim_rows k rs C E
      else let c := Qcopp (get C i k) in
           elim_rows k rs (add_row i k c C) (add_row i k c E)
  end.

Fixpoint gj_cols (cols : list nat) (n : nat) (C E : mat) : option mat :=
  match cols with
  | [] => Some E
  | k :: ks =>
      match find_pivot C k n with
      | None => None
      | Some p =>
          let C1 := swap_rows k p C in
          let E1 := swap_rows k p E in
          let piv := Qcinv (get C1 k k) in
          let C2 := scale_row k piv C1 in
          let E2 := scale_row k piv E1 in
          let (C3, E3) := elim_rows k (seq 0 n) C2 E2 in
          gj_cols ks n C3 E3
      end
  end.

Definition linalg_inv (M : mat) : option mat :=
  let n := length M in
  if rows_have n M then gj_cols (seq 0 n) n M (identity n) else None.

(** [CoordinateMap.inverse] and [AffineTransform.inverse]; [None] is the
    Python [None]. The inverse of an affine is built from the array
    [np.linalg.inv] returns, of a floating dtype. *)
Definition inverse (c : cmap) : result (option cmap) :=
  match c with
  | Generic g =>
      match cm_inverse_function g with
      | None => Ok None
      | Some h =>
          let* r := CoordinateMap_new h (cm_output_coords g) (cm_input_coords g)
                      (Some (cm_function g)) in
          Ok (Some r)
      end
  | Affine a =>
      match linalg_inv (affine a) with
      | None => Ok None
      | Some B =>
          let* r := AffineTransform_new B
                      (dtype_lub Float64 (coord_dtype (at_input_coords a)))
                      (at_output_coords a) (at_input_coords a) in
          Ok (Some r)
      end
  end.

(** [CoordinateMap.inverse_function] and its [AffineTransform] override. *)
Definition inverse_function (c : cmap) : result (option func) :=
  match c with
  | Generic g => Ok (cm_inverse_function g)
  | Affine a =>
      let* i := inverse c in
      match i with
      | None => Err (ValueError NoInverseForThisAffine)
      | Some i' => Ok (Some (function i'))
      end
  end.

(* ------------------------------------------------------------------ *)
(** ** [linearize]

    [f] is the callable on a batch of points; [origin = None] is the
    default zero origin. [function(origin)] on a single point is [f]
    applied to the one-point batch. *)

Definition linearize (f : mat -> result mat) (ndimin : nat) (step : Qc)
  (origin : option vec) : result mat :=
  let* origin :=
    match origin with
    | None => Ok (zeros ndimin)
    | Some o => if Nat.eqb (length o) ndimin then Ok o
                else Err (ValueError OriginShape)
    end in
  let* bb := f [origin] in
  let b := hd [] bb in
  let O := repeat origin ndimin in
  let* y1 := f (zipWith vadd (map (vscale step) (identity ndimin)) O) in
  let* y0 := f O in
  let ndimout := match y1 with r :: _ => length r | [] => length b end in
  let D := map (map (fun q => Qcdiv q step)) (zipWith vsub y1 y0) in
  if Nat.eqb (length b) ndimout then
    Ok (zipWith (fun r bi => r ++ [bi]) (transpose ndimout D) b
        ++ [zeros ndimin ++ [1%Qc]])
  else Err (ValueError ShapesDoNotBroadcast).

(* ------------------------------------------------------------------ *)
(** ** [compose] *)

(** [_compose2(cmap1, cmap2)]: the forward function and, when both
    inverses exist, the backward one. *)
Definition compose2 (cmap1 cmap2 : cmap) : result (func * option func) :=
  let forward := fun x => let* y := function cmap2 x in function cmap1 y in
  let* i1 := inverse cmap1 in
  match i1 with
  | None => Ok (forward, None)
  | Some i1' =>
      let* i2 := inverse cmap2 in
      match i2 with
      | None => Ok (forward, None)
      | Some i2' =>
          Ok (forward, Some (fun y => let* x := function i1' y in function i2' x))
      end
  end.

(** One turn of the loop of [compose]: [m = cmaps[i]], [acc] the map built
    from [cmaps[i+1:]]. *)
Definition compose_step (m : cmap) (acc : result cmap) : result cmap :=
  let* c := acc in
  if cs_eqb (input_coords m) (output_coords c) then
    let* fb := compose2 m c in
    CoordinateMap_new (fst fb) (input_coords c) (output_coords m) (snd fb)
  else Err (ValueError (InputOutputCoordinatesDoNotMatch
                          (cs_dtype (input_coords m)) (cs_dtype (output_coords c)))).

Definition compose (cmaps : list cmap) : result cmap :=
  match rev cmaps with
  | [] => Err IndexError
  | last_cmap :: _ =>
      let* c := fold_right compose_step (Ok last_cmap) (removelast cmaps) in
      if forallb is_affine cmaps then
        let* M := linearize (call c) (fst (ndims c)) 1%Qc None in
        AffineTransform_new M (coord_dtype (output_coords c))
          (input_coords c) (output_coords c)
      else Ok c
  end.

(* ------------------------------------------------------------------ *)
(** ** [product] *)

(** [x[a:b]] *)
Definition slice (a b : nat) (x : vec) : vec := firstn (b - a) (skipn a x).

(** [ndimin] of [product] without its final total: the offset of each
    operand's block. *)
Fixpoint offsets (off : nat) (cmaps : list cmap) : list nat :=
  match cmaps with
  | [] => []
  | c :: cs => off :: offsets (off + fst (ndims c)) cs
  end.

(** [np.hstack] of the one-point results. *)
Definition hstack (ys : list mat) : result vec :=
  match ys with
  | [] => Err (ValueError NeedAtLeastOneArray)
  | _ => Ok (concat (map (hd []) ys))
  end.

(** The local [function] of [product], on one point. *)
Definition product_function (cmaps : list cmap) : func :=
  fun x =>
    let* ys := mapM (fun p => call (fst p) [slice (snd p) (snd p + fst (ndims (fst p))) x])
                    (combine cmaps (offsets 0 cmaps)) in
    hstack ys.

Definition product (cmaps : list cmap) : result cmap :=
  let ndimin_total := fold_right Nat.add 0 (map (fun c => fst (ndims c)) cmaps) in
  let* incoords := coordsys_product (map input_coords cmaps) in
  let* outcoords := coordsys_product (map output_coords cmaps) in
  if forallb is_affine cmaps then
    let* M := linearize (mapM (product_function cmaps)) ndimin_total 1%Qc None in
    AffineTransform_new M (coord_dtype incoords) incoords outcoords
  else CoordinateMap_new (product_function cmaps) incoords outcoords None.

(* ------------------------------------------------------------------ *)
(** ** [reordered_input] and [renamed_input] *)

(** The [order] argument when given: axis names or integer positions. *)
Inductive order_arg :=
| ByNames (ns : list string)
| ByPositions (ps : list nat).

(** [perm]: [perm[-1,-1] = 1] and [perm[j,i] = 1] for [i, j] in
    [enumerate(order)]. *)
Definition perm_matrix (ndim : nat) (order : list nat) : mat :=
  map (fun r => map (fun col =>
         if Nat.eqb r ndim && Nat.eqb col ndim then 1%Qc
         else match nth_error order col with
              | Some j => if Nat.eqb j r then 1%Qc else 0%Qc
              | None => 0%Qc
              end) (seq 0 (S ndim))) (seq 0 (S ndim)).

Definition nth_name (names : list string) (i : nat) : result string :=
  match nth_error names i with Some s => Ok s | None => Err IndexError end.

Definition resolve_order (cs : CoordinateSystem) (order : option order_arg)
  : result (list nat) :=
  match order with
  | None => Ok (rev (seq 0 (ndim cs)))
  | Some (ByNames []) | Some (ByPositions []) => Err IndexError
  | Some (ByNames ns) => mapM (cs_index cs) ns
  | Some (ByPositions ps) => Ok ps
  end.

Definition reordered_input (c : cmap) (order : option order_arg) (name : string)
  : result cmap :=
  let inc := input_coords c in
  let name := if String.eqb name "" then cs_name inc else name in
  let ndim := fst (ndims c) in
  let* order := resolve_order inc order in
  let* newaxes := mapM (nth_name (coord_names inc)) order in
  let* newincoords := CoordinateSystem_new newaxes name (coord_dtype inc) in
  let* A := AffineTransform_new (perm_matrix ndim order) (coord_dtype inc)
              newincoords inc in
  compose [c; A].

(** A Python dict as an association list, in iteration order. *)
Definition rename_map := list (string * string).

Fixpoint lookup (n : string) (m : rename_map) : option string :=
  match m with
  | [] => None
  | (k, v) :: m' => if String.eqb k n then Some v else lookup n m'
  end.

Fixpoint check_keys (names : list string) (keys : list string) : result unit :=
  match keys with
  | [] => Ok tt
  | k :: ks => if existsb (String.eqb k) names then check_keys names ks
               else Err (ValueError (NoInputCoordinateNamed k))
  end.

Definition renamed_input (c : cmap) (newnames : rename_map) (name : string)
  : result cmap :=
  let inc := input_coords c in
  let name := if String.eqb name "" then cs_name inc else name in
  let* _ := check_keys (coord_names inc) (map fst newnames) in
  let new_coord_names :=
    map (fun n => match lookup n newnames with Some v => v | None => n end)
        (coord_names inc) in
  let* new_input_coords := CoordinateSystem_new new_coord_names name (coord_dtype inc) in
  let ndim := fst (ndims c) in
  let* ident_map := AffineTransform_new (identity (S ndim)) Float64
                      new_input_coords inc in
  compose [c; ident_map].

(* ------------------------------------------------------------------ *)
(** ** Building inputs *)

Definition qc (z : Z) : Qc := Q2Qc (inject_Z z).

(** [np.diag(d)] *)
Definition diag (d : list Qc) : mat :=
  map (fun i => map (fun j => if Nat.eqb i j then nth i d 0%Qc else 0%Qc)
                    (seq 0 (length d))) (seq 0 (length d)).

(** [CoordinateSystem(names)] with the default label [''] and the default
    precision [float64]. *)
Definition CS (names : list string) : result CoordinateSystem :=
  CoordinateSystem_new names "" Float64.

(** [AffineTransform.from_params(innames, outnames, params)] with [params]
    a homogeneous matrix of dtype [mdt]. *)
Definition from_params (innames outnames : list string) (params : mat) (mdt : dtype)
  : result cmap :=
  if Nat.eqb (length params) (length outnames + 1)
     && rows_have (length innames + 1) params then
    let* input_coords := CoordinateSystem_new innames "input" Float64 in
    let* output_coords := CoordinateSystem_new outnames "output" Float64 in
    AffineTransform_new params mdt input_coords output_coords
  else Err (ValueError ShapeAndNamesDisagree).

(* ------------------------------------------------------------------ *)
(** ** Homogeneous matrices and well-formed transforms *)

(** [[A, b], [0, 1]] for a linear block [A] on [nin] inputs and a
    translation [b]. *)
Definition hom_of (A : mat) (b : vec) (nin : nat) : mat :=
  zipWith (fun r bi => r ++ [bi]) A b ++ [zeros nin ++ [1%Qc]].

(** [M] with its last row reset to [[0, ..., 0, 1]]. *)
Definition hom (M : mat) : mat :=
  let (A, b) := to_matrix_vector M in hom_of A b (ncols M - 1).

(** [M_1 . M_2 . ... . M_n] *)
Fixpoint mat_prod (Ms : list mat) : mat :=
  match Ms with
  | [] => []
  | [M] => M
  | M :: Ms' => mat_mul M (mat_prod Ms')
  end.

(** The invariant [AffineTransform.__init__] establishes. The matrix is
    stored with [np.asarray(affine, dtype=dtype)] at the precision of both
    coordinate systems, so its entries are representable there. *)
Definition wf_affine (a : AffineTransform) : Prop :=
  length (affine a) = ndim (at_output_coords a) + 1
  /\ rows_have (ndim (at_input_coords a) + 1) (affine a) = true
  /\ distinctb (coord_names (at_input_coords a)) = true
  /\ distinctb (coord_names (at_output_coords a)) = true
  /\ coord_dtype (at_input_coords a) = coord_dtype (at_output_coords a)
  /\ mat_fits (coord_dtype (at_input_coords a)) (affine a) = true.

(** A callable that maps every point of dimension [n] to a point of
    dimension [m] without raising. *)
Definition fn_ok (f : func) (n m : nat) : Prop :=
  forall x, length x = n -> exists y, f x = Ok y /\ length y = m.

(** A callable that maps every point of dimension [n] representable at
    precision [d1] to a point representable at precision [d2]. *)
Definition fn_fits (f : func) (n : nat) (d1 d2 : dtype) : Prop :=
  forall x y, length x = n -> vec_fits d1 x = true -> f x = Ok y -> vec_fits d2 y = true.

(** A callable between two coordinate systems that respects their
    dimensions and precisions. *)
Definition fn_ok_cs (f : func) (inc outc : CoordinateSystem) : Prop :=
  fn_ok f (ndim inc) (ndim outc)
  /\ fn_fits f (ndim inc) (coord_dtype inc) (coord_dtype outc).

(** A transform whose function, and inverse function when present, respect
    the dimensions and the precisions of its coordinate systems. *)
Definition well_behaved (c : cmap) : Prop :=
  match c with
  | Generic g =>
      fn_ok_cs (cm_function g) (cm_input_coords g) (cm_output_coords g)
      /\ forall h, cm_inverse_function g = Some h ->
           fn_ok_cs h (cm_output_coords g) (cm_input_coords g)
  | Affine a => wf_affine a
  end.

(** The inverse, when there is one, maps every point of the output
    dimension representable at the output precision to a point
    representable at the input precision. *)
Definition inv_fits (c : cmap) : Prop :=
  forall i, inverse c = Ok (Some i) ->
    fn_fits (function i) (ndim (output_coords c))
      (coord_dtype (output_coords c)) (coord_dtype (input_coords c)).

(** [cmap_i.input_coords == cmap_{i+1}.output_coords] at every seam. *)
Fixpoint seams_ok (cs : list cmap) : Prop :=
  match cs with
  | c1 :: ((c2 :: _) as rest) => input_coords c1 = output_coords c2 /\ seams_ok rest
  | _ => True
  end.

(** The last row of the matrix is the homogeneous row [[0, ..., 0, 1]]. *)
Definition hom_last_row (a : AffineTransform) : Prop :=
  last (affine a) [] = zeros (ndim (at_input_coords a)) ++ [1%Qc].

(** [np.dot(A, B)] for a [B] of [n] columns. *)
Definition mat_mul_cols (n : nat) (A B : mat) : mat :=
  map (fun r => map (fun j => dot r (column B j)) (seq 0 n)) A.

(** The right-to-left composition of the operands' functions,
    [cmap_1(cmap_2(... cmap_n(x)))]. *)
Definition chain (cs : list cmap) : func :=
  fold_right (fun c k => fun x => let* y := k x in function c y) (fun x => Ok x) cs.

(** A square matrix with a two-sided inverse. *)
Definition invertible (M : mat) : Prop :=
  rows_have (length M) M = true
  /\ exists B, rows_have (length M) B = true /\ length B = length M
     /\ mat_mul M B = identity (length M) /\ mat_mul B M = identity (length M).

(** The linearization as the spec words it: column [i] of the linear block
    is [(f(origin + step e_i) - f(origin)) / step], the translation column
    is [f(origin)], the corner is 1. *)
Definition linearization_spec (f : vec -> vec) (nin nout : nat) (step : Qc) (o : vec)
  : mat :=
  map (fun r =>
         map (fun i => Qcdiv (Qcminus (nth r (f (vadd o (vscale step (unit_vec nin i)))) 0%Qc)
                                      (nth r (f o) 0%Qc)) step) (seq 0 nin)
         ++ [nth r (f o) 0%Qc]) (seq 0 nout)
  ++ [zeros nin ++ [1%Qc]].

Definition total_in (ats : list AffineTransform) : nat :=
  fold_right Nat.add 0 (map (fun a => ndim (at_input_coords a)) ats).

(** The block-diagonal linear block of a product of affines. *)
Fixpoint lin_block (ats : list AffineTransform) : mat :=
  match ats with
  | [] => []
  | a :: rest =>
      map (fun r => r ++ zeros (total_in rest)) (fst (to_matrix_vector (affine a)))
      ++ map (fun r => zeros (ndim (at_input_coords a)) ++ r) (lin_block rest)
  end.

(** The block-diagonal homogeneous matrix: linear blocks on the diagonal,
    translations stacked. *)
Definition block_affine (ats : list AffineTransform) : mat :=
  hom_of (lin_block ats) (concat (map (fun a => snd (to_matrix_vector (affine a))) ats))
    (total_in ats).

(* ------------------------------------------------------------------ *)
(** ** Array objects and aliasing

    [AffineTransform] holds a reference to an ndarray; [copy] and item
    assignment act on a store of arrays. *)

Module Heap.

Record ndarray := mkArray { data : mat; arr_dtype : dtype }.

Definition loc := nat.
Definition store := list ndarray.

Definition alloc (s : store) (a : ndarray) : loc * store := (length s, s ++ [a]).

Definition read (s : store) (l : loc) : result ndarray :=
  match nth_error s l with Some a => Ok a | None => Err IndexError end.

Record AffineTransformObj := mkObj {
  affine_ref : loc;
  h_input_coords : CoordinateSystem;
  h_output_coords : CoordinateSystem
}.

(** [np.asarray(a, dtype=dt)]: the same object when the dtype already
    matches, a converted new array otherwise. *)
Definition asarray (s : store) (l : loc) (dt : dtype) : result (loc * store) :=
  let* a := read s l in
  if dtype_eqb (arr_dtype a) dt then Ok (l, s)
  else Ok (alloc s (mkArray (data a) dt)).

(** [AffineTransform.__init__] on the array at [l]. *)
Definition AffineTransform_new (s : store) (l : loc) (inc outc : CoordinateSystem)
  : result (AffineTransformObj * store) :=
  let* a := read s l in
  let dt := safe_dtype [arr_dtype a; coord_dtype inc; coord_dtype outc] in
  let* inc' := CoordinateSystem_new (coord_names inc) (cs_name inc) dt in
  let* outc' := CoordinateSystem_new (coord_names outc) (cs_name outc) dt in
  let* ls := asarray s l dt in
  let* a' := read (snd ls) (fst ls) in
  if Nat.eqb (length (data a')) (ndim outc' + 1) && rows_have (ndim inc' + 1) (data a')
  then Ok (mkObj (fst ls) inc' outc', snd ls)
  else Err (ValueError CoordinateLengthsDoNotMatchAffine).

(** [ndarray.copy()] *)
Definition array_copy (s : store) (l : loc) : result (loc * store) :=
  let* a := read s l in Ok (alloc s a).

(** [AffineTransform.copy] *)
Definition copy (s : store) (a : AffineTransformObj) : result (AffineTransformObj * store) :=
  let* ls := array_copy s (affine_ref a) in
  AffineTransform_new (snd ls) (fst ls) (h_input_coords a) (h_output_coords a).

Definition replace {A : Type} (l : list A) (i : nat) (x : A) : list A :=
  firstn i l ++ [x] ++ skipn (S i) l.

(** [arr[i, j] = v]; NumPy raises [IndexError] out of range. *)
Definition setitem (s : store) (l : loc) (i j : nat) (v : Qc) : result store :=
  let* a := read s l in
  if Nat.ltb i (length (data a)) && Nat.ltb j (length (nth i (data a) [])) then
    Ok (replace s l (mkArray (replace (data a) i (replace (nth i (data a) []) j v))
                             (arr_dtype a)))
  else Err IndexError.

(** A sequence of item assignments on the array at [l]. *)
Fixpoint setitems (s : store) (l : loc) (muts : list (nat * nat * Qc)) : result store :=
  match muts with
  | [] => Ok s
  | (i, j, v) :: ms => let* s' := setitem s l i j v in setitems s' l ms
  end.

(** The matrix [obj.affine] reads. *)
Definition affine_of (s : store) (a : AffineTransformObj) : result mat :=
  let* arr := read s (affine_ref a) in Ok (data arr).

(** An object as [AffineTransform.__init__] leaves it. *)
Definition valid_obj (s : store) (a : AffineTransformObj) : Prop :=
  exists arr, read s (affine_ref a) = Ok arr
  /\ length (data arr) = ndim (h_output_coords a) + 1
  /\ rows_have (ndim (h_input_coords a) + 1) (data arr) = true
  /\ distinctb (coord_names (h_input_coords a)) = true
  /\ distinctb (coord_names (h_output_coords a)) = true
  /\ arr_dtype arr = coord_dtype (h_input_coords a)
  /\ coord_dtype (h_input_coords a) = coord_dtype (h_output_coords a).

End Heap.

(** [y] is a batch of points equal to [m]. *)
Definition ok_mat_eqb (r : result mat) (m : mat) : bool :=
  match r with Ok y => mat_eqb y m | Err _ => false end.

(** [c.inverse(x)]: calling [None] raises a [TypeError]. *)
Definition call_inverse (c : cmap) (x : mat) : result mat :=
  let* i := inverse c in
  match i with Some i' => call i' x | None => Err TypeError end.

(* ------------------------------------------------------------------ *)
(** ** [renamed_output], [reordered_output], the [AffineTransform]
    constructors and [concat] *)

(** The key check of [renamed_output]. *)
Fixpoint check_output_keys (names : list string) (keys : list string) : result unit :=
  match keys with
  | [] => Ok tt
  | k :: ks => if existsb (String.eqb k) names then check_output_keys names ks
               else Err (ValueError (NoOutputCoordinateNamed k))
  end.

(** [CoordinateMap.renamed_output]; as in the source, an empty [name]
    defaults to the label of the input coordinates. *)
Definition renamed_output (c : cmap) (newnames : rename_map) (name : string)
  : result cmap :=
  let name := if String.eqb name "" then cs_name (input_coords c) else name in
  let outc := output_coords c in
  let* _ := check_output_keys (coord_names outc) (map fst newnames) in
  let new_coord_names :=
    map (fun n => match lookup n newnames with Some v => v | None => n end)
        (coord_names outc) in
  let* new_output_coords := CoordinateSystem_new new_coord_names name (coord_dtype outc) in
  let ndim := snd (ndims c) in
  let* ident_map := AffineTransform_new (identity (S ndim)) Float64
                      outc new_output_coords in
  compose [ident_map; c].

(** [CoordinateMap.reordered_output]: the permutation [perm] is built as
    in [reordered_input] and its transpose [perm.T] is used. *)
Definition reordered_output (c : cmap) (order : option order_arg) (name : string)
  : result cmap :=
  let outc := output_coords c in
  let name := if String.eqb name "" then cs_name outc else name in
  let ndim := snd (ndims c) in
  let* order := resolve_order outc order in
  let* newaxes := mapM (nth_name (coord_names outc)) order in
  let* newoutcoords := CoordinateSystem_new newaxes name (coord_dtype outc) in
  let* A := AffineTransform_new (transpose (S ndim) (perm_matrix ndim order))
              (coord_dtype outc) outc newoutcoords in
  compose [A; c].

(** Modelled from the spec: [affines.from_matrix_vector(A, b)], the
    homogeneous matrix [[A, b], [0, 1]]. The translation is written into
    the last column as a NumPy slice assignment: a one-entry vector is
    broadcast, a vector of another length raises a [ValueError]. *)
Definition from_matrix_vector (A : mat) (b : vec) : result mat :=
  if Nat.eqb (length b) (length A) then Ok (hom_of A b (ncols A))
  else match b with
       | [bi] => Ok (hom_of A (repeat bi (length A)) (ncols A))
       | _ => Err (ValueError ShapesDoNotBroadcast)
       end.

(** [AffineTransform.from_start_step(innames, outnames, start, step)]; it
    calls [from_params] with the pair [(np.diag(step), start)], which
    [from_params] turns into a homogeneous matrix; [mdt] is the dtype of
    that matrix. *)
Definition from_start_step (innames outnames : list string) (start step : vec)
  (mdt : dtype) : result cmap :=
  let ndim := length innames in
  if negb (Nat.eqb (length outnames) ndim) then Err (ValueError InnamesOutnamesLengths)
  else
    let* params := from_matrix_vector (diag step) start in
    from_params innames outnames params mdt.

(** [AffineTransform.identity(names)]: [from_start_step] with the integer
    lists [[0]*n] and [[1]*n]. *)
Definition AffineTransform_identity (names : list string) : result cmap :=
  from_start_step names names (zeros (length names)) (repeat 1%Qc (length names)) Int64.

(** [concat(coordmap, axis_name, append)] (named [concat_cmap] here, as
    [concat] is the list concatenation). *)
Definition concat_cmap (c : cmap) (axis_name : string) (append : bool) : result cmap :=
  let* coords := CS [axis_name] in
  let* cc := AffineTransform_new (identity 2) Float64 coords coords in
  if append then product [c; cc] else product [cc; c].

(* ================================================================== *)
(** * Proofs *)

(** ** List lemmas *)

Lemma length_zipWith {A B C : Type} (f : A -> B -> C) l1 l2 :
  length (zipWith f l1 l2) = Nat.min (length l1) (length l2).
Proof.
  revert l2; induction l1 as [|a l1 IH]; intros [|b l2]; simpl; auto.
Qed.

Lemma nth_zipWith {A B C : Type} (f : A -> B -> C) l1 l2 i da db dc :
  i < length l1 -> i < length l2 ->
  nth i (zipWith f l1 l2) dc = f (nth i l1 da) (nth i l2 db).
Proof.
  revert l2 i; induction l1 as [|a l1 IH]; intros [|b l2] i H1 H2; simpl in *; try lia.
  destruct i; auto. apply IH; lia.
Qed.

Lemma zipWith_map_map {A B C D : Type} (f : B -> C -> D) (g : A -> B) (h : A -> C) l :
  zipWith f (map g l) (map h l) = map (fun x => f (g x) (h x)) l.
Proof. induction l; simpl; congruence. Qed.

Lemma zipWith_map_repeat {A B C D : Type} (f : B -> C -> D) (g : A -> B) (c : C) l :
  zipWith f (map g l) (repeat c (length l)) = map (fun x => f (g x) c) l.
Proof. induction l; simpl; congruence. Qed.

Lemma map_nth_seq {A : Type} (l : list A) d :
  map (fun i => nth i l d) (seq 0 (length l)) = l.
Proof.
  induction l as [|a l IH]; simpl; auto. f_equal.
  rewrite <- seq_shift, map_map. simpl. exact IH.
Qed.

Lemma zipWith_length_eq {A B C : Type} (f : A -> B -> C) l1 l2 :
  length l1 = length l2 -> length (zipWith f l1 l2) = length l1.
Proof. intro H. rewrite length_zipWith, H. lia. Qed.

(** ** Vector lemmas *)

Lemma length_vadd u v : length u = length v -> length (vadd u v) = length u.
Proof. apply zipWith_length_eq. Qed.

Lemma length_vsub u v : length u = length v -> length (vsub u v) = length u.
Proof. apply zipWith_length_eq. Qed.

Lemma length_vscale c u : length (vscale c u) = length u.
Proof. apply length_map. Qed.

Lemma length_zeros n : length (zeros n) = n.
Proof. apply repeat_length. Qed.

Lemma length_unit_vec n i : length (unit_vec n i) = n.
Proof. unfold unit_vec. now rewrite length_map, length_seq. Qed.

Lemma length_mat_vec A x : length (mat_vec A x) = length A.
Proof. apply length_map. Qed.

Lemma nth_vadd u v i :
  i < length u -> i < length v -> nth i (vadd u v) 0%Qc = (nth i u 0 + nth i v 0)%Qc.
Proof. apply nth_zipWith. Qed.

Lemma nth_vsub u v i :
  i < length u -> i < length v -> nth i (vsub u v) 0%Qc = (nth i u 0 - nth i v 0)%Qc.
Proof. apply nth_zipWith. Qed.

Lemma nth_vscale c u i : i < length u -> nth i (vscale c u) 0%Qc = (c * nth i u 0)%Qc.
Proof.
  intro H. unfold vscale. rewrite nth_indep with (d' := Qcmult c 0%Qc)
    by (rewrite length_map; exact H).
  apply map_nth.
Qed.

Lemma nth_mat_vec A x i : i < length A -> nth i (mat_vec A x) 0%Qc = dot (nth i A []) x.
Proof.
  intro H. unfold mat_vec.
  rewrite nth_indep with (d' := dot [] x) by (rewrite length_map; exact H).
  apply (map_nth (fun r => dot r x)).
Qed.

Lemma dot_nil_l v : dot [] v = 0%Qc.
Proof. reflexivity. Qed.

Lemma dot_nil_r u : dot u [] = 0%Qc.
Proof. destruct u; reflexivity. Qed.

Lemma dot_cons a u b v : dot (a :: u) (b :: v) = (a * b + dot u v)%Qc.
Proof. reflexivity. Qed.

Lemma dot_comm u v : dot u v = dot v u.
Proof.
  revert v; induction u as [|a u IH]; intros [|b v]; try reflexivity.
  rewrite !dot_cons, IH. ring.
Qed.

Lemma dot_vadd_r w u v :
  length u = length v -> length w = length u ->
  dot w (vadd u v) = (dot w u + dot w v)%Qc.
Proof.
  revert u v; induction w as [|c w IH]; intros [|a u] [|b v] H1 H2; simpl in *;
    try discriminate; try (rewrite ?dot_nil_l; ring).
  unfold vadd in *. simpl. rewrite !dot_cons, IH by lia. ring.
Qed.

Lemma dot_vsub_r w u v :
  length u = length v -> length w = length u ->
  dot w (vsub u v) = (dot w u - dot w v)%Qc.
Proof.
  revert u v; induction w as [|c w IH]; intros [|a u] [|b v] H1 H2; simpl in *;
    try discriminate; try (rewrite ?dot_nil_l; ring).
  unfold vsub in *. simpl. rewrite !dot_cons, IH by lia. ring.
Qed.

Lemma dot_vscale_r w c u : dot w (vscale c u) = (c * dot w u)%Qc.
Proof.
  revert u; induction w as [|d w IH]; intros [|a u]; simpl;
    try (rewrite ?dot_nil_l, ?dot_nil_r; ring).
  unfold vscale in *. simpl. rewrite !dot_cons, IH. ring.
Qed.

Lemma dot_vadd_l w u v :
  length u = length v -> length w = length u ->
  dot (vadd u v) w = (dot u w + dot v w)%Qc.
Proof.
  intros. rewrite dot_comm, dot_vadd_r by auto. rewrite (dot_comm w u), (dot_comm w v).
  reflexivity.
Qed.

Lemma dot_vscale_l w c u : dot (vscale c u) w = (c * dot u w)%Qc.
Proof. rewrite dot_comm, dot_vscale_r, dot_comm. reflexivity. Qed.

Lemma dot_zeros_l n v : dot (zeros n) v = 0%Qc.
Proof.
  revert v; induction n as [|n IH]; intros [|b v]; simpl; try reflexivity.
  unfold zeros in *. simpl. rewrite dot_cons, IH. ring.
Qed.

Lemma dot_zeros_r n v : dot v (zeros n) = 0%Qc.
Proof. rewrite dot_comm. apply dot_zeros_l. Qed.

Lemma dot_app u1 u2 v1 v2 :
  length u1 = length v1 -> dot (u1 ++ u2) (v1 ++ v2) = (dot u1 v1 + dot u2 v2)%Qc.
Proof.
  revert v1; induction u1 as [|a u1 IH]; intros [|b v1] H; simpl in *; try discriminate.
  - rewrite dot_nil_l. ring.
  - rewrite !dot_cons, IH by lia. ring.
Qed.

Lemma dot_indicator_before w s n i :
  i < s -> dot w (map (fun j => if Nat.eqb j i then 1%Qc else 0%Qc) (seq s n)) = 0%Qc.
Proof.
  revert s n; induction w as [|b w IH]; intros s [|n] H; simpl; try reflexivity.
  rewrite dot_cons. destruct (Nat.eqb_spec s i); [lia|].
  rewrite IH by lia. ring.
Qed.

Lemma dot_indicator w s n i :
  length w = n -> s <= i < s + n ->
  dot w (map (fun j => if Nat.eqb j i then 1%Qc else 0%Qc) (seq s n)) = nth (i - s) w 0%Qc.
Proof.
  revert s n; induction w as [|a w IH]; intros s n Hl Hi; simpl in *.
  - lia.
  - destruct n as [|n]; [lia|]. simpl. rewrite dot_cons.
    destruct (Nat.eqb_spec s i) as [->|Hne].
    + replace (i - i) with 0 by lia.
      rewrite dot_indicator_before by lia. ring.
    + rewrite IH by lia. replace (i - s) with (S (i - S s)) by lia. simpl. ring.
Qed.

Lemma dot_unit_vec w n i :
  length w = n -> i < n -> dot w (unit_vec n i) = nth i w 0%Qc.
Proof.
  intros Hl Hi. unfold unit_vec. rewrite dot_indicator with (n := n) by lia.
  now rewrite Nat.sub_0_r.
Qed.

Lemma vec_eqb_eq u v : vec_eqb u v = true -> u = v.
Proof.
  unfold vec_eqb. revert v; induction u as [|a u IH]; intros [|b v] H; simpl in *;
    try discriminate; auto.
  apply andb_true_iff in H as [Hl H]. simpl in H. apply andb_true_iff in H as [Hab H].
  apply Qc_eq_bool_correct in Hab. subst. f_equal. apply IH.
  now rewrite Hl, H.
Qed.

Lemma mat_eqb_eq A B : mat_eqb A B = true -> A = B.
Proof.
  unfold mat_eqb. revert B; induction A as [|a A IH]; intros [|b B] H; simpl in *;
    try discriminate; auto.
  apply andb_true_iff in H as [Hl H]. simpl in H. apply andb_true_iff in H as [Hab H].
  apply vec_eqb_eq in Hab. subst. f_equal. apply IH.
  now rewrite Hl, H.
Qed.

Lemma rows_have_spec n M : rows_have n M = true <-> forall r, In r M -> length r = n.
Proof.
  unfold rows_have. rewrite forallb_forall.
  split; intros H r Hr; specialize (H r Hr); [apply Nat.eqb_eq | apply Nat.eqb_eq]; auto.
Qed.

Lemma rows_have_nth n M i : rows_have n M = true -> i < length M -> length (nth i M []) = n.
Proof. intros H Hi. apply (proj1 (rows_have_spec n M) H). apply nth_In; auto. Qed.

(** ** Homogeneous matrices *)

Lemma to_matrix_vector_hom_of A b nin :
  length A = length b -> to_matrix_vector (hom_of A b nin) = (A, b).
Proof.
  intro H. unfold to_matrix_vector, hom_of. rewrite removelast_last.
  f_equal.
  - revert b H; induction A as [|r A IH]; intros [|bi b] H; simpl in *; try discriminate; auto.
    rewrite removelast_last, IH by lia. reflexivity.
  - revert b H; induction A as [|r A IH]; intros [|bi b] H; simpl in *; try discriminate; auto.
    rewrite last_last, IH by lia. reflexivity.
Qed.

Lemma affine_function_hom_of A b nin x :
  length A = length b ->
  affine_function (hom_of A b nin) x = Ok (vadd (mat_vec A x) b).
Proof.
  intro H. unfold affine_function. rewrite to_matrix_vector_hom_of by exact H. reflexivity.
Qed.

Lemma mapM_map_ok {A B : Type} (f : A -> result B) (g : A -> B) l :
  (forall a, In a l -> f a = Ok (g a)) -> mapM f l = Ok (map g l).
Proof.
  induction l as [|a l IH]; intro H; simpl; auto.
  rewrite H by (left; auto). simpl. rewrite IH by (intros; apply H; right; auto).
  reflexivity.
Qed.

(** ** Representable values *)

Lemma fits_int_qc q : fits Int64 q = true -> q = qc (Qnum (this q)).
Proof.
  unfold fits. intro H. apply Pos.eqb_eq in H. apply Qc_is_canon. unfold qc, Q2Qc. cbn [this].
  rewrite Qred_correct. destruct q as [[n d] Hq]; simpl in *. subst. reflexivity.
Qed.

Lemma fits_qc d z : fits d (qc z) = true.
Proof.
  destruct d; auto. unfold fits, qc, Q2Qc. cbn [this].
  rewrite Qred_identity; [reflexivity|]. apply Z.gcd_1_r.
Qed.

Lemma qc_plus a b : (qc a + qc b)%Qc = qc (a + b).
Proof.
  unfold qc, Qcplus. apply Q2Qc_eq_iff. cbn [this Q2Qc]. rewrite !Qred_correct, inject_Z_plus.
  reflexivity.
Qed.

Lemma qc_mult a b : (qc a * qc b)%Qc = qc (a * b).
Proof.
  unfold qc, Qcmult. apply Q2Qc_eq_iff. cbn [this Q2Qc]. rewrite !Qred_correct, inject_Z_mult.
  reflexivity.
Qed.

Lemma fits_plus d p q : fits d p = true -> fits d q = true -> fits d (p + q)%Qc = true.
Proof.
  destruct d; auto. intros Hp Hq. rewrite (fits_int_qc p Hp), (fits_int_qc q Hq), qc_plus.
  apply fits_qc.
Qed.

Lemma fits_mult d p q : fits d p = true -> fits d q = true -> fits d (p * q)%Qc = true.
Proof.
  destruct d; auto. intros Hp Hq. rewrite (fits_int_qc p Hp), (fits_int_qc q Hq), qc_mult.
  apply fits_qc.
Qed.

Lemma fits_zero d : fits d 0%Qc = true.
Proof. destruct d; reflexivity. Qed.

Lemma fits_one d : fits d 1%Qc = true.
Proof. destruct d; reflexivity. Qed.

Lemma fits_float d q : d <> Int64 -> fits d q = true.
Proof. destruct d; intros H; [congruence|reflexivity..]. Qed.

Lemma vec_fits_float d x : d <> Int64 -> vec_fits d x = true.
Proof. intro H. apply forallb_forall. intros q _. apply fits_float, H. Qed.

Lemma mat_fits_float d X : d <> Int64 -> mat_fits d X = true.
Proof. intro H. apply forallb_forall. intros x _. apply vec_fits_float, H. Qed.

Lemma vec_fits_spec d x : vec_fits d x = true <-> forall q, In q x -> fits d q = true.
Proof. apply forallb_forall. Qed.

Lemma mat_fits_spec d X : mat_fits d X = true <-> forall x, In x X -> vec_fits d x = true.
Proof. apply forallb_forall. Qed.

Lemma vec_fits_app d u v : vec_fits d (u ++ v) = vec_fits d u && vec_fits d v.
Proof. apply forallb_app. Qed.

Lemma mat_fits_app d U V : mat_fits d (U ++ V) = mat_fits d U && mat_fits d V.
Proof. apply forallb_app. Qed.

Lemma fits_dot d u v : vec_fits d u = true -> vec_fits d v = true -> fits d (dot u v) = true.
Proof.
  revert v; induction u as [|a u IH]; intros [|b v] Hu Hv; try apply fits_zero.
  rewrite dot_cons. simpl in Hu, Hv. apply andb_prop in Hu as [Ha Hu].
  apply andb_prop in Hv as [Hb Hv]. apply fits_plus; [apply fits_mult; auto|]. auto.
Qed.

Lemma vec_fits_vadd d u v : vec_fits d u = true -> vec_fits d v = true -> vec_fits d (vadd u v) = true.
Proof.
  unfold vadd. revert v; induction u as [|a u IH]; intros [|b v] Hu Hv; auto.
  simpl in *. apply andb_prop in Hu as [Ha Hu]. apply andb_prop in Hv as [Hb Hv].
  rewrite fits_plus by auto. simpl. auto.
Qed.

Lemma vec_fits_mat_vec d A x :
  mat_fits d A = true -> vec_fits d x = true -> vec_fits d (mat_vec A x) = true.
Proof.
  intros HA Hx. apply vec_fits_spec. intros q Hq. unfold mat_vec in Hq.
  apply in_map_iff in Hq as (r & <- & Hr). apply fits_dot; [|exact Hx].
  apply (proj1 (mat_fits_spec d A) HA r Hr).
Qed.

Lemma vec_fits_zeros d n : vec_fits d (zeros n) = true.
Proof. induction n; simpl; auto. rewrite fits_zero. exact IHn. Qed.

Lemma mat_fits_repeat d v k : vec_fits d v = true -> mat_fits d (repeat v k) = true.
Proof. intro H. induction k; simpl; auto. rewrite H. exact IHk. Qed.

Lemma mat_fits_hom_of d A b n :
  length A = length b -> mat_fits d (hom_of A b n) = true ->
  mat_fits d A = true /\ vec_fits d b = true.
Proof.
  unfold hom_of. rewrite mat_fits_app. intros Hl H. apply andb_prop in H as [H _].
  revert b Hl H; induction A as [|r A IH]; intros [|bi b] Hl H; simpl in *; try discriminate; auto.
  rewrite vec_fits_app in H. apply andb_prop in H as [H1 H]. apply andb_prop in H1 as [Hr Hbi].
  cbn in Hbi. rewrite Bool.andb_true_r in Hbi.
  destruct (IH b ltac:(lia) H) as [HA Hb]. rewrite Hr, HA, Hbi, Hb. auto.
Qed.

Lemma fits_int_any d q : fits Int64 q = true -> fits d q = true.
Proof. destruct d; intros H; [exact H|reflexivity|reflexivity]. Qed.

Lemma vec_fits_int_any d x : vec_fits Int64 x = true -> vec_fits d x = true.
Proof. rewrite !vec_fits_spec. intros H q Hq. apply fits_int_any, H, Hq. Qed.

Lemma mat_fits_int_any d X : mat_fits Int64 X = true -> mat_fits d X = true.
Proof. rewrite !mat_fits_spec. intros H x Hx. apply vec_fits_int_any, H, Hx. Qed.

Lemma vec_fits_unit_vec d n i : vec_fits d (unit_vec n i) = true.
Proof.
  apply vec_fits_spec. intros q Hq. unfold unit_vec in Hq. apply in_map_iff in Hq as (j & <- & _).
  destruct (Nat.eqb j i); [apply fits_one|apply fits_zero].
Qed.

Lemma mat_fits_identity d n : mat_fits d (identity n) = true.
Proof.
  apply mat_fits_spec. intros r Hr. unfold identity in Hr. apply in_map_iff in Hr as (i & <- & _).
  apply vec_fits_unit_vec.
Qed.

Lemma mat_fits_perm_matrix d n order : mat_fits d (perm_matrix n order) = true.
Proof.
  apply mat_fits_spec. intros r Hr. unfold perm_matrix in Hr. apply in_map_iff in Hr as (i & <- & _).
  apply vec_fits_spec. intros q Hq. apply in_map_iff in Hq as (j & <- & _).
  destruct (Nat.eqb i n && Nat.eqb j n); [apply fits_one|].
  destruct (nth_error order j) as [k|]; [destruct (Nat.eqb k i)|]; auto using fits_one, fits_zero.
Qed.

Lemma vec_fits_vscale d s v : fits d s = true -> vec_fits d v = true -> vec_fits d (vscale s v) = true.
Proof.
  intros Hs Hv. rewrite vec_fits_spec in Hv |- *. intros q Hq. unfold vscale in Hq.
  apply in_map_iff in Hq as (p & <- & Hp). apply fits_mult; auto.
Qed.

Lemma mat_fits_map_vscale d s X :
  fits d s = true -> mat_fits d X = true -> mat_fits d (map (vscale s) X) = true.
Proof.
  intros Hs HX. rewrite mat_fits_spec in HX |- *. intros x Hx. apply in_map_iff in Hx as (y & <- & Hy).
  apply vec_fits_vscale; auto.
Qed.

Lemma mat_fits_zipWith_vadd d X Y :
  mat_fits d X = true -> mat_fits d Y = true -> mat_fits d (zipWith vadd X Y) = true.
Proof.
  revert Y; induction X as [|x X IH]; intros [|y Y] HX HY; simpl in *; auto.
  apply andb_prop in HX as [Hx HX]. apply andb_prop in HY as [Hy HY].
  rewrite vec_fits_vadd by auto. simpl. apply IH; auto.
Qed.

Lemma call_affine_hom_of A b inc outc x :
  length A = ndim outc -> length b = ndim outc -> rows_have (ndim inc) x = true ->
  mat_fits (coord_dtype inc) x = true -> coord_dtype inc = coord_dtype outc ->
  mat_fits (coord_dtype outc) A = true -> vec_fits (coord_dtype outc) b = true ->
  call (Affine (mkAffineTransform (hom_of A b (ndim inc)) inc outc)) x
    = Ok (map (fun xr => vadd (mat_vec A xr) b) x).
Proof.
  intros HA Hb Hx Hfx Hd HfA Hfb. unfold call, checked_values. simpl. rewrite Hx, Hfx. simpl.
  rewrite mapM_map_ok with (g := fun xr => vadd (mat_vec A xr) b)
    by (intros; apply affine_function_hom_of; lia).
  simpl. replace (rows_have (ndim outc) (map (fun xr => vadd (mat_vec A xr) b) x)) with true.
  - replace (mat_fits (coord_dtype outc) (map (fun xr => vadd (mat_vec A xr) b) x)) with true;
      [reflexivity|].
    symmetry. apply mat_fits_spec. intros r Hr. apply in_map_iff in Hr as [xr [<- Hxr]].
    apply vec_fits_vadd; [|exact Hfb]. apply vec_fits_mat_vec; [exact HfA|].
    rewrite <- Hd. apply (proj1 (mat_fits_spec _ x) Hfx xr Hxr).
  - symmetry. apply rows_have_spec. intros r Hr. apply in_map_iff in Hr as [xr [<- _]].
    rewrite length_vadd; rewrite length_mat_vec; lia.
Qed.

(** C2: a well-formed [AffineTransform] whose matrix is [[A, b], [0, 1]]
    evaluates a batch of valid points [x] (of the input dimension, and
    representable at the input precision) to [x . A^T + b], point by
    point; and [AffineTransform(diag(1,2,3,1), CS('ijk'), CS('xyz'))] maps
    [[1,1,1]] to [[1,2,3]], its inverse maps [[1,2,3]] back to
    [[1,1,1]]. *)
Theorem affine_call_eval (A : mat) (b : vec) (inc outc : CoordinateSystem) (x : mat) :
  wf_affine (mkAffineTransform (hom_of A b (ndim inc)) inc outc) ->
  length A = ndim outc -> length b = ndim outc ->
  rows_have (ndim inc) x = true -> mat_fits (coord_dtype inc) x = true ->
  call (Affine (mkAffineTransform (hom_of A b (ndim inc)) inc outc)) x
    = Ok (map (fun xr => vadd (mat_vec A xr) b) x)
  /\ ok_mat_eqb (let* cm := AffineTransform_new (diag [qc 1; qc 2; qc 3; qc 1]) Int64
                     (mkCS ["i"; "j"; "k"] "" Float64) (mkCS ["x"; "y"; "z"] "" Float64) in
                 call cm [[qc 1; qc 1; qc 1]]) [[qc 1; qc 2; qc 3]] = true
  /\ ok_mat_eqb (let* cm := AffineTransform_new (diag [qc 1; qc 2; qc 3; qc 1]) Int64
                     (mkCS ["i"; "j"; "k"] "" Float64) (mkCS ["x"; "y"; "z"] "" Float64) in
                 call_inverse cm [[qc 1; qc 2; qc 3]]) [[qc 1; qc 1; qc 1]] = true.
Proof.
  intros Hwf HA Hb Hx Hfx. split; [|split; vm_compute; reflexivity].
  destruct Hwf as (_ & _ & _ & _ & Hd & Hf). cbn [affine at_input_coords at_output_coords] in Hd, Hf.
  destruct (mat_fits_hom_of _ A b (ndim inc) ltac:(lia) Hf) as [HfA Hfb].
  rewrite Hd in HfA, Hfb. now apply call_affine_hom_of.
Qed.

Lemma affine_call_eval_witness :
  let inc := mkCS ["i"] "" Int64 in let outc := mkCS ["x"] "" Int64 in
  (wf_affine (mkAffineTransform (hom_of [[qc 2]] [qc 1] (ndim inc)) inc outc)
   /\ length [[qc 2]] = ndim outc /\ length [qc 1] = ndim outc
   /\ rows_have (ndim inc) [[qc 3]] = true /\ mat_fits (coord_dtype inc) [[qc 3]] = true)
  /\ call (Affine (mkAffineTransform (hom_of [[qc 2]] [qc 1] (ndim inc)) inc outc)) [[qc 3]]
       = Ok (map (fun xr => vadd (mat_vec [[qc 2]] xr) [qc 1]) [[qc 3]]).
Proof.
  intros inc outc.
  assert (Hw : wf_affine (mkAffineTransform (hom_of [[qc 2]] [qc 1] (ndim inc)) inc outc))
    by (unfold wf_affine; repeat split; vm_compute; reflexivity).
  split; [split; [exact Hw|repeat split; reflexivity]|].
  apply (affine_call_eval [[qc 2]] [qc 1] inc outc [[qc 3]]); [exact Hw|reflexivity..].
Defined.

Lemma ok_mat_eqb_neq r1 r2 m :
  ok_mat_eqb r1 m = true -> ok_mat_eqb r2 m = false -> r1 <> r2.
Proof. intros H1 H2 ->. congruence. Qed.

Lemma vadd_comm u v : vadd u v = vadd v u.
Proof.
  unfold vadd. revert v; induction u as [|a u IH]; intros [|b v]; simpl; auto.
  rewrite IH, Qcplus_comm. reflexivity.
Qed.

Lemma map_repeat' {A B : Type} (f : A -> B) (a : A) n : map f (repeat a n) = repeat (f a) n.
Proof. induction n; simpl; congruence. Qed.

Lemma Qcdiv_0_l s : Qcdiv 0%Qc s = 0%Qc.
Proof. unfold Qcdiv. ring. Qed.

Lemma nth_map_div r l s :
  r < length l -> nth r (map (fun q => Qcdiv q s) l) 0%Qc = Qcdiv (nth r l 0%Qc) s.
Proof.
  intro H. rewrite nth_indep with (d' := Qcdiv 0%Qc s) by (rewrite length_map; exact H).
  apply (map_nth (fun q => Qcdiv q s)).
Qed.


Lemma zipWith_map_repeat_n {A B C D : Type} (f : B -> C -> D) (g : A -> B) (c : C) l n :
  length l = n -> zipWith f (map g l) (repeat c n) = map (fun x => f (g x) c) l.
Proof. intros <-. apply zipWith_map_repeat. Qed.

Lemma repeat_as_map {A : Type} (a : A) s n : repeat a n = map (fun _ => a) (seq s n).
Proof. revert s; induction n; intros s; simpl; f_equal; auto. Qed.

Lemma linearize_pointwise (f : vec -> vec) nin nout step o :
  (forall x, length x = nin -> length (f x) = nout) -> length o = nin ->
  linearize (fun xs => Ok (map f xs)) nin step (Some o)
    = Ok (linearization_spec f nin nout step o).
Proof.
  intros Hf Ho. unfold linearize. simpl. rewrite Ho, Nat.eqb_refl. simpl.
  unfold identity. rewrite map_map.
  rewrite zipWith_map_repeat_n by apply length_seq.
  rewrite map_map, (repeat_as_map (A:=vec) o 0 nin), map_map, zipWith_map_map.
  assert (Hlen : forall i, length (vadd (vscale step (unit_vec nin i)) o) = nin).
  { intro i. rewrite length_vadd; rewrite length_vscale, length_unit_vec; lia. }
  replace (match map (fun x => f (vadd (vscale step (unit_vec nin x)) o)) (seq 0 nin) with
           | [] => length (f o) | r :: _ => length r end) with nout
    by (destruct nin; [simpl; symmetry; apply Hf; exact Ho | cbn [map seq]; symmetry; apply Hf, Hlen]).
  rewrite Hf, Nat.eqb_refl by exact Ho.
  unfold linearization_spec. f_equal. f_equal.
  rewrite <- (map_nth_seq (f o) 0%Qc) at 1. rewrite Hf by exact Ho.
  unfold transpose. rewrite zipWith_map_map. apply map_ext_in. intros r Hr.
  apply in_seq in Hr. f_equal. unfold column. rewrite !map_map. apply map_ext_in.
  intros i Hi. rewrite nth_map_div.
  - rewrite nth_vsub; rewrite ?Hf, ?Hlen; auto; try lia.
    rewrite vadd_comm. reflexivity.
  - rewrite length_vsub; rewrite ?Hf, ?Hlen; auto; lia.
Qed.

Lemma zipWith_as_map {A B C : Type} (f : A -> B -> C) l1 l2 da db :
  length l1 = length l2 ->
  zipWith f l1 l2 = map (fun i => f (nth i l1 da) (nth i l2 db)) (seq 0 (length l1)).
Proof.
  revert l2; induction l1 as [|a l1 IH]; intros [|b l2] H; simpl in *; try discriminate; auto.
  f_equal. rewrite IH by lia. rewrite <- seq_shift, map_map. reflexivity.
Qed.

Lemma linearize_none f n s : linearize f n s None = linearize f n s (Some (zeros n)).
Proof. unfold linearize. simpl. rewrite length_zeros, Nat.eqb_refl. reflexivity. Qed.

Lemma vadd_mat_vec_zeros A b n :
  length A = length b -> vadd (mat_vec A (zeros n)) b = b.
Proof.
  revert b; induction A as [|r A IH]; intros [|bi b] H; simpl in *; try discriminate; auto.
  unfold vadd in *. simpl. f_equal.
  - rewrite dot_zeros_r. ring.
  - apply IH. lia.
Qed.

Lemma linearize_affine_at A b nin step o :
  rows_have nin A = true -> length b = length A -> step <> 0%Qc -> length o = nin ->
  linearize (fun xs => Ok (map (fun x => vadd (mat_vec A x) b) xs)) nin step (Some o)
    = Ok (hom_of A (vadd (mat_vec A o) b) nin).
Proof.
  intros HA Hb Hs Ho.
  rewrite linearize_pointwise with (nout := length A);
    [| intros x Hx; rewrite length_vadd; rewrite ?length_mat_vec; lia | exact Ho].
  f_equal. unfold linearization_spec, hom_of. f_equal.
  rewrite (zipWith_as_map _ A _ [] 0%Qc)
    by (rewrite length_vadd; rewrite length_mat_vec; lia).
  apply map_ext_in. intros r Hr. apply in_seq in Hr.
  assert (HAr : length (nth r A []) = nin) by (apply rows_have_nth; auto; lia).
  f_equal. rewrite <- (map_nth_seq (nth r A []) 0%Qc) at 1. rewrite HAr.
  apply map_ext_in. intros i Hi. apply in_seq in Hi.
  assert (Hl : length (vscale step (unit_vec nin i)) = nin)
    by (rewrite length_vscale, length_unit_vec; reflexivity).
  rewrite !nth_vadd, !nth_mat_vec by (rewrite ?length_mat_vec; lia).
  rewrite dot_vadd_r, dot_vscale_r, dot_unit_vec by lia.
  field. exact Hs.
Qed.

Lemma linearize_affine_origin0 A b nin step :
  rows_have nin A = true -> length b = length A -> step <> 0%Qc ->
  linearize (fun xs => Ok (map (fun x => vadd (mat_vec A x) b) xs)) nin step None
    = Ok (hom_of A b nin).
Proof.
  intros HA Hb Hs. rewrite linearize_none, linearize_affine_at by (rewrite ?length_zeros; auto).
  rewrite vadd_mat_vec_zeros by auto. reflexivity.
Qed.

(** C4 (corrected): [linearize] evaluates its argument at the origin and at
    [origin + step * e_i]; its linear-block column [i] is the divided
    difference, its translation column is [f(origin)] and its last row is
    [[0, ..., 0, 1]].  For an affine [f] with matrix [M = [[A, b], [0, 1]]]
    and a nonzero step, the linear block [A] is reproduced at every origin,
    but the translation column is [f(origin) = A origin + b]: [M] itself is
    reproduced exactly when the origin is zero (the default). *)
Theorem linearize_affine_exact (A : mat) (b o : vec) (nin : nat) (step : Qc) :
  rows_have nin A = true -> length b = length A -> step <> 0%Qc -> length o = nin ->
  (forall (f : vec -> vec) (nout : nat),
      (forall x, length x = nin -> length (f x) = nout) ->
      linearize (fun xs => Ok (map f xs)) nin step (Some o)
        = Ok (linearization_spec f nin nout step o))
  /\ linearize (fun xs => Ok (map (fun x => vadd (mat_vec A x) b) xs)) nin step (Some o)
       = Ok (hom_of A (vadd (mat_vec A o) b) nin)
  /\ linearize (fun xs => Ok (map (fun x => vadd (mat_vec A x) b) xs)) nin step None
       = Ok (hom_of A b nin).
Proof.
  intros HA Hb Hs Ho. split; [|split].
  - intros f nout Hf. apply linearize_pointwise; assumption.
  - apply linearize_affine_at; assumption.
  - apply linearize_affine_origin0; assumption.
Qed.

Lemma linearize_affine_exact_witness :
  rows_have 1 [[qc 2]] = true /\ length [qc 1] = length [[qc 2]] /\ qc 1 <> 0%Qc
  /\ length [qc 3] = 1 /\
  ((forall (f : vec -> vec) (nout : nat),
      (forall x, length x = 1 -> length (f x) = nout) ->
      linearize (fun xs => Ok (map f xs)) 1 (qc 1) (Some [qc 3])
        = Ok (linearization_spec f 1 nout (qc 1) [qc 3]))
  /\ linearize (fun xs => Ok (map (fun x => vadd (mat_vec [[qc 2]] x) [qc 1]) xs)) 1 (qc 1) (Some [qc 3])
       = Ok (hom_of [[qc 2]] (vadd (mat_vec [[qc 2]] [qc 3]) [qc 1]) 1)
  /\ linearize (fun xs => Ok (map (fun x => vadd (mat_vec [[qc 2]] x) [qc 1]) xs)) 1 (qc 1) None
       = Ok (hom_of [[qc 2]] [qc 1] 1)).
Proof.
  assert (Hs : qc 1 <> 0%Qc) by (intro H; apply (f_equal this) in H; vm_compute in H; discriminate).
  split; [reflexivity|split; [reflexivity|split; [exact Hs|split; [reflexivity|]]]].
  apply linearize_affine_exact; [reflexivity|reflexivity|exact Hs|reflexivity].
Defined.

(** C4 counterexample: the identity map of one variable, whose matrix is
    [[1, 0], [0, 1]], linearized at origin [[1]] with step 1 gives
    [[1, 1], [0, 1]]: the translation column is [f(origin)], not [b]. *)
Lemma linearize_affine_origin_cex :
  let f := fun xs => Ok (map (fun x => vadd (mat_vec [[qc 1]] x) [qc 0]) xs) in
  ok_mat_eqb (linearize f 1 (qc 1) (Some [qc 1])) [[qc 1; qc 1]; [qc 0; qc 1]] = true
  /\ linearize f 1 (qc 1) (Some [qc 1]) <> Ok (hom_of [[qc 1]] [qc 0] 1).
Proof.
  intro f. split; [vm_compute; reflexivity|].
  apply (ok_mat_eqb_neq _ _ [[qc 1; qc 1]; [qc 0; qc 1]]); vm_compute; reflexivity.
Qed.

Lemma safe_dtype_same3 d : dtype_lub d (dtype_lub d (dtype_lub d Int64)) = d.
Proof. destruct d; reflexivity. Qed.

Lemma dtype_eqb_refl d : dtype_eqb d d = true.
Proof. destruct d; reflexivity. Qed.

Lemma CoordinateSystem_new_self cs :
  distinctb (coord_names cs) = true ->
  CoordinateSystem_new (coord_names cs) (cs_name cs) (coord_dtype cs) = Ok cs.
Proof. destruct cs; unfold CoordinateSystem_new; simpl; intros ->; reflexivity. Qed.

(** ** The store of arrays *)

Module HeapFacts.

Lemma read_lt s l a : Heap.read s l = Ok a -> l < length s.
Proof.
  unfold Heap.read. destruct (nth_error s l) eqn:E; [|discriminate].
  intros _. apply nth_error_Some. congruence.
Qed.

Lemma read_alloc_old s a l : l < length s -> Heap.read (s ++ [a]) l = Heap.read s l.
Proof. intro H. unfold Heap.read. rewrite nth_error_app1 by exact H. reflexivity. Qed.

Lemma read_alloc_new s a : Heap.read (s ++ [a]) (length s) = Ok a.
Proof. unfold Heap.read. rewrite nth_error_app2, Nat.sub_diag by lia. reflexivity. Qed.

Lemma nth_error_replace_neq {A : Type} (l : list A) i x j :
  i < length l -> j <> i -> nth_error (Heap.replace l i x) j = nth_error l j.
Proof.
  intros Hi Hj. unfold Heap.replace.
  destruct (Nat.lt_ge_cases j i) as [Hlt|Hge].
  - rewrite nth_error_app1 by (rewrite length_firstn; lia).
    rewrite nth_error_firstn. apply Nat.ltb_lt in Hlt. rewrite Hlt. reflexivity.
  - rewrite nth_error_app2 by (rewrite length_firstn; lia).
    rewrite length_firstn, Nat.min_l by lia.
    destruct (j - i) as [|k] eqn:E; [lia|]. cbn [app nth_error].
    rewrite nth_error_skipn. f_equal. lia.
Qed.

Lemma length_replace {A : Type} (l : list A) i x :
  i < length l -> length (Heap.replace l i x) = length l.
Proof.
  intro H. unfold Heap.replace. rewrite !length_app, length_firstn, length_skipn. simpl. lia.
Qed.

Lemma setitem_other s l i j v s' l' :
  Heap.setitem s l i j v = Ok s' -> l' <> l ->
  Heap.read s' l' = Heap.read s l' /\ length s' = length s.
Proof.
  unfold Heap.setitem. destruct (Heap.read s l) as [a|e] eqn:Ha; simpl; [|discriminate].
  destruct (_ && _); [|discriminate]. intros [= <-] Hne.
  apply read_lt in Ha. unfold Heap.read. split.
  - rewrite nth_error_replace_neq by assumption. reflexivity.
  - apply length_replace. exact Ha.
Qed.

Lemma setitems_other s l muts s' l' :
  Heap.setitems s l muts = Ok s' -> l' <> l -> Heap.read s' l' = Heap.read s l'.
Proof.
  revert s; induction muts as [|[[i j] v] ms IH]; intros s H Hne; simpl in H.
  - congruence.
  - destruct (Heap.setitem s l i j v) as [s1|e] eqn:E; simpl in H; [|discriminate].
    rewrite (IH s1 H Hne). apply (setitem_other _ _ _ _ _ _ _ E Hne).
Qed.

End HeapFacts.

(** C9: [AffineTransform.copy] puts a copy of the matrix in a fresh array:
    the copy has an equal matrix and the same coordinate systems, and item
    assignments on either array leave the other transform's matrix (and its
    coordinate systems, which an object never rebinds) unchanged. *)
Theorem copy_deep s a :
  Heap.valid_obj s a ->
  exists a' s',
    Heap.copy s a = Ok (a', s')
    /\ Heap.affine_ref a' = length s /\ Heap.affine_ref a' <> Heap.affine_ref a
    /\ Heap.h_input_coords a' = Heap.h_input_coords a
    /\ Heap.h_output_coords a' = Heap.h_output_coords a
    /\ Heap.affine_of s' a' = Heap.affine_of s a
    /\ Heap.affine_of s' a = Heap.affine_of s a
    /\ (forall muts s'', Heap.setitems s' (Heap.affine_ref a') muts = Ok s'' ->
          Heap.affine_of s'' a = Heap.affine_of s a)
    /\ (forall muts s'', Heap.setitems s' (Heap.affine_ref a) muts = Ok s'' ->
          Heap.affine_of s'' a' = Heap.affine_of s a).
Proof.
  intros (arr & Hr & Hlen & Hrows & Hdi & Hdo & Hdt & Hio).
  pose proof (HeapFacts.read_lt _ _ _ Hr) as Hlt.
  destruct a as [l inc outc]; simpl in *.
  exists (Heap.mkObj (length s) inc outc), (s ++ [arr]).
  assert (Hc : Heap.copy s (Heap.mkObj l inc outc)
               = Ok (Heap.mkObj (length s) inc outc, s ++ [arr])).
  { unfold Heap.copy, Heap.array_copy, Heap.AffineTransform_new, Heap.asarray, Heap.alloc.
    simpl. rewrite Hr. simpl. rewrite HeapFacts.read_alloc_new. simpl.
    rewrite Hdt, <- Hio, safe_dtype_same3, CoordinateSystem_new_self by exact Hdi. simpl.
    rewrite Hio, CoordinateSystem_new_self by exact Hdo. simpl.
    rewrite <- Hio, <- Hdt, dtype_eqb_refl. simpl.
    rewrite HeapFacts.read_alloc_new. simpl.
    rewrite Hlen, Nat.eqb_refl, Hrows. reflexivity. }
  unfold Heap.affine_of. simpl.
  assert (Hold : Heap.read (s ++ [arr]) l = Heap.read s l)
    by (apply HeapFacts.read_alloc_old; exact Hlt).
  repeat split; auto; try lia.
  - rewrite HeapFacts.read_alloc_new, Hr. reflexivity.
  - rewrite Hold. reflexivity.
  - intros muts s'' H. rewrite (HeapFacts.setitems_other _ _ _ _ _ H) by lia.
    rewrite Hold. reflexivity.
  - intros muts s'' H. rewrite (HeapFacts.setitems_other _ _ _ _ _ H) by lia.
    rewrite HeapFacts.read_alloc_new, Hr. reflexivity.
Qed.

Lemma copy_deep_witness :
  let s := [Heap.mkArray (identity 2) Float64] in
  let a := Heap.mkObj 0 (mkCS ["i"] "" Float64) (mkCS ["x"] "" Float64) in
  Heap.valid_obj s a /\
  exists a' s',
    Heap.copy s a = Ok (a', s')
    /\ Heap.affine_ref a' = length s /\ Heap.affine_ref a' <> Heap.affine_ref a
    /\ Heap.h_input_coords a' = Heap.h_input_coords a
    /\ Heap.h_output_coords a' = Heap.h_output_coords a
    /\ Heap.affine_of s' a' = Heap.affine_of s a
    /\ Heap.affine_of s' a = Heap.affine_of s a
    /\ (forall muts s'', Heap.setitems s' (Heap.affine_ref a') muts = Ok s'' ->
          Heap.affine_of s'' a = Heap.affine_of s a)
    /\ (forall muts s'', Heap.setitems s' (Heap.affine_ref a) muts = Ok s'' ->
          Heap.affine_of s'' a' = Heap.affine_of s a).
Proof.
  intros s a.
  assert (H : Heap.valid_obj s a)
    by (exists (Heap.mkArray (identity 2) Float64); repeat split).
  split; [exact H | apply copy_deep; exact H].
Defined.

(* ------------------------------------------------------------------ *)
(** ** Correctness of [linalg_inv] *)

Lemma nth_map_in {A B : Type} (f : A -> B) l i d d' :
  i < length l -> nth i (map f l) d' = f (nth i l d).
Proof.
  intro H. rewrite nth_indep with (d' := f d) by (rewrite length_map; exact H).
  apply map_nth.
Qed.

Lemma length_swap_rows i j M : length (swap_rows i j M) = length M.
Proof. unfold swap_rows. rewrite length_map, length_seq. reflexivity. Qed.

Lemma length_scale_row i c M : length (scale_row i c M) = length M.
Proof. unfold scale_row. rewrite length_map, length_seq. reflexivity. Qed.

Lemma length_add_row i j c M : length (add_row i j c M) = length M.
Proof. unfold add_row. rewrite length_map, length_seq. reflexivity. Qed.

Lemma nth_swap_rows i j M k :
  k < length M ->
  nth k (swap_rows i j M) [] = nth (if Nat.eqb k i then j else if Nat.eqb k j then i else k) M [].
Proof.
  intro H. unfold swap_rows.
  rewrite nth_map_in with (d := 0) by (rewrite length_seq; exact H).
  rewrite seq_nth by exact H. reflexivity.
Qed.

Lemma nth_scale_row i c M k :
  k < length M ->
  nth k (scale_row i c M) [] = if Nat.eqb k i then vscale c (nth k M []) else nth k M [].
Proof.
  intro H. unfold scale_row.
  rewrite nth_map_in with (d := 0) by (rewrite length_seq; exact H).
  rewrite seq_nth by exact H. reflexivity.
Qed.

Lemma nth_add_row i j c M k :
  k < length M ->
  nth k (add_row i j c M) []
  = if Nat.eqb k i then vadd (nth k M []) (vscale c (nth j M [])) else nth k M [].
Proof.
  intro H. unfold add_row.
  rewrite nth_map_in with (d := 0) by (rewrite length_seq; exact H).
  rewrite seq_nth by exact H. reflexivity.
Qed.

Lemma swap_rows_map (f : vec -> vec) X i j :
  i < length X -> j < length X -> swap_rows i j (map f X) = map f (swap_rows i j X).
Proof.
  intros Hi Hj. unfold swap_rows. rewrite length_map, map_map.
  apply map_ext_in. intros k Hk. apply in_seq in Hk.
  apply nth_map_in. destruct (Nat.eqb k i), (Nat.eqb k j); lia.
Qed.

Lemma scale_row_map (f : vec -> vec) X i c :
  (forall r, In r X -> f (vscale c r) = vscale c (f r)) ->
  scale_row i c (map f X) = map f (scale_row i c X).
Proof.
  intros Hf. unfold scale_row. rewrite length_map, map_map.
  apply map_ext_in. intros k Hk. apply in_seq in Hk.
  rewrite (nth_map_in f X k []) by lia.
  destruct (Nat.eqb k i); [|reflexivity].
  rewrite Hf; [reflexivity|]. apply nth_In. lia.
Qed.

Lemma add_row_map (f : vec -> vec) X i j c :
  j < length X ->
  (forall r s, In r X -> In s X -> f (vadd r (vscale c s)) = vadd (f r) (vscale c (f s))) ->
  add_row i j c (map f X) = map f (add_row i j c X).
Proof.
  intros Hj Hf. unfold add_row. rewrite length_map, map_map.
  apply map_ext_in. intros k Hk. apply in_seq in Hk.
  rewrite !(nth_map_in f X _ []) by lia.
  destruct (Nat.eqb k i); [|reflexivity].
  rewrite Hf; [reflexivity| apply nth_In; lia | apply nth_In; lia].
Qed.

Lemma rows_have_nth_iff n M :
  rows_have n M = true <-> forall i, i < length M -> length (nth i M []) = n.
Proof.
  split; [intros H i Hi; apply rows_have_nth; auto|].
  intro H. apply rows_have_spec. intros r Hr.
  apply In_nth with (d := []) in Hr. destruct Hr as (i & Hi & <-). auto.
Qed.

Lemma rows_have_swap_rows n i j M :
  i < length M -> j < length M -> rows_have n M = true -> rows_have n (swap_rows i j M) = true.
Proof.
  intros Hi Hj H. apply rows_have_nth_iff. rewrite length_swap_rows. intros k Hk.
  rewrite nth_swap_rows by exact Hk. apply rows_have_nth; auto.
  destruct (Nat.eqb k i), (Nat.eqb k j); lia.
Qed.

Lemma rows_have_scale_row n i c M :
  rows_have n M = true -> rows_have n (scale_row i c M) = true.
Proof.
  intros H. apply rows_have_nth_iff. rewrite length_scale_row. intros k Hk.
  rewrite nth_scale_row by exact Hk.
  destruct (Nat.eqb k i); rewrite ?length_vscale; apply rows_have_nth; auto.
Qed.

Lemma rows_have_add_row n i j c M :
  j < length M -> rows_have n M = true -> rows_have n (add_row i j c M) = true.
Proof.
  intros Hj H. apply rows_have_nth_iff. rewrite length_add_row. intros k Hk.
  rewrite nth_add_row by exact Hk.
  destruct (Nat.eqb k i); [|apply rows_have_nth; auto].
  rewrite length_vadd; rewrite ?length_vscale; rewrite !(rows_have_nth n M) by auto; reflexivity.
Qed.

Lemma nth_repeat_lt {A : Type} (a d : A) n k : k < n -> nth k (repeat a n) d = a.
Proof.
  revert k; induction n as [|n IH]; intros [|k] H; simpl; try lia; auto.
  apply IH. lia.
Qed.

Lemma swap_rows_involutive i j X :
  i < length X -> j < length X -> swap_rows i j (swap_rows i j X) = X.
Proof.
  intros Hi Hj. apply nth_ext with (d := []) (d' := []); rewrite ?length_swap_rows; auto.
  intros k Hk. rewrite nth_swap_rows by (rewrite length_swap_rows; exact Hk).
  destruct (Nat.eqb k i) eqn:E1; [|destruct (Nat.eqb k j) eqn:E2].
  - apply Nat.eqb_eq in E1. subst. rewrite nth_swap_rows by exact Hj.
    destruct (Nat.eqb j i) eqn:E3; [apply Nat.eqb_eq in E3; subst; reflexivity|].
    rewrite Nat.eqb_refl. reflexivity.
  - apply Nat.eqb_eq in E2. subst. rewrite nth_swap_rows by exact Hi.
    rewrite Nat.eqb_refl. reflexivity.
  - rewrite nth_swap_rows by exact Hk. rewrite E1, E2. reflexivity.
Qed.

Lemma vscale_vscale a b r : vscale a (vscale b r) = vscale (a * b)%Qc r.
Proof. unfold vscale. rewrite map_map. apply map_ext. intro x. ring. Qed.

Lemma vscale_1 r : vscale 1%Qc r = r.
Proof. unfold vscale. rewrite <- map_id. apply map_ext. intro x. ring. Qed.

Lemma scale_row_involutive i c X :
  c <> 0%Qc -> scale_row i (/ c)%Qc (scale_row i c X) = X.
Proof.
  intros Hc. apply nth_ext with (d := []) (d' := []); rewrite ?length_scale_row; auto.
  intros k Hk. rewrite !nth_scale_row by (rewrite ?length_scale_row; exact Hk).
  destruct (Nat.eqb k i); [|reflexivity].
  rewrite vscale_vscale. replace (/ c * c)%Qc with 1%Qc by (field; exact Hc).
  apply vscale_1.
Qed.

Lemma vadd_vscale_cancel r s c :
  length r = length s -> vadd (vadd r (vscale c s)) (vscale (- c) s) = r.
Proof.
  revert s; induction r as [|a r IH]; intros [|b s] H; simpl in *; try discriminate; auto.
  unfold vadd, vscale in *. simpl. f_equal; [ring|]. apply IH. lia.
Qed.

Lemma add_row_involutive n i j c X :
  i <> j -> j < length X -> rows_have n X = true ->
  add_row i j (- c)%Qc (add_row i j c X) = X.
Proof.
  intros Hij Hj HX. apply nth_ext with (d := []) (d' := []); rewrite ?length_add_row; auto.
  intros k Hk. rewrite !nth_add_row by (rewrite ?length_add_row; lia).
  destruct (Nat.eqb k i) eqn:E; [|reflexivity].
  apply Nat.eqb_eq in E; subst k.
  rewrite ?Nat.eqb_refl.
  destruct (Nat.eqb j i) eqn:E2; [apply Nat.eqb_eq in E2; lia|].
  apply vadd_vscale_cancel. rewrite !(rows_have_nth n X) by auto. reflexivity.
Qed.


Lemma swap_rows_repeat i j (a : vec) n :
  i < n -> j < n -> swap_rows i j (repeat a n) = repeat a n.
Proof.
  intros Hi Hj.
  apply nth_ext with (d := []) (d' := []); rewrite ?length_swap_rows; auto.
  rewrite repeat_length. intros k Hk.
  rewrite nth_swap_rows by (rewrite repeat_length; exact Hk).
  rewrite (nth_repeat_lt a [] n k Hk).
  destruct (Nat.eqb k i), (Nat.eqb k j); apply nth_repeat_lt; lia.
Qed.

Lemma scale_row_repeat i c n : scale_row i c (repeat [0%Qc] n) = repeat [0%Qc] n.
Proof.
  apply nth_ext with (d := []) (d' := []); rewrite ?length_scale_row; auto.
  rewrite repeat_length. intros k Hk.
  rewrite nth_scale_row by (rewrite repeat_length; exact Hk).
  rewrite !nth_repeat_lt by exact Hk.
  destruct (Nat.eqb k i); [|reflexivity].
  unfold vscale. simpl. f_equal. ring_simplify. reflexivity.
Qed.

Lemma add_row_repeat i j c n :
  j < n -> add_row i j c (repeat [0%Qc] n) = repeat [0%Qc] n.
Proof.
  intro Hj. apply nth_ext with (d := []) (d' := []); rewrite ?length_add_row; auto.
  rewrite repeat_length. intros k Hk.
  rewrite nth_add_row by (rewrite repeat_length; exact Hk).
  rewrite !nth_repeat_lt by assumption.
  destruct (Nat.eqb k i); [|reflexivity].
  unfold vadd, vscale. simpl. f_equal. ring_simplify. reflexivity.
Qed.

(** A matrix whose only null vector is zero. *)
Lemma colv_mat_vec E v :
  map (fun a => [a]) (mat_vec E v) = map (fun r => [dot r v]) E.
Proof. unfold mat_vec. rewrite map_map. reflexivity. Qed.

Lemma map_singleton_inj (u w : vec) :
  map (fun a => [a]) u = map (fun a => [a]) w -> u = w.
Proof.
  revert w; induction u as [|a u IH]; intros [|b w] H; simpl in *; try discriminate; auto.
  injection H as -> H. f_equal. auto.
Qed.

Lemma map_singleton_zeros n : map (fun a => [a]) (zeros n) = repeat [0%Qc] n.
Proof. unfold zeros. induction n as [|n IH]; simpl; [reflexivity|]. rewrite IH. reflexivity. Qed.

Lemma inj_preserved n (E E' : mat) (R R' : mat -> mat) :
  (forall v, length v = n -> map (fun r => [dot r v]) E' = R (map (fun r => [dot r v]) E)) ->
  (forall v, length v = n -> R' (R (map (fun r => [dot r v]) E)) = map (fun r => [dot r v]) E) ->
  R' (repeat [0%Qc] n) = repeat [0%Qc] n ->
  (forall v, length v = n -> mat_vec E v = zeros n -> v = zeros n) ->
  (forall v, length v = n -> mat_vec E' v = zeros n -> v = zeros n).
Proof.
  intros HR HR' H0 Hinj v Hv Hz. apply Hinj; [exact Hv|].
  apply map_singleton_inj. rewrite colv_mat_vec, map_singleton_zeros.
  rewrite <- (HR' v Hv), <- (HR v Hv), <- colv_mat_vec, Hz, map_singleton_zeros.
  exact H0.
Qed.

Lemma length_column M j : length (column M j) = length M.
Proof. apply length_map. Qed.

Lemma map_lin {A : Type} (g h : A -> Qc) l c :
  vadd (map g l) (vscale c (map h l)) = map (fun k => g k + c * h k)%Qc l.
Proof. unfold vadd, vscale. rewrite map_map, zipWith_map_map. reflexivity. Qed.

Lemma swap_rows_mat_mul i j E M :
  i < length E -> j < length E -> swap_rows i j (mat_mul E M) = mat_mul (swap_rows i j E) M.
Proof. intros Hi Hj. unfold mat_mul. apply swap_rows_map; assumption. Qed.

Lemma scale_row_mat_mul i c E M :
  scale_row i c (mat_mul E M) = mat_mul (scale_row i c E) M.
Proof.
  unfold mat_mul. apply scale_row_map. intros r _.
  unfold vscale. rewrite map_map. apply map_ext. intro j. apply dot_vscale_l.
Qed.

Lemma add_row_mat_mul n i j c E M :
  j < length E -> rows_have n E = true -> length M = n ->
  add_row i j c (mat_mul E M) = mat_mul (add_row i j c E) M.
Proof.
  intros Hj HE HM. unfold mat_mul. apply add_row_map; [exact Hj|].
  intros r s Hr Hs. apply rows_have_spec with (r := r) in HE as Hr'; [|exact Hr].
  apply rows_have_spec with (r := s) in HE as Hs'; [|exact Hs].
  rewrite map_lin. apply map_ext. intro k.
  rewrite dot_vadd_l; rewrite ?length_vscale, ?length_column; try lia.
  rewrite dot_vscale_l. reflexivity.
Qed.

Lemma inj_swap_rows n i j E :
  length E = n -> i < n -> j < n ->
  (forall v, length v = n -> mat_vec E v = zeros n -> v = zeros n) ->
  (forall v, length v = n -> mat_vec (swap_rows i j E) v = zeros n -> v = zeros n).
Proof.
  intros HE Hi Hj. apply inj_preserved with (R := swap_rows i j) (R' := swap_rows i j).
  - intros v _. symmetry. apply swap_rows_map; lia.
  - intros v _. apply swap_rows_involutive; rewrite length_map; lia.
  - apply swap_rows_repeat; assumption.
Qed.

Lemma inj_scale_row n i c E :
  c <> 0%Qc ->
  (forall v, length v = n -> mat_vec E v = zeros n -> v = zeros n) ->
  (forall v, length v = n -> mat_vec (scale_row i c E) v = zeros n -> v = zeros n).
Proof.
  intros Hc. apply inj_preserved with (R := scale_row i c) (R' := scale_row i (/ c)%Qc).
  - intros v _. symmetry. apply scale_row_map. intros r _.
    unfold vscale at 2. simpl. rewrite dot_vscale_l. reflexivity.
  - intros v _. apply scale_row_involutive. exact Hc.
  - apply scale_row_repeat.
Qed.

Lemma inj_add_row n i j c E :
  i <> j -> length E = n -> j < n -> rows_have n E = true ->
  (forall v, length v = n -> mat_vec E v = zeros n -> v = zeros n) ->
  (forall v, length v = n -> mat_vec (add_row i j c E) v = zeros n -> v = zeros n).
Proof.
  intros Hij HE Hj HR.
  apply inj_preserved with (R := add_row i j c) (R' := add_row i j (- c)%Qc).
  - intros v Hv. symmetry. apply add_row_map; [lia|].
    intros r s Hr Hs. apply rows_have_spec with (r := r) in HR as Hr'; [|exact Hr].
    apply rows_have_spec with (r := s) in HR as Hs'; [|exact Hs].
    rewrite dot_vadd_l; rewrite ?length_vscale; try lia.
    rewrite dot_vscale_l. reflexivity.
  - intros v Hv. apply add_row_involutive with (n := 1); [exact Hij| rewrite length_map; lia|].
    apply rows_have_spec. intros r Hr. apply in_map_iff in Hr. destruct Hr as (? & <- & _).
    reflexivity.
  - apply add_row_repeat. exact Hj.
Qed.

Lemma elim_rows_inv n M k rows C E :
  k < n -> length E = n -> rows_have n E = true -> length M = n -> C = mat_mul E M ->
  (forall v, length v = n -> mat_vec E v = zeros n -> v = zeros n) ->
  fst (elim_rows k rows C E) = mat_mul (snd (elim_rows k rows C E)) M
  /\ length (snd (elim_rows k rows C E)) = n
  /\ rows_have n (snd (elim_rows k rows C E)) = true
  /\ (forall v, length v = n -> mat_vec (snd (elim_rows k rows C E)) v = zeros n -> v = zeros n).
Proof.
  revert C E; induction rows as [|i rs IH]; intros C E Hk HE HR HM HC Hinj; simpl.
  - auto.
  - destruct (Nat.eqb i k) eqn:Eik; [apply IH; auto|].
    apply Nat.eqb_neq in Eik. apply IH; auto.
    + rewrite length_add_row. exact HE.
    + apply rows_have_add_row; [lia|exact HR].
    + subst C. apply add_row_mat_mul with (n := n); auto; lia.
    + apply inj_add_row; auto.
Qed.

Lemma elim_rows_fst k rows C E :
  NoDup rows -> k < length C ->
  length (fst (elim_rows k rows C E)) = length C
  /\ forall i, i < length C ->
     nth i (fst (elim_rows k rows C E)) []
     = if existsb (Nat.eqb i) rows && negb (Nat.eqb i k)
       then vadd (nth i C []) (vscale (- get C i k)%Qc (nth k C []))
       else nth i C [].
Proof.
  revert C E; induction rows as [|i rs IH]; intros C E Hnd Hk; simpl.
  - auto.
  - inversion Hnd as [|? ? Hni Hnd']; subst.
    destruct (Nat.eqb i k) eqn:Eik.
    + apply Nat.eqb_eq in Eik. subst i.
      destruct (IH C E Hnd' Hk) as [Hl Hn]. split; [exact Hl|].
      intros i' Hi'. rewrite Hn by exact Hi'.
      destruct (Nat.eqb i' k) eqn:E'; simpl; rewrite ?andb_false_r, ?andb_true_r; reflexivity.
    + apply Nat.eqb_neq in Eik.
      destruct (IH (add_row i k (- get C i k)%Qc C) (add_row i k (- get C i k)%Qc E) Hnd')
        as [Hl Hn]; [rewrite length_add_row; exact Hk|].
      rewrite length_add_row in Hl. split; [exact Hl|].
      intros i' Hi'. rewrite Hn by (rewrite length_add_row; exact Hi').
      assert (Hrowk : nth k (add_row i k (- get C i k)%Qc C) [] = nth k C []).
      { rewrite nth_add_row by exact Hk. destruct (Nat.eqb k i) eqn:E1; [apply Nat.eqb_eq in E1; lia|].
        reflexivity. }
      destruct (Nat.eqb i' i) eqn:Ei'.
      * apply Nat.eqb_eq in Ei'. subst i'.
        assert (Hex : existsb (Nat.eqb i) rs = false).
        { apply Bool.not_true_iff_false. intro H. apply existsb_exists in H.
          destruct H as (x & Hx & Hx'). apply Nat.eqb_eq in Hx'. subst. contradiction. }
        rewrite Hex. simpl.
        destruct (Nat.eqb i k) eqn:E2; [apply Nat.eqb_eq in E2; lia|]. simpl.
        rewrite nth_add_row by exact Hi'. rewrite ?Nat.eqb_refl. reflexivity.
      * simpl. rewrite Hrowk.
        assert (Hrowi : nth i' (add_row i k (- get C i k)%Qc C) [] = nth i' C []).
        { rewrite nth_add_row by exact Hi'. rewrite Ei'. reflexivity. }
        assert (Hg : get (add_row i k (- get C i k)%Qc C) i' k = get C i' k)
          by (unfold get at 1; rewrite Hrowi; reflexivity).
        rewrite Hrowi, Hg. reflexivity.
Qed.

(** ** Sums *)

Lemma dot_map_seq (f g : nat -> Qc) s n :
  dot (map f (seq s n)) (map g (seq s n))
  = fold_right Qcplus 0%Qc (map (fun j => f j * g j)%Qc (seq s n)).
Proof.
  revert s; induction n as [|n IH]; intro s; simpl; [reflexivity|].
  rewrite dot_cons, IH. reflexivity.
Qed.

Lemma sum_app (l1 l2 : list Qc) :
  fold_right Qcplus 0%Qc (l1 ++ l2) = (fold_right Qcplus 0%Qc l1 + fold_right Qcplus 0%Qc l2)%Qc.
Proof. induction l1 as [|a l1 IH]; simpl; [ring|]. rewrite IH. ring. Qed.

Lemma sum_map_zero {A : Type} (f : A -> Qc) l :
  (forall j, In j l -> f j = 0%Qc) -> fold_right Qcplus 0%Qc (map f l) = 0%Qc.
Proof.
  induction l as [|a l IH]; intro H; simpl; [reflexivity|].
  rewrite H by (left; reflexivity). rewrite IH by (intros; apply H; right; assumption). ring.
Qed.

Lemma sum_map_single {A : Type} (f : A -> Qc) l a :
  NoDup l -> In a l -> (forall j, In j l -> j <> a -> f j = 0%Qc) ->
  fold_right Qcplus 0%Qc (map f l) = f a.
Proof.
  induction l as [|x l IH]; intros Hnd Ha H; simpl; [destruct Ha|].
  inversion Hnd as [|? ? Hx Hnd']; subst.
  destruct Ha as [<-|Ha].
  - rewrite sum_map_zero; [ring|]. intros j Hj. apply H; [right; exact Hj|].
    intros ->. contradiction.
  - rewrite H by (try (left; reflexivity); intros ->; contradiction).
    rewrite IH; auto. ring. intros j Hj Hne. apply H; auto. right; exact Hj.
Qed.

Lemma map_lin2 {A : Type} (g h : A -> Qc) l c :
  vadd (vscale c (map g l)) (map h l) = map (fun k => c * g k + h k)%Qc l.
Proof. unfold vadd, vscale. rewrite map_map, zipWith_map_map. reflexivity. Qed.

Lemma dot_exchange p r M v :
  length r = length M -> rows_have p M = true -> length v = p ->
  dot (map (fun j => dot r (column M j)) (seq 0 p)) v = dot r (mat_vec M v).
Proof.
  revert M; induction r as [|a r IH]; intros [|row M] Hl HM Hv; simpl in Hl; try discriminate.
  - unfold mat_vec. cbn [map]. rewrite dot_nil_r.
    rewrite (map_ext _ (fun _ => 0%Qc)) by (intro; apply dot_nil_l).
    rewrite <- (repeat_as_map (A:=Qc)). apply (dot_zeros_l p v).
  - simpl in HM. apply andb_prop in HM. destruct HM as [Hrow HM]. apply Nat.eqb_eq in Hrow.
    unfold mat_vec. simpl map. rewrite dot_cons.
    replace (map (fun j => dot (a :: r) (nth j row 0%Qc :: column M j)) (seq 0 p))
      with (vadd (vscale a row) (map (fun j => dot r (column M j)) (seq 0 p))).
    + rewrite dot_vadd_l; rewrite ?length_vscale, ?length_map, ?length_seq; try lia.
      rewrite dot_vscale_l. f_equal. apply IH; auto.
    + rewrite <- (map_nth_seq row 0%Qc) at 1. rewrite Hrow, map_lin2.
      apply map_ext. intro j. rewrite dot_cons. reflexivity.
Qed.

Lemma ncols_rows_have p M : M <> [] -> rows_have p M = true -> ncols M = p.
Proof.
  destruct M as [|r M]; intros H HM; [congruence|]. simpl in HM.
  apply andb_prop in HM. destruct HM as [Hr _]. apply Nat.eqb_eq in Hr. exact Hr.
Qed.

Lemma length_mat_mul E M : length (mat_mul E M) = length E.
Proof. apply length_map. Qed.

Lemma rows_have_mat_mul E M : rows_have (ncols M) (mat_mul E M) = true.
Proof.
  apply rows_have_spec. intros r Hr. apply in_map_iff in Hr.
  destruct Hr as (x & <- & _). rewrite length_map, length_seq. reflexivity.
Qed.

Lemma mat_vec_mat_mul p E M v :
  rows_have (length M) E = true -> rows_have p M = true -> ncols M = p -> length v = p ->
  mat_vec (mat_mul E M) v = mat_vec E (mat_vec M v).
Proof.
  intros HE HM Hc Hv. unfold mat_mul. unfold mat_vec at 1 2. rewrite map_map.
  apply map_ext_in. intros r Hr. rewrite Hc. apply dot_exchange; auto.
  apply (proj1 (rows_have_spec _ _) HE r Hr).
Qed.

Lemma mat_vec_identity n v : length v = n -> mat_vec (identity n) v = v.
Proof.
  intro Hv. unfold mat_vec, identity. rewrite map_map.
  transitivity (map (fun i => nth i v 0%Qc) (seq 0 n));
    [| rewrite <- Hv; apply map_nth_seq].
  apply map_ext_in. intros i Hi. apply in_seq in Hi.
  rewrite dot_comm. apply dot_unit_vec; lia.
Qed.

Lemma mat_vec_zeros B n : mat_vec B (zeros n) = zeros (length B).
Proof.
  unfold mat_vec, zeros. induction B as [|r B IH]; simpl; [reflexivity|].
  rewrite IH. f_equal. apply (dot_zeros_r n r).
Qed.

Lemma existsb_seq i n : i < n -> existsb (Nat.eqb i) (seq 0 n) = true.
Proof.
  intro H. apply existsb_exists. exists i. split; [apply in_seq; lia | apply Nat.eqb_refl].
Qed.

Lemma get_swap_rows k p C i j :
  i < length C ->
  get (swap_rows k p C) i j = get C (if Nat.eqb i k then p else if Nat.eqb i p then k else i) j.
Proof. intro H. unfold get. rewrite nth_swap_rows by exact H. reflexivity. Qed.

Lemma get_scale_row k c C i j :
  i < length C -> j < length (nth i C []) ->
  get (scale_row k c C) i j = if Nat.eqb i k then (c * get C i j)%Qc else get C i j.
Proof.
  intros Hi Hj. unfold get. rewrite nth_scale_row by exact Hi.
  destruct (Nat.eqb i k); [apply nth_vscale; exact Hj | reflexivity].
Qed.

Lemma nth_vadd_vscale r s c j :
  length r = length s -> j < length r ->
  nth j (vadd r (vscale c s)) 0%Qc = (nth j r 0 + c * nth j s 0)%Qc.
Proof.
  intros Hl Hj. rewrite nth_vadd; rewrite ?length_vscale; try lia.
  rewrite nth_vscale by lia. reflexivity.
Qed.

Lemma get_elim_rows n k C E i j :
  length C = n -> rows_have n C = true -> k < n -> i < n -> j < n ->
  get (fst (elim_rows k (seq 0 n) C E)) i j
  = if Nat.eqb i k then get C i j else (get C i j + - get C i k * get C k j)%Qc.
Proof.
  intros HC HR Hk Hi Hj. unfold get at 1.
  destruct (elim_rows_fst k (seq 0 n) C E (seq_NoDup n 0)) as [_ Hn]; [lia|].
  rewrite Hn by lia. rewrite existsb_seq by exact Hi. simpl.
  destruct (Nat.eqb i k); simpl; [reflexivity|].
  apply nth_vadd_vscale; rewrite !(rows_have_nth n C) by (try exact HR; lia); lia.
Qed.

Ltac eqb_simpl :=
  repeat match goal with
  | H : ?a <> ?b |- context [Nat.eqb ?a ?b] => rewrite (proj2 (Nat.eqb_neq a b) H)
  | H : ?b <> ?a |- context [Nat.eqb ?a ?b] => rewrite (proj2 (Nat.eqb_neq a b) (not_eq_sym H))
  | |- context [Nat.eqb ?a ?a] => rewrite Nat.eqb_refl
  end.

Lemma Qc_zero_neq_one : 0%Qc <> 1%Qc.
Proof. intro H. apply (f_equal this) in H. vm_compute in H. discriminate. Qed.

Lemma Qcinv_neq0 x : x <> 0%Qc -> (/ x)%Qc <> 0%Qc.
Proof.
  intros Hx H. assert (Hm : (x * / x = 1)%Qc) by (field; exact Hx).
  rewrite H in Hm. ring_simplify in Hm. exact (Qc_zero_neq_one Hm).
Qed.

Lemma gj_column_step n M C E k p C3 E3 :
  length M = n -> rows_have n M = true -> k < n -> k <= p -> p < n -> get C p k <> 0%Qc ->
  length E = n -> rows_have n E = true -> C = mat_mul E M ->
  (forall v, length v = n -> mat_vec E v = zeros n -> v = zeros n) ->
  (forall i j, i < n -> j < k -> get C i j = if Nat.eqb i j then 1%Qc else 0%Qc) ->
  elim_rows k (seq 0 n)
    (scale_row k (/ get (swap_rows k p C) k k)%Qc (swap_rows k p C))
    (scale_row k (/ get (swap_rows k p C) k k)%Qc (swap_rows k p E)) = (C3, E3) ->
  C3 = mat_mul E3 M /\ length E3 = n /\ rows_have n E3 = true
  /\ (forall v, length v = n -> mat_vec E3 v = zeros n -> v = zeros n)
  /\ (forall i j, i < n -> j < S k -> get C3 i j = if Nat.eqb i j then 1%Qc else 0%Qc).
Proof.
  intros HM HMr Hk Hkp Hp Hpiv HE HEr HC Hinj Hcols Hel.
  assert (HnC : ncols M = n) by (apply ncols_rows_have; [destruct M; simpl in *; [lia|discriminate] | exact HMr]).
  assert (HCl : length C = n) by (rewrite HC, length_mat_mul; exact HE).
  assert (HCr : rows_have n C = true) by (rewrite HC, <- HnC; apply rows_have_mat_mul).
  set (C1 := swap_rows k p C) in *. set (E1 := swap_rows k p E) in *.
  set (piv := (/ get C1 k k)%Qc) in *.
  set (C2 := scale_row k piv C1) in *. set (E2 := scale_row k piv E1) in *.
  assert (Hg1 : forall i j, i < n -> get C1 i j
            = get C (if Nat.eqb i k then p else if Nat.eqb i p then k else i) j)
    by (intros; apply get_swap_rows; lia).
  assert (Hck : get C1 k k = get C p k) by (rewrite Hg1 by lia; eqb_simpl; reflexivity).
  assert (Hpiv' : piv <> 0%Qc) by (apply Qcinv_neq0; rewrite Hck; exact Hpiv).
  assert (HC1l : length C1 = n) by (unfold C1; rewrite length_swap_rows; exact HCl).
  assert (HC1r : rows_have n C1 = true) by (apply rows_have_swap_rows; auto; lia).
  assert (HC2l : length C2 = n) by (unfold C2; rewrite length_scale_row; exact HC1l).
  assert (HC2r : rows_have n C2 = true) by (apply rows_have_scale_row; exact HC1r).
  assert (HC2 : C2 = mat_mul E2 M).
  { unfold C2, E2, C1, E1. rewrite HC, swap_rows_mat_mul by lia.
    apply scale_row_mat_mul. }
  assert (HE2l : length E2 = n) by (unfold E2, E1; rewrite length_scale_row, length_swap_rows; exact HE).
  assert (HE2r : rows_have n E2 = true)
    by (apply rows_have_scale_row, rows_have_swap_rows; auto; lia).
  assert (Hinj2 : forall v, length v = n -> mat_vec E2 v = zeros n -> v = zeros n)
    by (apply inj_scale_row; [exact Hpiv'|]; apply inj_swap_rows; auto).
  destruct (elim_rows_inv n M k (seq 0 n) C2 E2 Hk HE2l HE2r HM HC2 Hinj2) as (H1 & H2 & H3 & H4).
  rewrite Hel in H1, H2, H3, H4. simpl in H1, H2, H3, H4.
  split; [exact H1|]. split; [exact H2|]. split; [exact H3|]. split; [exact H4|].
  assert (Hg2 : forall i j, i < n -> j < n ->
            get C2 i j = if Nat.eqb i k then (piv * get C1 i j)%Qc else get C1 i j).
  { intros i j Hi Hj. apply get_scale_row; [unfold C1; rewrite length_swap_rows; lia|]. rewrite (rows_have_nth n C1); [exact Hj|exact HC1r|lia]. }
  intros i j Hi Hj.
  assert (Hg3 := get_elim_rows n k C2 E2 i j HC2l HC2r Hk Hi ltac:(lia)).
  rewrite Hel in Hg3. simpl in Hg3. rewrite Hg3. clear Hg3.
  destruct (Nat.eq_dec j k) as [->|Hjk].
  - (* the pivot column *)
    destruct (Nat.eq_dec i k) as [->|Hik]; eqb_simpl.
    + rewrite Hg2 by lia. eqb_simpl. unfold piv. rewrite Hck. field. exact Hpiv.
    + rewrite !Hg2 by lia. eqb_simpl. rewrite Hck. unfold piv. rewrite Hck. field. exact Hpiv.
  - (* an earlier column *)
    assert (Hj' : j < k) by lia.
    assert (Hkj : get C2 k j = 0%Qc).
    { rewrite Hg2, Hg1 by lia. eqb_simpl. rewrite Hcols by lia.
      destruct (Nat.eq_dec p j) as [->|Hpj]; [lia|]. eqb_simpl. ring. }
    destruct (Nat.eq_dec i k) as [->|Hik]; eqb_simpl.
    + rewrite Hkj. reflexivity.
    + rewrite Hkj. rewrite Hg2 by lia. eqb_simpl. rewrite Hg1 by lia. eqb_simpl.
      destruct (Nat.eq_dec i p) as [->|Hip]; eqb_simpl.
      * rewrite Hcols by lia. destruct (Nat.eq_dec p j) as [->|Hpj]; [lia|]. eqb_simpl. ring.
      * rewrite Hcols by lia. ring.
Qed.

Lemma Qc_m1_neq0 : (Qcopp 1%Qc) <> 0%Qc.
Proof. intro H. apply (f_equal this) in H. vm_compute in H. discriminate. Qed.

Lemma find_pivot_none C k n :
  find_pivot C k n = None -> forall p, k <= p -> p < n -> get C p k = 0%Qc.
Proof.
  unfold find_pivot. intros H p Hkp Hpn.
  assert (Hf := find_none _ _ H p ltac:(apply in_seq; lia)). simpl in Hf.
  apply Qc_eq_bool_correct. destruct (Qc_eq_bool (get C p k) 0%Qc); [reflexivity|discriminate].
Qed.

Lemma find_pivot_some C k n p :
  find_pivot C k n = Some p -> k <= p /\ p < n /\ get C p k <> 0%Qc.
Proof.
  unfold find_pivot. intro H. apply find_some in H. destruct H as [Hin Hf].
  apply in_seq in Hin. split; [lia|]. split; [lia|].
  intro Hz. rewrite Hz in Hf. simpl in Hf. discriminate.
Qed.

Lemma gj_no_pivot n M C E k :
  length M = n -> rows_have n M = true -> k < n ->
  length E = n -> rows_have n E = true -> C = mat_mul E M ->
  (forall v, length v = n -> mat_vec E v = zeros n -> v = zeros n) ->
  (forall i j, i < n -> j < k -> get C i j = if Nat.eqb i j then 1%Qc else 0%Qc) ->
  find_pivot C k n = None ->
  exists v, length v = n /\ v <> zeros n /\ mat_vec M v = zeros n.
Proof.
  intros HM HMr Hk HE HEr HC Hinj Hcols Hnp.
  assert (HnC : ncols M = n) by (apply ncols_rows_have; [destruct M; simpl in *; [lia|discriminate] | exact HMr]).
  assert (HCl : length C = n) by (rewrite HC, length_mat_mul; exact HE).
  assert (HCr : rows_have n C = true) by (rewrite HC, <- HnC; apply rows_have_mat_mul).
  pose proof (find_pivot_none C k n Hnp) as Hz.
  set (g := fun j => if Nat.ltb j k then get C j k else if Nat.eqb j k then (Qcopp 1%Qc) else 0%Qc).
  set (v := map g (seq 0 n)).
  assert (Hv : length v = n) by (unfold v; rewrite length_map, length_seq; reflexivity).
  assert (Hvk : nth k v 0%Qc = (Qcopp 1%Qc)).
  { unfold v. rewrite nth_map_in with (d := 0) by (rewrite length_seq; exact Hk).
    rewrite seq_nth by exact Hk. unfold g. rewrite Nat.ltb_irrefl, Nat.eqb_refl. reflexivity. }
  assert (HCv : mat_vec C v = zeros n).
  { apply nth_ext with (d := 0%Qc) (d' := 0%Qc);
      [rewrite length_mat_vec, length_zeros; exact HCl|].
    intros i Hi. rewrite length_mat_vec in Hi.
    unfold zeros. rewrite nth_repeat_lt by lia. rewrite nth_mat_vec by exact Hi.
    rewrite <- (map_nth_seq (nth i C []) 0%Qc). rewrite (rows_have_nth n C) by (auto; lia).
    unfold v. rewrite dot_map_seq.
    replace n with (k + (1 + (n - S k))) at 1 by lia.
    rewrite seq_app, seq_app, map_app, map_app, !sum_app. simpl seq at 2. cbn [map fold_right].
    rewrite (sum_map_zero _ (seq (0 + k + 1) (n - S k))).
    2: { intros j Hj. apply in_seq in Hj. unfold g.
         replace (Nat.ltb j k) with false by (symmetry; apply Nat.ltb_ge; lia).
         replace (Nat.eqb j k) with false by (symmetry; apply Nat.eqb_neq; lia). ring. }
    unfold g at 2. rewrite Nat.ltb_irrefl, Nat.eqb_refl.
    destruct (Nat.lt_ge_cases i k) as [Hik|Hik].
    - rewrite (sum_map_single _ (seq 0 k) i (seq_NoDup k 0) ltac:(apply in_seq; lia)).
      + unfold g. replace (Nat.ltb i k) with true by (symmetry; apply Nat.ltb_lt; lia).
        change (nth i (nth i C []) 0%Qc) with (get C i i). rewrite Hcols by lia.
        rewrite Nat.eqb_refl. change (nth k (nth i C []) 0%Qc) with (get C i k). ring.
      + intros j Hj Hji. apply in_seq in Hj. change (nth j (nth i C []) 0%Qc) with (get C i j).
        rewrite Hcols by lia. replace (Nat.eqb i j) with false by (symmetry; apply Nat.eqb_neq; lia).
        ring.
    - rewrite (sum_map_zero _ (seq 0 k)).
      + change (nth k (nth i C []) 0%Qc) with (get C i k). rewrite Hz by lia. ring.
      + intros j Hj. apply in_seq in Hj. change (nth j (nth i C []) 0%Qc) with (get C i j).
        rewrite Hcols by lia. replace (Nat.eqb i j) with false by (symmetry; apply Nat.eqb_neq; lia).
        ring. }
  exists v. split; [exact Hv|]. split.
  - intro H. rewrite H in Hvk. unfold zeros in Hvk. rewrite nth_repeat_lt in Hvk by exact Hk.
    apply Qc_m1_neq0. symmetry. exact Hvk.
  - apply Hinj; [rewrite length_mat_vec; exact HM|].
    rewrite <- (mat_vec_mat_mul n E M v); auto; [rewrite <- HC; exact HCv | rewrite HM; exact HEr].
Qed.

Lemma nth_identity n i : i < n -> nth i (identity n) [] = unit_vec n i.
Proof.
  intro H. unfold identity. rewrite nth_map_in with (d := 0) by (rewrite length_seq; exact H).
  rewrite seq_nth by exact H. reflexivity.
Qed.

Lemma length_identity n : length (identity n) = n.
Proof. unfold identity. rewrite length_map, length_seq. reflexivity. Qed.

Lemma rows_have_identity n : rows_have n (identity n) = true.
Proof.
  apply rows_have_spec. intros r Hr. unfold identity in Hr. apply in_map_iff in Hr.
  destruct Hr as (i & <- & _). apply length_unit_vec.
Qed.

Lemma nth_unit_vec n i j : j < n -> nth j (unit_vec n i) 0%Qc = if Nat.eqb j i then 1%Qc else 0%Qc.
Proof.
  intro H. unfold unit_vec. rewrite nth_map_in with (d := 0) by (rewrite length_seq; exact H).
  rewrite seq_nth by exact H. reflexivity.
Qed.

(** A square matrix is the identity when its entries are. *)
Lemma identity_of_entries n P :
  length P = n -> rows_have n P = true ->
  (forall i j, i < n -> j < n -> get P i j = if Nat.eqb i j then 1%Qc else 0%Qc) ->
  P = identity n.
Proof.
  intros Hl Hr He. apply nth_ext with (d := []) (d' := []); [rewrite length_identity; exact Hl|].
  intros i Hi. rewrite nth_identity by lia.
  apply nth_ext with (d := 0%Qc) (d' := 0%Qc);
    [rewrite length_unit_vec; apply rows_have_nth; auto|].
  intros j Hj. rewrite (rows_have_nth n P) in Hj by (auto; lia).
  rewrite nth_unit_vec by exact Hj. change (nth j (nth i P []) 0%Qc) with (get P i j).
  rewrite He by lia. rewrite Nat.eqb_sym. reflexivity.
Qed.

Lemma gj_cols_spec n M :
  length M = n -> rows_have n M = true ->
  forall m k C E, k + m = n -> length E = n -> rows_have n E = true -> C = mat_mul E M ->
  (forall v, length v = n -> mat_vec E v = zeros n -> v = zeros n) ->
  (forall i j, i < n -> j < k -> get C i j = if Nat.eqb i j then 1%Qc else 0%Qc) ->
  match gj_cols (seq k m) n C E with
  | Some B => mat_mul B M = identity n /\ length B = n /\ rows_have n B = true
              /\ (forall v, length v = n -> mat_vec B v = zeros n -> v = zeros n)
  | None => exists v, length v = n /\ v <> zeros n /\ mat_vec M v = zeros n
  end.
Proof.
  intros HM HMr m. induction m as [|m IH]; intros k C E Hkm HE HEr HC Hinj Hcols.
  - simpl. split; [|auto]. rewrite <- HC. apply identity_of_entries.
    + rewrite HC, length_mat_mul. exact HE.
    + destruct n as [|n'].
      * rewrite HC. destruct E; [reflexivity|simpl in HE; discriminate].
      * rewrite HC. rewrite <- (ncols_rows_have (S n') M); [apply rows_have_mat_mul| |exact HMr].
        destruct M; simpl in *; [discriminate|congruence].
    + intros i j Hi Hj. apply Hcols; lia.
  - cbn [seq gj_cols].
    destruct (find_pivot C k n) as [p|] eqn:Hfp.
    + destruct (find_pivot_some C k n p Hfp) as (Hkp & Hpn & Hpiv).
      destruct (elim_rows k (seq 0 n)
                  (scale_row k (/ get (swap_rows k p C) k k)%Qc (swap_rows k p C))
                  (scale_row k (/ get (swap_rows k p C) k k)%Qc (swap_rows k p E)))
        as [C3 E3] eqn:Hel.
      destruct (gj_column_step n M C E k p C3 E3 HM HMr ltac:(lia) Hkp Hpn Hpiv HE HEr HC
                  Hinj Hcols Hel) as (H1 & H2 & H3 & H4 & H5).
      apply IH; auto; lia.
    + apply (gj_no_pivot n M C E k); auto; lia.
Qed.

Lemma mat_mul_identity_l n M :
  length M = n -> rows_have n M = true -> mat_mul (identity n) M = M.
Proof.
  intros Hl Hr. destruct n as [|n'].
  - destruct M; [reflexivity|discriminate].
  - assert (Hc : ncols M = S n') by (apply ncols_rows_have; [destruct M; simpl in *; [discriminate|congruence]|exact Hr]).
    apply nth_ext with (d := []) (d' := []);
      [rewrite length_mat_mul, length_identity; auto|].
    intros i Hi. rewrite length_mat_mul, length_identity in Hi.
    unfold mat_mul. rewrite (nth_map_in _ (identity (S n')) i []) by (rewrite length_identity; exact Hi).
    rewrite nth_identity by exact Hi. rewrite Hc.
    rewrite <- (map_nth_seq (nth i M []) 0%Qc). rewrite (rows_have_nth (S n') M) by (auto; lia).
    apply map_ext_in. intros j Hj. apply in_seq in Hj.
    rewrite dot_comm, dot_unit_vec by (rewrite ?length_column; lia).
    unfold column. rewrite (nth_map_in _ M i []) by lia. reflexivity.
Qed.

Lemma inj_identity n : forall v, length v = n -> mat_vec (identity n) v = zeros n -> v = zeros n.
Proof. intros v Hv H. rewrite mat_vec_identity in H by exact Hv. exact H. Qed.

Lemma mat_vec_vsub B x y n :
  rows_have n B = true -> length x = n -> length y = n ->
  mat_vec B (vsub x y) = vsub (mat_vec B x) (mat_vec B y).
Proof.
  intros HB Hx Hy. unfold mat_vec, vsub at 2. rewrite zipWith_map_map.
  apply map_ext_in. intros r Hr. apply dot_vsub_r; [lia|].
  rewrite (proj1 (rows_have_spec _ _) HB r Hr). lia.
Qed.

Lemma vsub_zeros_eq x y n : length x = n -> length y = n -> vsub x y = zeros n -> x = y.
Proof.
  revert x y; induction n as [|n IH]; intros [|a x] [|b y] Hx Hy H; try discriminate; auto.
  unfold vsub, zeros in H. cbn [zipWith repeat] in H.
  pose proof (f_equal (hd 0%Qc) H) as Hab. pose proof (f_equal (@tl Qc) H) as Ht.
  cbn [hd tl] in Hab, Ht. clear H. cbn [length] in Hx, Hy. f_equal.
  - transitivity ((a - b) + b)%Qc; [ring|]. rewrite Hab. ring.
  - apply IH; auto; lia.
Qed.

(** Right inverse from left inverse, for a matrix with no null vector. *)
Lemma right_inverse n M B :
  length M = n -> rows_have n M = true -> length B = n -> rows_have n B = true ->
  mat_mul B M = identity n ->
  (forall v, length v = n -> mat_vec B v = zeros n -> v = zeros n) ->
  mat_mul M B = identity n.
Proof.
  intros HM HMr HB HBr HBM Hinj.
  destruct n as [|n'].
  { destruct M; [reflexivity|discriminate]. }
  assert (HcM : ncols M = S n') by (apply ncols_rows_have; [destruct M; simpl in *; [discriminate|congruence]|exact HMr]).
  assert (HcB : ncols B = S n') by (apply ncols_rows_have; [destruct B; simpl in *; [discriminate|congruence]|exact HBr]).
  assert (Hact : forall x, length x = S n' -> mat_vec M (mat_vec B x) = x).
  { intros x Hx.
    assert (HBx : length (mat_vec B x) = S n') by (rewrite length_mat_vec; exact HB).
    assert (HMBx : length (mat_vec M (mat_vec B x)) = S n') by (rewrite length_mat_vec; exact HM).
    apply (vsub_zeros_eq _ _ (S n')); auto.
    apply Hinj; [rewrite length_vsub; lia|].
    rewrite (mat_vec_vsub B _ _ (S n')) by auto.
    rewrite <- (mat_vec_mat_mul (S n') B M) by (rewrite ?HM; auto).
    rewrite HBM, mat_vec_identity by exact HBx.
    apply nth_ext with (d := 0%Qc) (d' := 0%Qc).
    - rewrite length_vsub, length_zeros; lia.
    - intros i Hi. rewrite length_vsub in Hi by lia. rewrite nth_vsub by lia.
      unfold zeros. rewrite nth_repeat_lt by lia. ring. }
  apply identity_of_entries.
  - rewrite length_mat_mul. exact HM.
  - rewrite <- HcB. apply rows_have_mat_mul.
  - intros i j Hi Hj.
    assert (Hu := Hact (unit_vec (S n') j) (length_unit_vec _ _)).
    rewrite <- (mat_vec_mat_mul (S n') M B) in Hu by (rewrite ?HB, ?length_unit_vec; auto).
    apply (f_equal (fun l => nth i l 0%Qc)) in Hu.
    rewrite nth_mat_vec in Hu by (rewrite length_mat_mul; lia).
    rewrite dot_unit_vec in Hu by (try (apply rows_have_nth; [rewrite <- HcB; apply rows_have_mat_mul|rewrite length_mat_mul; lia]); lia).
    rewrite nth_unit_vec in Hu by exact Hi. unfold get. rewrite Hu.
    destruct (Nat.eqb_spec i j), (Nat.eqb_spec j i); subst; reflexivity || lia.
Qed.

Lemma gj_from_start M :
  rows_have (length M) M = true ->
  match gj_cols (seq 0 (length M)) (length M) M (identity (length M)) with
  | Some B => mat_mul B M = identity (length M) /\ length B = length M
              /\ rows_have (length M) B = true
              /\ (forall v, length v = length M -> mat_vec B v = zeros (length M) -> v = zeros (length M))
  | None => exists v, length v = length M /\ v <> zeros (length M) /\ mat_vec M v = zeros (length M)
  end.
Proof.
  intro Hr. apply (gj_cols_spec (length M) M eq_refl Hr (length M) 0 M (identity (length M))).
  - reflexivity.
  - apply length_identity.
  - apply rows_have_identity.
  - symmetry. apply mat_mul_identity_l; auto.
  - apply inj_identity.
  - intros i j _ Hj. lia.
Qed.

(** [np.linalg.inv] returns a two-sided inverse when it returns. *)
Lemma linalg_inv_some M B :
  linalg_inv M = Some B ->
  rows_have (length M) M = true /\ length B = length M /\ rows_have (length M) B = true
  /\ mat_mul B M = identity (length M) /\ mat_mul M B = identity (length M).
Proof.
  unfold linalg_inv. destruct (rows_have (length M) M) eqn:Hr; [|discriminate]. intro H.
  pose proof (gj_from_start M Hr) as G. rewrite H in G. destruct G as (H1 & H2 & H3 & H4).
  repeat split; auto. apply right_inverse; auto.
Qed.

(** [np.linalg.inv] raises only on a matrix that has no inverse. *)
Lemma linalg_inv_none M : linalg_inv M = None -> ~ invertible M.
Proof.
  unfold linalg_inv, invertible. intros H [Hr (B & HBr & HBl & HMB & HBM)].
  rewrite Hr in H. pose proof (gj_from_start M Hr) as G. rewrite H in G.
  destruct G as (v & Hv & Hnz & HMv). apply Hnz.
  destruct (length M) as [|n] eqn:HM.
  { destruct v; [reflexivity|discriminate]. }
  assert (Hc : ncols M = S n) by (apply ncols_rows_have; [destruct M; simpl in *; [discriminate|congruence]|exact Hr]).
  rewrite <- (mat_vec_identity (S n) v Hv), <- HBM.
  rewrite (mat_vec_mat_mul (S n) B M v) by (rewrite ?HM; auto).
  rewrite HMv, mat_vec_zeros, HBl. reflexivity.
Qed.

Lemma linalg_inv_invertible M : invertible M -> exists B, linalg_inv M = Some B.
Proof.
  intro H. destruct (linalg_inv M) as [B|] eqn:E; [exists B; reflexivity|].
  exfalso. exact (linalg_inv_none M E H).
Qed.

Lemma dtype_lub_float_same d :
  dtype_lub (dtype_lub Float64 d) (dtype_lub d (dtype_lub d Int64)) = dtype_lub Float64 d.
Proof. destruct d; reflexivity. Qed.

Lemma rows_have_two_lengths p q M : M <> [] -> rows_have p M = true -> rows_have q M = true -> p = q.
Proof.
  intros HM Hp Hq. rewrite <- (ncols_rows_have p M HM Hp). apply ncols_rows_have; assumption.
Qed.

Lemma inverse_affine_shape a B :
  wf_affine a -> linalg_inv (affine a) = Some B ->
  inverse (Affine a)
  = Ok (Some (Affine (mkAffineTransform B
       (mkCS (coord_names (at_output_coords a)) (cs_name (at_output_coords a))
             (dtype_lub Float64 (coord_dtype (at_input_coords a))))
       (mkCS (coord_names (at_input_coords a)) (cs_name (at_input_coords a))
             (dtype_lub Float64 (coord_dtype (at_input_coords a))))))).
Proof.
  intros (Hl & Hr & Hdi & Hdo & Hdt & _) HB.
  destruct (linalg_inv_some _ _ HB) as (HMr & HBl & HBr & _ & _).
  assert (Hsq : ndim (at_input_coords a) = ndim (at_output_coords a)).
  { assert (HM : affine a <> []) by (intro H; rewrite H in Hl; simpl in Hl; lia).
    pose proof (rows_have_two_lengths _ _ _ HM Hr HMr). lia. }
  unfold inverse. rewrite HB. unfold AffineTransform_new. simpl.
  rewrite <- Hdt, dtype_lub_float_same.
  unfold CoordinateSystem_new. rewrite Hdo, Hdi. cbn [bind].
  unfold ndim in *. cbn [coord_names].
  replace (Nat.eqb (length B) (length (coord_names (at_input_coords a)) + 1)) with true
    by (symmetry; apply Nat.eqb_eq; lia).
  replace (length (coord_names (at_output_coords a)) + 1) with (length (affine a)) by lia.
  rewrite HBr. reflexivity.
Qed.

(** C6: [inverse] of a well-formed [AffineTransform] does not raise. On a
    singular matrix it is the sentinel [None]; on an invertible one it is an
    [AffineTransform] whose matrix is the two-sided inverse, whose input
    coordinate system has the names and label of the original output and
    whose output has those of the original input (the precision is the
    promoted floating one, equal to the original unless it was an integer
    one). *)
Theorem inverse_affine_spec (a : AffineTransform) :
  wf_affine a ->
  (~ invertible (affine a) -> inverse (Affine a) = Ok None)
  /\ (invertible (affine a) ->
      exists B, inverse (Affine a)
        = Ok (Some (Affine (mkAffineTransform B
            (mkCS (coord_names (at_output_coords a)) (cs_name (at_output_coords a))
                  (dtype_lub Float64 (coord_dtype (at_input_coords a))))
            (mkCS (coord_names (at_input_coords a)) (cs_name (at_input_coords a))
                  (dtype_lub Float64 (coord_dtype (at_input_coords a)))))))
        /\ mat_mul (affine a) B = identity (length (affine a))
        /\ mat_mul B (affine a) = identity (length (affine a))).
Proof.
  intros Hwf. split.
  - intros Hni. unfold inverse.
    destruct (linalg_inv (affine a)) as [B|] eqn:HB; [|reflexivity].
    exfalso. apply Hni. destruct (linalg_inv_some _ _ HB) as (Hr & Hl & HBr & HBM & HMB).
    split; [exact Hr|]. exists B. repeat split; assumption.
  - intros Hi. destruct (linalg_inv_invertible _ Hi) as [B HB].
    destruct (linalg_inv_some _ _ HB) as (_ & _ & _ & HBM & HMB).
    exists B. split; [apply inverse_affine_shape; assumption|]. split; assumption.
Qed.

(** C10: [inverse_function] of a well-formed [AffineTransform] raises
    [ValueError] on a singular matrix, where [inverse] gives [None]; on an
    invertible matrix it is the forward function of [inverse]. *)
Theorem inverse_function_affine_spec (a : AffineTransform) :
  wf_affine a ->
  (~ invertible (affine a) ->
     inverse_function (Affine a) = Err (ValueError NoInverseForThisAffine)
     /\ inverse (Affine a) = Ok None)
  /\ (invertible (affine a) ->
      exists i, inverse (Affine a) = Ok (Some i)
           /\ inverse_function (Affine a) = Ok (Some (function i))).
Proof.
  intros Hwf. split.
  - intros Hni.
    assert (Hn : inverse (Affine a) = Ok None).
    { unfold inverse. destruct (linalg_inv (affine a)) as [B|] eqn:HB; [|reflexivity].
      exfalso. apply Hni. destruct (linalg_inv_some _ _ HB) as (Hr & Hl & HBr & HBM & HMB).
      split; [exact Hr|]. exists B. repeat split; assumption. }
    split; [|exact Hn]. unfold inverse_function. rewrite Hn. reflexivity.
  - intros Hi. destruct (linalg_inv_invertible _ Hi) as [B HB].
    eexists. split; [apply inverse_affine_shape; eassumption|].
    unfold inverse_function. rewrite (inverse_affine_shape a B Hwf HB). reflexivity.
Qed.

Lemma inverse_affine_spec_witness :
  let a := mkAffineTransform (diag [qc 1; qc 2; qc 1])
             (mkCS ["i"; "j"] "" Float64) (mkCS ["x"; "y"] "" Float64) in
  wf_affine a /\
  ((~ invertible (affine a) -> inverse (Affine a) = Ok None)
  /\ (invertible (affine a) ->
      exists B, inverse (Affine a)
        = Ok (Some (Affine (mkAffineTransform B
            (mkCS (coord_names (at_output_coords a)) (cs_name (at_output_coords a))
                  (dtype_lub Float64 (coord_dtype (at_input_coords a))))
            (mkCS (coord_names (at_input_coords a)) (cs_name (at_input_coords a))
                  (dtype_lub Float64 (coord_dtype (at_input_coords a)))))))
        /\ mat_mul (affine a) B = identity (length (affine a))
        /\ mat_mul B (affine a) = identity (length (affine a)))).
Proof.
  intros a. assert (H : wf_affine a) by (unfold wf_affine; repeat split; vm_compute; reflexivity).
  split; [exact H|]. apply (inverse_affine_spec a H).
Defined.

Lemma inverse_function_affine_spec_witness :
  let a := mkAffineTransform (diag [qc 1; qc 0; qc 1])
             (mkCS ["i"; "j"] "" Float64) (mkCS ["x"; "y"] "" Float64) in
  wf_affine a /\
  ((~ invertible (affine a) ->
     inverse_function (Affine a) = Err (ValueError NoInverseForThisAffine)
     /\ inverse (Affine a) = Ok None)
  /\ (invertible (affine a) ->
      exists i, inverse (Affine a) = Ok (Some i)
           /\ inverse_function (Affine a) = Ok (Some (function i)))).
Proof.
  intros a. assert (H : wf_affine a) by (unfold wf_affine; repeat split; vm_compute; reflexivity).
  split; [exact H|]. apply (inverse_function_affine_spec a H).
Defined.

(** ** Coordinate systems, transforms and [compose] *)

Lemma names_eqb_refl l : names_eqb l l = true.
Proof. induction l as [|x l IH]; simpl; auto. rewrite String.eqb_refl. exact IH. Qed.

Lemma names_eqb_eq a b : names_eqb a b = true -> a = b.
Proof.
  revert b; induction a as [|x a IH]; intros [|y b] H; simpl in H; try discriminate; auto.
  apply andb_prop in H as [H1 H2]. apply String.eqb_eq in H1. subst. f_equal. auto.
Qed.

Lemma dtype_eqb_eq a b : dtype_eqb a b = true -> a = b.
Proof. destruct a, b; cbv; congruence. Qed.

Lemma cs_eqb_refl c : cs_eqb c c = true.
Proof. unfold cs_eqb. rewrite names_eqb_refl, String.eqb_refl, dtype_eqb_refl. reflexivity. Qed.

Lemma cs_eqb_eq a b : cs_eqb a b = true <-> a = b.
Proof.
  split; [|intros ->; apply cs_eqb_refl].
  destruct a, b; unfold cs_eqb; simpl. intro H.
  apply andb_prop in H as [H H3]. apply andb_prop in H as [H1 H2].
  apply names_eqb_eq in H1. apply String.eqb_eq in H2. apply dtype_eqb_eq in H3. congruence.
Qed.

Lemma length_removelast {A : Type} (l : list A) : length (removelast l) = length l - 1.
Proof.
  induction l as [|x l IH]; simpl; auto. destruct l as [|y l]; simpl in *; auto. lia.
Qed.

Lemma fn_ok_affine_function M n : fn_ok (affine_function M) n (length M - 1).
Proof.
  intros x _. unfold affine_function, to_matrix_vector. eexists. split; [reflexivity|].
  unfold vadd. rewrite length_zipWith, length_mat_vec, !length_map, length_removelast. apply Nat.min_id.
Qed.

Lemma fn_ok_compose f g n m p :
  fn_ok f n m -> fn_ok g m p -> fn_ok (fun x => let* y := f x in g y) n p.
Proof.
  intros Hf Hg x Hx. destruct (Hf x Hx) as (y & Hy & Hly). rewrite Hy. simpl. apply Hg, Hly.
Qed.

Lemma mapM_fn_ok f n m X :
  fn_ok f n m -> rows_have n X = true ->
  exists Y, mapM f X = Ok Y /\ rows_have m Y = true.
Proof.
  intros Hf. induction X as [|x X IH]; intros HX; simpl; [exists []; auto|].
  simpl in HX. apply andb_prop in HX as [Hx HX]. apply Nat.eqb_eq in Hx.
  destruct (Hf x Hx) as (y & -> & Hy). destruct (IH HX) as (Y & -> & HY).
  exists (y :: Y). simpl. rewrite Hy, Nat.eqb_refl. auto.
Qed.

Lemma mapM_fn_fits f n d1 d2 X Y :
  fn_fits f n d1 d2 -> rows_have n X = true -> mat_fits d1 X = true -> mapM f X = Ok Y ->
  mat_fits d2 Y = true.
Proof.
  intros Hf. revert Y; induction X as [|x X IH]; intros Y HX HfX HY; simpl in HY.
  - injection HY as <-. reflexivity.
  - simpl in HX, HfX. apply andb_prop in HX as [Hx HX]. apply Nat.eqb_eq in Hx.
    apply andb_prop in HfX as [Hfx HfX].
    destruct (f x) as [y|e] eqn:Ey; [|discriminate]. cbn [bind] in HY.
    destruct (mapM f X) as [Y'|e] eqn:EY; [|discriminate]. cbn [bind] in HY. injection HY as <-.
    simpl. rewrite (Hf x y Hx Hfx Ey). simpl. apply IH; auto.
Qed.

Lemma fn_fits_compose f g n m d1 d2 d3 :
  fn_ok f n m -> fn_fits f n d1 d2 -> fn_fits g m d2 d3 ->
  fn_fits (fun x => let* y := f x in g y) n d1 d3.
Proof.
  intros Hok Hf Hg x z Hx Hfx E. destruct (Hok x Hx) as (y & Ey & Hly).
  rewrite Ey in E. cbn [bind] in E. exact (Hg y z Hly (Hf x y Hx Hfx Ey) E).
Qed.

Lemma fn_fits_float f n d1 d2 : d2 <> Int64 -> fn_fits f n d1 d2.
Proof. intros H x y _ _ _. apply vec_fits_float, H. Qed.

Lemma call_fn_ok c X :
  fn_ok_cs (function c) (input_coords c) (output_coords c) ->
  rows_have (ndim (input_coords c)) X = true ->
  mat_fits (coord_dtype (input_coords c)) X = true ->
  exists Y, call c X = Ok Y /\ rows_have (ndim (output_coords c)) Y = true
    /\ mat_fits (coord_dtype (output_coords c)) Y = true.
Proof.
  intros [Hf Hfit] HX HfX. unfold call, checked_values. rewrite HX, HfX. cbn [bind].
  destruct (mapM_fn_ok _ _ _ _ Hf HX) as (Y & HY & HYr). rewrite HY. cbn [bind].
  pose proof (mapM_fn_fits _ _ _ _ X Y Hfit HX HfX HY) as HfY.
  rewrite HYr, HfY. exists Y. auto.
Qed.

Lemma rows_have_repeat n v k : length v = n -> rows_have n (repeat v k) = true.
Proof. intro H. induction k; simpl; auto. rewrite H, Nat.eqb_refl. exact IHk. Qed.

Lemma mapM_repeat_ok {A B : Type} (f : A -> result B) a b k :
  f a = Ok b -> mapM f (repeat a k) = Ok (repeat b k).
Proof. intros H. induction k as [|k IH]; simpl; [reflexivity|]. rewrite H. cbn [bind]. rewrite IH. reflexivity. Qed.

Lemma mapM_repeat_err {A B : Type} (f : A -> result B) a e k :
  f a = Err e -> mapM f (repeat a (S k)) = Err e.
Proof. intros H. simpl. rewrite H. reflexivity. Qed.

Lemma checked_values_zeros inc k :
  checked_values inc (repeat (zeros (ndim inc)) k) = Ok (repeat (zeros (ndim inc)) k).
Proof.
  unfold checked_values. rewrite rows_have_repeat by apply length_zeros.
  rewrite mat_fits_repeat by apply vec_fits_zeros. reflexivity.
Qed.

Lemma CoordinateMap_new_zero f inc outc inv (y : vec) :
  f (zeros (ndim inc)) = Ok y -> length y = ndim outc -> vec_fits (coord_dtype outc) y = true ->
  CoordinateMap_new f inc outc inv = Ok (Generic (mkCoordinateMap f inc outc inv)).
Proof.
  intros Hy Hl Hf. unfold CoordinateMap_new, call.
  cbn [input_coords output_coords function cm_input_coords cm_output_coords cm_function].
  rewrite checked_values_zeros. cbn [bind].
  rewrite (mapM_repeat_ok f _ y 10 Hy). cbn [bind]. unfold checked_values.
  rewrite rows_have_repeat by exact Hl. rewrite mat_fits_repeat by exact Hf. reflexivity.
Qed.

Lemma CoordinateMap_new_ok f inc outc inv :
  fn_ok_cs f inc outc ->
  CoordinateMap_new f inc outc inv = Ok (Generic (mkCoordinateMap f inc outc inv)).
Proof.
  intros [Hf Hfit]. destruct (Hf (zeros (ndim inc)) (length_zeros _)) as (y & Hy & Hly).
  apply (CoordinateMap_new_zero f inc outc inv y Hy Hly).
  exact (Hfit _ y (length_zeros _) (vec_fits_zeros _ _) Hy).
Qed.

Lemma in_removelast {A : Type} (x : A) l : In x (removelast l) -> In x l.
Proof.
  induction l as [|y l IH]; simpl; auto. destruct l as [|z l]; simpl; [contradiction|].
  intros [->|H]; auto. right. apply IH. exact H.
Qed.

Lemma fits_last d r : vec_fits d r = true -> fits d (last r 0%Qc) = true.
Proof.
  induction r as [|q r IH]; [intros _; apply fits_zero|]. simpl. intros H.
  apply andb_prop in H as [Hq Hr]. destruct r; auto.
Qed.

Lemma vec_fits_removelast d r : vec_fits d r = true -> vec_fits d (removelast r) = true.
Proof.
  rewrite !vec_fits_spec. intros H q Hq. apply H, in_removelast, Hq.
Qed.

Lemma affine_function_tmv M x :
  affine_function M x
  = Ok (vadd (mat_vec (fst (to_matrix_vector M)) x) (snd (to_matrix_vector M))).
Proof. unfold affine_function. destruct (to_matrix_vector M). reflexivity. Qed.

Lemma vec_fits_column d B j : mat_fits d B = true -> vec_fits d (column B j) = true.
Proof.
  intros HB. rewrite mat_fits_spec in HB. apply vec_fits_spec. intros q Hq.
  unfold column in Hq. apply in_map_iff in Hq as (r & <- & Hr).
  destruct (Nat.lt_ge_cases j (length r)) as [Hj|Hj].
  - apply (proj1 (vec_fits_spec d r) (HB r Hr)). apply nth_In, Hj.
  - rewrite nth_overflow by exact Hj. apply fits_zero.
Qed.

Lemma mat_fits_mat_mul d A B :
  mat_fits d A = true -> mat_fits d B = true -> mat_fits d (mat_mul A B) = true.
Proof.
  intros HA HB. rewrite mat_fits_spec in HA. apply mat_fits_spec. intros x Hx.
  unfold mat_mul in Hx. apply in_map_iff in Hx as (r & <- & Hr). apply vec_fits_spec.
  intros q Hq. apply in_map_iff in Hq as (j & <- & _). apply fits_dot; [apply HA, Hr|].
  apply vec_fits_column, HB.
Qed.

Lemma mat_fits_mat_prod d Ms :
  Forall (fun M => mat_fits d M = true) Ms -> mat_fits d (mat_prod Ms) = true.
Proof.
  induction Ms as [|M Ms IH]; intros H; [reflexivity|]. inversion H as [|? ? HM HMs]; subst.
  destruct Ms as [|M' Ms]; [exact HM|]. apply mat_fits_mat_mul; [exact HM|]. apply IH, HMs.
Qed.

Lemma tmv_fits d M :
  mat_fits d M = true ->
  mat_fits d (fst (to_matrix_vector M)) = true /\ vec_fits d (snd (to_matrix_vector M)) = true.
Proof.
  intros HM. rewrite mat_fits_spec in HM. unfold to_matrix_vector. cbn [fst snd]. split.
  - apply mat_fits_spec. intros r Hr. apply in_map_iff in Hr as (r' & <- & Hr').
    apply vec_fits_removelast, HM, in_removelast, Hr'.
  - apply vec_fits_spec. intros q Hq. apply in_map_iff in Hq as (r' & <- & Hr').
    apply fits_last, HM, in_removelast, Hr'.
Qed.

Lemma mat_fits_hom_of_intro d A b n :
  mat_fits d A = true -> vec_fits d b = true -> mat_fits d (hom_of A b n) = true.
Proof.
  intros HA Hb. unfold hom_of. rewrite mat_fits_app. apply andb_true_intro. split.
  - revert b Hb; induction A as [|r A IH]; intros [|bi b] Hb; simpl in *; auto.
    apply andb_prop in HA as [Hr HA]. apply andb_prop in Hb as [Hbi Hb].
    rewrite vec_fits_app, Hr. simpl. rewrite Hbi. simpl. apply IH; auto.
  - simpl. rewrite vec_fits_app, vec_fits_zeros. simpl. rewrite fits_one. reflexivity.
Qed.

Lemma mat_fits_hom d M : mat_fits d M = true -> mat_fits d (hom M) = true.
Proof.
  intros HM. destruct (tmv_fits d M HM) as [HA Hb]. unfold hom.
  destruct (to_matrix_vector M) as [A b]. apply mat_fits_hom_of_intro; assumption.
Qed.

Lemma fn_fits_affine_function M n d :
  mat_fits d M = true -> fn_fits (affine_function M) n d d.
Proof.
  intros HM x y _ Hx E. rewrite affine_function_tmv in E. injection E as <-.
  destruct (tmv_fits d M HM) as [HA Hb].
  apply vec_fits_vadd; [apply vec_fits_mat_vec|]; assumption.
Qed.

Lemma wb_function c :
  well_behaved c -> fn_ok (function c) (ndim (input_coords c)) (ndim (output_coords c)).
Proof.
  destruct c as [g|a]; simpl.
  - intros [[H _] _]. exact H.
  - intros (Hl & _). replace (ndim (at_output_coords a)) with (length (affine a) - 1) by lia.
    apply fn_ok_affine_function.
Qed.

Lemma wb_fits c :
  well_behaved c ->
  fn_fits (function c) (ndim (input_coords c)) (coord_dtype (input_coords c))
    (coord_dtype (output_coords c)).
Proof.
  destruct c as [g|a]; simpl.
  - intros [[_ H] _]. exact H.
  - intros (_ & _ & _ & _ & Hd & Hf). rewrite <- Hd. apply fn_fits_affine_function, Hf.
Qed.

Lemma wb_ok_cs c :
  well_behaved c -> fn_ok_cs (function c) (input_coords c) (output_coords c).
Proof. intro H. split; [apply wb_function, H|apply wb_fits, H]. Qed.

Lemma linalg_inv_wf_square a B :
  wf_affine a -> linalg_inv (affine a) = Some B ->
  ndim (at_input_coords a) = ndim (at_output_coords a) /\ length B = length (affine a).
Proof.
  intros (Hl & Hr & _) HB. destruct (linalg_inv_some _ _ HB) as (HMr & HBl & _).
  split; [|exact HBl].
  assert (HM : affine a <> []) by (intro H; rewrite H in Hl; simpl in Hl; lia).
  pose proof (rows_have_two_lengths _ _ _ HM Hr HMr). lia.
Qed.

Lemma wb_inverse c :
  well_behaved c ->
  exists oi, inverse c = Ok oi
    /\ forall i, oi = Some i -> fn_ok (function i) (ndim (output_coords c)) (ndim (input_coords c)).
Proof.
  destruct c as [g|a].
  - simpl. intros [Hf Hh]. destruct (cm_inverse_function g) as [h|] eqn:Eh.
    + rewrite CoordinateMap_new_ok by (apply Hh; reflexivity). simpl.
      eexists; split; [reflexivity|]. intros i Hi. injection Hi as <-. simpl.
      apply (Hh h eq_refl).
    + exists None. split; [reflexivity|]. discriminate.
  - intros Hwf. destruct (linalg_inv (affine a)) as [B|] eqn:HB.
    + eexists. split; [apply inverse_affine_shape; eassumption|].
      intros i Hi. injection Hi as <-. cbn [function affine output_coords input_coords].
      destruct (linalg_inv_wf_square a B Hwf HB) as [Hsq HBl].
      destruct Hwf as (Hl & _).
      replace (ndim (at_input_coords a)) with (length B - 1) by lia.
      apply fn_ok_affine_function.
    + exists None. unfold inverse. rewrite HB. split; [reflexivity|]. discriminate.
Qed.

Lemma wb_inv_fits_generic g : well_behaved (Generic g) -> inv_fits (Generic g).
Proof.
  intros [_ Hh] i Hi. simpl in Hi. destruct (cm_inverse_function g) as [h|]; [|discriminate].
  rewrite CoordinateMap_new_ok in Hi by (apply Hh; reflexivity). injection Hi as <-.
  apply (Hh h eq_refl).
Qed.

Lemma inv_fits_float c : coord_dtype (input_coords c) <> Int64 -> inv_fits c.
Proof. intros H i _. apply fn_fits_float, H. Qed.

Lemma compose2_ok m c :
  well_behaved m -> well_behaved c -> ndim (input_coords m) = ndim (output_coords c) ->
  exists inv, compose2 m c = Ok ((fun x => let* y := function c x in function m y), inv)
    /\ (forall h, inv = Some h -> fn_ok h (ndim (output_coords m)) (ndim (input_coords c)))
    /\ (inv_fits m -> inv_fits c -> coord_dtype (input_coords m) = coord_dtype (output_coords c) ->
        forall h, inv = Some h ->
          fn_fits h (ndim (output_coords m)) (coord_dtype (output_coords m))
            (coord_dtype (input_coords c))).
Proof.
  intros Hm Hc Hseam. unfold compose2.
  destruct (wb_inverse m Hm) as (oi1 & E1 & Hi1). rewrite E1. simpl.
  destruct oi1 as [i1|]; [|exists None; split; [reflexivity|split; discriminate]].
  destruct (wb_inverse c Hc) as (oi2 & E2 & Hi2). rewrite E2. simpl.
  destruct oi2 as [i2|]; [|exists None; split; [reflexivity|split; discriminate]].
  eexists. split; [reflexivity|]. split.
  - intros h Hh. injection Hh as <-.
    apply fn_ok_compose with (m := ndim (input_coords m)); [apply Hi1; reflexivity|].
    rewrite Hseam. apply Hi2. reflexivity.
  - intros Hfm Hfc Hd h Hh. injection Hh as <-.
    apply fn_fits_compose with (m := ndim (input_coords m)) (d2 := coord_dtype (input_coords m));
      [apply Hi1; reflexivity|apply Hfm, E1|].
    rewrite Hseam, Hd. apply Hfc, E2.
Qed.

Lemma compose_step_ok m c :
  well_behaved m -> well_behaved c -> input_coords m = output_coords c ->
  exists inv,
    compose_step m (Ok c)
      = Ok (Generic (mkCoordinateMap (fun x => let* y := function c x in function m y)
                       (input_coords c) (output_coords m) inv))
    /\ fn_ok_cs (fun x => let* y := function c x in function m y) (input_coords c) (output_coords m)
    /\ (inv_fits m -> inv_fits c ->
        well_behaved (Generic (mkCoordinateMap (fun x => let* y := function c x in function m y)
                       (input_coords c) (output_coords m) inv))).
Proof.
  intros Hm Hc Hseam. unfold compose_step. cbn [bind]. rewrite Hseam, cs_eqb_refl.
  destruct (compose2_ok m c Hm Hc) as (inv & -> & Hinv & Hinvf); [rewrite Hseam; reflexivity|].
  assert (Hf : fn_ok_cs (fun x => let* y := function c x in function m y)
                 (input_coords c) (output_coords m)).
  { split.
    - apply fn_ok_compose with (m := ndim (output_coords c)); [apply wb_function, Hc|].
      rewrite <- Hseam. apply wb_function, Hm.
    - apply fn_fits_compose with (m := ndim (output_coords c)) (d2 := coord_dtype (output_coords c));
        [apply wb_function, Hc|apply wb_fits, Hc|].
      rewrite <- Hseam. apply wb_fits, Hm. }
  exists inv. cbn [bind fst snd]. rewrite CoordinateMap_new_ok by exact Hf.
  split; [reflexivity|]. split; [exact Hf|]. intros Hfm Hfc. simpl. split; [exact Hf|].
  intros h Hh. split; [apply Hinv, Hh|]. apply Hinvf; auto. rewrite Hseam. reflexivity.
Qed.

Lemma compose_fold_fits c0 cs :
  well_behaved c0 -> Forall well_behaved cs -> seams_ok (cs ++ [c0]) ->
  Forall inv_fits (cs ++ [c0]) ->
  exists c, fold_right compose_step (Ok c0) cs = Ok c
    /\ well_behaved c /\ inv_fits c
    /\ input_coords c = input_coords c0
    /\ output_coords c = output_coords (hd c0 cs)
    /\ forall x, function c x = chain (cs ++ [c0]) x.
Proof.
  intros H0. induction cs as [|m cs IH]; intros Hcs Hs Hfs.
  - exists c0. inversion Hfs; subst. repeat split; auto.
  - inversion Hcs as [|? ? Hm Hcs']; subst. inversion Hfs as [|? ? Hfm Hfs']; subst.
    assert (Hs' : seams_ok (cs ++ [c0]) /\ input_coords m = output_coords (hd c0 cs)).
    { destruct cs as [|m' cs]; simpl in Hs |- *; tauto. }
    destruct Hs' as [Hs' Hseam].
    destruct (IH Hcs' Hs' Hfs') as (c & Hfold & Hc & Hfc & Hin & Hout & Hfun).
    simpl. rewrite Hfold.
    destruct (compose_step_ok m c Hm Hc) as (inv & -> & _ & Hwb); [congruence|].
    eexists. split; [reflexivity|]. split; [exact (Hwb Hfm Hfc)|].
    split; [apply wb_inv_fits_generic, (Hwb Hfm Hfc)|].
    split; [exact Hin|]. split; [reflexivity|].
    intros x. cbn [function cm_function]. rewrite Hfun. reflexivity.
Qed.

Lemma compose_fold_ok c0 cs :
  well_behaved c0 -> Forall well_behaved cs -> seams_ok (cs ++ [c0]) ->
  length cs <= 1 \/ Forall inv_fits (cs ++ [c0]) ->
  exists c, fold_right compose_step (Ok c0) cs = Ok c
    /\ fn_ok_cs (function c) (input_coords c) (output_coords c)
    /\ (Forall inv_fits (cs ++ [c0]) -> well_behaved c)
    /\ input_coords c = input_coords c0
    /\ output_coords c = output_coords (hd c0 cs)
    /\ forall x, function c x = chain (cs ++ [c0]) x.
Proof.
  intros H0 Hcs Hs [Hlen|Hfs].
  - destruct cs as [|m [|m' cs]]; simpl in Hlen; [| |lia].
    + exists c0. repeat split; auto; apply wb_ok_cs, H0.
    + inversion Hcs as [|? ? Hm _]; subst. simpl in Hs. destruct Hs as [Hseam _].
      destruct (compose_step_ok m c0 Hm H0 Hseam) as (inv & Hst & Hf & Hwb).
      cbn [fold_right]. rewrite Hst. eexists. split; [reflexivity|]. split; [exact Hf|].
      split; [intros Hfs; inversion Hfs as [|? ? Hfm Hfs']; inversion Hfs'; subst; auto|].
      repeat split; reflexivity.
  - destruct (compose_fold_fits c0 cs H0 Hcs Hs Hfs) as (c & Hf & Hc & _ & Hin & Hout & Hfun).
    exists c. repeat split; auto; apply wb_ok_cs, Hc.
Qed.

Lemma compose_app_last cs c0 :
  compose (cs ++ [c0])
  = let* c := fold_right compose_step (Ok c0) cs in
    if forallb is_affine (cs ++ [c0]) then
      let* M := linearize (call c) (fst (ndims c)) 1%Qc None in
      AffineTransform_new M (coord_dtype (output_coords c)) (input_coords c) (output_coords c)
    else Ok c.
Proof. unfold compose. rewrite rev_app_distr, removelast_last. reflexivity. Qed.

(** ** Products of homogeneous matrices *)

Lemma length_hom_of A b n : length b = length A -> length (hom_of A b n) = length A + 1.
Proof.
  intro H. unfold hom_of. rewrite length_app, length_zipWith, H, Nat.min_id. simpl. lia.
Qed.

Lemma rows_have_hom_of A b n : rows_have n A = true -> rows_have (n + 1) (hom_of A b n) = true.
Proof.
  intro HA. unfold hom_of. apply rows_have_spec. intros r Hr. apply in_app_or in Hr as [Hr|Hr].
  - revert b Hr; induction A as [|r' A IH]; intros [|bi b] Hr; simpl in Hr; try contradiction.
    simpl in HA. apply andb_prop in HA as [H1 H2]. apply Nat.eqb_eq in H1.
    destruct Hr as [<-|Hr]; [rewrite length_app; simpl; lia|]. eapply IH; eauto.
  - destruct Hr as [<-|[]]. rewrite length_app, length_zeros. reflexivity.
Qed.

Lemma ncols_hom_of A b n : rows_have n A = true -> ncols (hom_of A b n) = n + 1.
Proof.
  intro HA. apply ncols_rows_have; [|apply rows_have_hom_of, HA].
  unfold hom_of. intro H. apply app_eq_nil in H as [_ H]. discriminate.
Qed.

Lemma column_hom_of_lt A b n j :
  rows_have n A = true -> length b = length A -> j < n ->
  column (hom_of A b n) j = column A j ++ [0%Qc].
Proof.
  intros HA Hb Hj. unfold column, hom_of. rewrite map_app. simpl. f_equal.
  - revert b Hb; induction A as [|r A IH]; intros [|bi b] Hb; simpl in *; try discriminate; auto.
    apply andb_prop in HA as [H1 H2]. apply Nat.eqb_eq in H1.
    rewrite app_nth1 by lia. f_equal. apply IH; auto.
  - f_equal. rewrite app_nth1 by (rewrite length_zeros; lia). unfold zeros. apply nth_repeat.
Qed.

Lemma column_hom_of_n A b n :
  rows_have n A = true -> length b = length A -> column (hom_of A b n) n = b ++ [1%Qc].
Proof.
  intros HA Hb. unfold column, hom_of. rewrite map_app. simpl. f_equal.
  - revert b Hb; induction A as [|r A IH]; intros [|bi b] Hb; simpl in *; try discriminate; auto.
    apply andb_prop in HA as [H1 H2]. apply Nat.eqb_eq in H1.
    rewrite app_nth2 by lia. rewrite H1, Nat.sub_diag. simpl. f_equal. apply IH; auto.
  - f_equal. rewrite app_nth2 by (rewrite length_zeros; lia). rewrite length_zeros, Nat.sub_diag.
    reflexivity.
Qed.

Lemma dot_single_zero c : dot [c] [0%Qc] = 0%Qc.
Proof. unfold dot. simpl. ring. Qed.

Lemma dot_single_one c : dot [c] [1%Qc] = c.
Proof. unfold dot. simpl. ring. Qed.

Lemma row_mul_hom_of r c A2 b2 n :
  rows_have n A2 = true -> length b2 = length A2 -> length r = length A2 ->
  map (fun j => dot (r ++ [c]) (column (hom_of A2 b2 n) j)) (seq 0 (n + 1))
  = map (fun j => dot r (column A2 j)) (seq 0 n) ++ [(dot r b2 + c)%Qc].
Proof.
  intros HA Hb Hr. rewrite seq_app, map_app. simpl. f_equal.
  - apply map_ext_in. intros j Hj. apply in_seq in Hj.
    rewrite column_hom_of_lt by (auto; lia).
    rewrite dot_app by (rewrite length_column; auto). rewrite dot_single_zero. ring.
  - rewrite column_hom_of_n by auto. rewrite dot_app by lia. rewrite dot_single_one. reflexivity.
Qed.

Lemma mat_mul_hom_of A1 b1 A2 b2 m n :
  rows_have m A1 = true -> length b1 = length A1 ->
  rows_have n A2 = true -> length A2 = m -> length b2 = m ->
  mat_mul (hom_of A1 b1 m) (hom_of A2 b2 n)
  = hom_of (mat_mul_cols n A1 A2) (vadd (mat_vec A1 b2) b1) n.
Proof.
  intros HA1 Hb1 HA2 HlA2 Hb2. unfold mat_mul. rewrite ncols_hom_of by exact HA2.
  set (H2 := hom_of A2 b2 n). unfold hom_of. rewrite map_app. f_equal.
  - unfold H2, mat_mul_cols, vadd, mat_vec.
    revert b1 Hb1; induction A1 as [|r A1 IH]; intros [|c b1] Hb1; simpl in *; try discriminate; auto.
    apply andb_prop in HA1 as [H1 HA1r]. apply Nat.eqb_eq in H1.
    rewrite row_mul_hom_of by first [assumption | lia]. f_equal. apply IH; auto.
  - unfold H2. simpl. f_equal. rewrite seq_app, map_app. simpl. f_equal.
    + unfold zeros. rewrite (repeat_as_map 0%Qc 0 n). apply map_ext_in. intros j Hj.
      apply in_seq in Hj. rewrite column_hom_of_lt by (auto; lia).
      rewrite dot_app by (rewrite length_column, length_zeros; lia).
      rewrite dot_zeros_l, dot_single_zero. ring.
    + rewrite column_hom_of_n by first [assumption | lia]. rewrite dot_app by (rewrite length_zeros; lia).
      rewrite dot_zeros_l, dot_single_one. f_equal; try ring.
Qed.

Lemma vec_affine_compose A1 b1 A2 b2 n x :
  rows_have (length A2) A1 = true -> rows_have n A2 = true -> length b2 = length A2 ->
  length x = n -> length b1 = length A1 ->
  vadd (mat_vec A1 (vadd (mat_vec A2 x) b2)) b1
  = vadd (mat_vec (mat_mul_cols n A1 A2) x) (vadd (mat_vec A1 b2) b1).
Proof.
  intros HA1 HA2 Hb2 Hx Hb1. set (y := vadd (mat_vec A2 x) b2).
  assert (Hy : forall r, length r = length A2 -> dot r y = (dot r (mat_vec A2 x) + dot r b2)%Qc).
  { intros r Hr. unfold y. apply dot_vadd_r; rewrite ?length_mat_vec; lia. }
  clearbody y. unfold mat_mul_cols.
  revert b1 Hb1; induction A1 as [|r A1 IH]; intros [|c b1] Hb1; try discriminate; [reflexivity|].
  simpl in HA1. apply andb_prop in HA1 as [H1 HA1r]. apply Nat.eqb_eq in H1.
  unfold vadd, mat_vec. cbn [map zipWith]. f_equal; [|apply IH; simpl in Hb1; auto].
  rewrite dot_exchange with (p := n) by auto. rewrite Hy by exact H1. ring.
Qed.

Lemma tmv_shape M n :
  rows_have (n + 1) M = true ->
  rows_have n (fst (to_matrix_vector M)) = true
  /\ length (fst (to_matrix_vector M)) = length M - 1
  /\ length (snd (to_matrix_vector M)) = length M - 1.
Proof.
  intros HM. unfold to_matrix_vector. simpl. rewrite !length_map, length_removelast.
  split; [|auto]. apply rows_have_spec. intros r Hr. apply in_map_iff in Hr as (r' & <- & Hr').
  apply in_removelast in Hr'. rewrite rows_have_spec in HM. apply HM in Hr'.
  rewrite length_removelast. lia.
Qed.

Lemma hom_wf a :
  wf_affine a ->
  hom (affine a) = hom_of (fst (to_matrix_vector (affine a))) (snd (to_matrix_vector (affine a)))
                          (ndim (at_input_coords a))
  /\ rows_have (ndim (at_input_coords a)) (fst (to_matrix_vector (affine a))) = true
  /\ length (fst (to_matrix_vector (affine a))) = ndim (at_output_coords a)
  /\ length (snd (to_matrix_vector (affine a))) = ndim (at_output_coords a).
Proof.
  intros (Hl & Hr & _). destruct (tmv_shape _ _ Hr) as (H1 & H2 & H3).
  split; [|split; [exact H1|]; lia].
  unfold hom. rewrite (ncols_rows_have _ _ ltac:(intro E; rewrite E in Hl; simpl in Hl; lia) Hr).
  destruct (to_matrix_vector (affine a)). f_equal. lia.
Qed.

Lemma hom_id a : wf_affine a -> hom_last_row a -> hom (affine a) = affine a.
Proof.
  intros Hwf Hlast. destruct (hom_wf a Hwf) as (-> & _).
  destruct Hwf as (Hl & Hr & _). unfold hom_last_row in Hlast.
  assert (HM : affine a <> []) by (intro E; rewrite E in Hl; simpl in Hl; lia).
  transitivity (removelast (affine a) ++ [last (affine a) []]);
    [|symmetry; apply app_removelast_last; exact HM].
  rewrite Hlast. unfold hom_of, to_matrix_vector. simpl. f_equal.
  assert (Hrows : forall r, In r (removelast (affine a)) -> r <> []).
  { intros r Hin E. apply in_removelast in Hin. rewrite rows_have_spec in Hr.
    apply Hr in Hin. rewrite E in Hin. simpl in Hin. lia. }
  induction (removelast (affine a)) as [|r R IH]; simpl; auto. f_equal.
  - symmetry. apply app_removelast_last. apply Hrows. left. reflexivity.
  - apply IH. intros r' Hr'. apply Hrows. right. exact Hr'.
Qed.

Lemma chain_cons c cs x : chain (c :: cs) x = let* y := chain cs x in function c y.
Proof. reflexivity. Qed.

Lemma last_cons_default {A : Type} (x : A) l d d' : last (x :: l) d = last (x :: l) d'.
Proof.
  revert x; induction l as [|y l IH]; intros x; [reflexivity|].
  change (last (y :: l) d = last (y :: l) d'). apply IH.
Qed.

Lemma chain_affines a1 rest :
  Forall wf_affine (a1 :: rest) -> seams_ok (map Affine (a1 :: rest)) ->
  exists A b,
    mat_prod (map (fun a => hom (affine a)) (a1 :: rest))
      = hom_of A b (ndim (at_input_coords (last (a1 :: rest) a1)))
    /\ rows_have (ndim (at_input_coords (last (a1 :: rest) a1))) A = true
    /\ length A = ndim (at_output_coords a1) /\ length b = length A
    /\ forall x, length x = ndim (at_input_coords (last (a1 :: rest) a1)) ->
         chain (map Affine (a1 :: rest)) x = Ok (vadd (mat_vec A x) b).
Proof.
  revert a1; induction rest as [|a2 rest IH]; intros a1 Hwf Hs.
  - inversion Hwf as [|? ? Hw1 _]; subst. destruct (hom_wf a1 Hw1) as (Hh & HA & HlA & Hlb).
    exists (fst (to_matrix_vector (affine a1))), (snd (to_matrix_vector (affine a1))).
    cbn [map mat_prod last]. split; [exact Hh|]. split; [exact HA|]. split; [exact HlA|].
    split; [rewrite Hlb, HlA; reflexivity|].
    intros x _. apply affine_function_tmv.
  - inversion Hwf as [|? ? Hw1 Hwf']; subst.
    destruct Hs as [Hseam Hs']. cbn [input_coords output_coords] in Hseam.
    destruct (IH a2 Hwf' Hs') as (A2 & b2 & Hp & HA2 & HlA2 & Hlb2 & Hch).
    destruct (hom_wf a1 Hw1) as (Hh & HA1 & HlA1 & Hlb1).
    set (A1 := fst (to_matrix_vector (affine a1))) in *.
    set (b1 := snd (to_matrix_vector (affine a1))) in *.
    replace (last (a1 :: a2 :: rest) a1) with (last (a2 :: rest) a2)
      by (simpl; apply last_cons_default).
    set (n := ndim (at_input_coords (last (a2 :: rest) a2))) in *.
    exists (mat_mul_cols n A1 A2), (vadd (mat_vec A1 b2) b1).
    assert (Hm : ndim (at_input_coords a1) = length A2) by (rewrite Hseam; lia).
    split.
    { change (mat_prod (map (fun a => hom (affine a)) (a1 :: a2 :: rest)))
        with (mat_mul (hom (affine a1)) (mat_prod (map (fun a => hom (affine a)) (a2 :: rest)))).
      rewrite Hp, Hh. apply mat_mul_hom_of; auto; lia. }
    split.
    { apply rows_have_spec. intros r Hr. unfold mat_mul_cols in Hr.
      apply in_map_iff in Hr as (r' & <- & _). rewrite length_map, length_seq. reflexivity. }
    split; [unfold mat_mul_cols; rewrite length_map; exact HlA1|].
    split; [unfold vadd; rewrite length_zipWith, length_mat_vec, Hlb1, HlA1, Nat.min_id;
            unfold mat_mul_cols; rewrite length_map; lia|].
    intros x Hx. change (map Affine (a1 :: a2 :: rest)) with (Affine a1 :: map Affine (a2 :: rest)).
    rewrite chain_cons, Hch by exact Hx. cbn [bind function]. rewrite affine_function_tmv.
    fold A1 b1. f_equal. apply vec_affine_compose; auto; try lia.
    rewrite <- Hm. exact HA1.
Qed.

Lemma rows_have_zipWith_vadd n X Y :
  rows_have n X = true -> rows_have n Y = true -> rows_have n (zipWith vadd X Y) = true.
Proof.
  revert Y; induction X as [|x X IH]; intros [|y Y] HX HY; simpl in *; auto.
  apply andb_prop in HX as [Hx HX]. apply andb_prop in HY as [Hy HY].
  apply Nat.eqb_eq in Hx, Hy. rewrite length_vadd by lia. rewrite Hx, Nat.eqb_refl.
  simpl. apply IH; auto.
Qed.

Lemma rows_have_map_vscale n c X : rows_have n X = true -> rows_have n (map (vscale c) X) = true.
Proof.
  induction X as [|x X IH]; simpl; auto. intros H. apply andb_prop in H as [H1 H2].
  rewrite length_vscale, H1. auto.
Qed.

Lemma linearize_ext f g n s :
  fits Int64 s = true ->
  (forall X, rows_have n X = true -> mat_fits Int64 X = true -> f X = g X) ->
  linearize f n s None = linearize g n s None.
Proof.
  intros Hs Hfg. unfold linearize. cbn [bind].
  rewrite (Hfg [zeros n]) by (simpl; rewrite ?length_zeros, ?Nat.eqb_refl, ?vec_fits_zeros; reflexivity).
  destruct (g [zeros n]) as [bb|e]; cbn [bind]; [|reflexivity].
  assert (HO : rows_have n (repeat (zeros n) n) = true) by (apply rows_have_repeat, length_zeros).
  assert (HfO : mat_fits Int64 (repeat (zeros n) n) = true)
    by (apply mat_fits_repeat, vec_fits_zeros).
  rewrite (Hfg (zipWith vadd (map (vscale s) (identity n)) (repeat (zeros n) n))).
  2:{ apply rows_have_zipWith_vadd; [apply rows_have_map_vscale, rows_have_identity|exact HO]. }
  2:{ apply mat_fits_zipWith_vadd; [apply mat_fits_map_vscale, mat_fits_identity; exact Hs|exact HfO]. }
  rewrite (Hfg (repeat (zeros n) n)) by assumption. reflexivity.
Qed.

Lemma dtype_chain a1 rest :
  Forall wf_affine (a1 :: rest) -> seams_ok (map Affine (a1 :: rest)) ->
  coord_dtype (at_input_coords (last (a1 :: rest) a1)) = coord_dtype (at_output_coords a1).
Proof.
  revert a1; induction rest as [|a2 rest IH]; intros a1 Hwf Hs.
  - inversion Hwf as [|? ? (_ & _ & _ & _ & Hd & _) _]; subst. exact Hd.
  - inversion Hwf as [|? ? (_ & _ & _ & _ & Hd & _) Hwf']; subst.
    destruct Hs as [Hseam Hs']. cbn [input_coords output_coords] in Hseam.
    replace (last (a1 :: a2 :: rest) a1) with (last (a2 :: rest) a2)
      by (simpl; apply last_cons_default).
    rewrite (IH a2 Hwf' Hs'), <- Hseam. exact Hd.
Qed.

Lemma forallb_is_affine_map ats : forallb is_affine (map Affine ats) = true.
Proof. induction ats; simpl; auto. Qed.

Lemma Qc_one_neq_zero : 1%Qc <> 0%Qc.
Proof. intro H. apply (f_equal this) in H. vm_compute in H. discriminate. Qed.

Lemma dtype_all a1 rest :
  Forall wf_affine (a1 :: rest) -> seams_ok (map Affine (a1 :: rest)) ->
  Forall (fun a => coord_dtype (at_input_coords a) = coord_dtype (at_output_coords a1)) (a1 :: rest).
Proof.
  revert a1; induction rest as [|a2 rest IH]; intros a1 Hwf Hs.
  - inversion Hwf as [|? ? (_ & _ & _ & _ & Hd & _) _]; subst. constructor; auto.
  - inversion Hwf as [|? ? (_ & _ & _ & _ & Hd & _) Hwf']; subst.
    destruct Hs as [Hseam Hs']. cbn [input_coords output_coords] in Hseam.
    constructor; [exact Hd|]. eapply Forall_impl; [|exact (IH a2 Hwf' Hs')].
    intros a Ha. simpl in Ha. rewrite Ha, <- Hseam. exact Hd.
Qed.

Lemma affines_inv_fits a1 rest :
  Forall wf_affine (a1 :: rest) -> seams_ok (map Affine (a1 :: rest)) ->
  coord_dtype (at_output_coords a1) <> Int64 -> Forall inv_fits (map Affine (a1 :: rest)).
Proof.
  intros Hwf Hs Hd. apply Forall_map. eapply Forall_impl; [|exact (dtype_all a1 rest Hwf Hs)].
  intros a Ha. apply inv_fits_float. simpl. rewrite Ha. exact Hd.
Qed.

Lemma compose_affines a1 rest :
  Forall wf_affine (a1 :: rest) -> seams_ok (map Affine (a1 :: rest)) ->
  length rest <= 1 \/ Forall inv_fits (map Affine (a1 :: rest)) ->
  compose (map Affine (a1 :: rest))
  = Ok (Affine (mkAffineTransform (mat_prod (map (fun a => hom (affine a)) (a1 :: rest)))
                  (at_input_coords (last (a1 :: rest) a1)) (at_output_coords a1))).
Proof.
  intros Hwf Hs Hlen.
  destruct (chain_affines a1 rest Hwf Hs) as (A & b & Hp & HA & HlA & Hlb & Hch).
  pose proof (dtype_chain a1 rest Hwf Hs) as Hd.
  rewrite Hp. clear Hp.
  destruct (exists_last (l := a1 :: rest) ltac:(discriminate)) as (l & a0 & Heq).
  assert (Hlast : last (a1 :: rest) a1 = a0) by (rewrite Heq; apply last_last).
  rewrite Hlast in *.
  assert (Hsplit : map Affine (a1 :: rest) = map Affine l ++ [Affine a0])
    by (rewrite Heq, map_app; reflexivity).
  assert (Hw0 : wf_affine a0)
    by (rewrite Forall_forall in Hwf; apply Hwf; rewrite Heq; apply in_or_app; right; left; auto).
  assert (Hw1 : wf_affine a1) by (rewrite Forall_forall in Hwf; apply Hwf; left; auto).
  assert (Hwl : Forall well_behaved (map Affine l)).
  { apply Forall_map. rewrite Forall_forall in Hwf |- *. intros x Hx. apply Hwf.
    rewrite Heq. apply in_or_app. left. exact Hx. }
  assert (Hhd : output_coords (hd (Affine a0) (map Affine l)) = at_output_coords a1).
  { destruct l as [|a' l]; simpl in Heq |- *; injection Heq as E1 E2; congruence. }
  assert (Hlen' : length (map Affine l) <= 1 \/ Forall inv_fits (map Affine l ++ [Affine a0])).
  { rewrite <- Hsplit, length_map. destruct Hlen as [Hlen|Hlen]; [left|right; exact Hlen].
    apply (f_equal (@length _)) in Heq. rewrite length_app in Heq. simpl in Heq. lia. }
  rewrite Hsplit, compose_app_last.
  rewrite Hsplit in Hs, Hch.
  destruct (compose_fold_ok (Affine a0) (map Affine l) Hw0 Hwl Hs Hlen')
    as (c & Hfold & Hok & _ & Hin & Hout & Hfun).
  rewrite Hhd in Hout. cbn [input_coords] in Hin.
  rewrite Hfold. cbn [bind]. rewrite <- Hsplit, forallb_is_affine_map.
  unfold ndims. rewrite Hin. cbn [fst].
  rewrite (linearize_ext (call c) (fun xs => Ok (map (fun x => vadd (mat_vec A x) b) xs))).
  2:{ reflexivity. }
  2:{ intros X HX HfX.
      assert (HX' : rows_have (ndim (input_coords c)) X = true) by (rewrite Hin; exact HX).
      assert (HfX' : mat_fits (coord_dtype (input_coords c)) X = true) by (apply mat_fits_int_any, HfX).
      assert (HY : mapM (function c) X = Ok (map (fun x => vadd (mat_vec A x) b) X)).
      { apply mapM_map_ok. intros x Hx. rewrite Hfun. apply Hch. rewrite rows_have_spec in HX. auto. }
      pose proof (mapM_fn_fits _ _ _ _ X _ (proj2 Hok) HX' HfX' HY) as HfY.
      unfold call, checked_values. rewrite HX', HfX'. cbn [bind]. rewrite HY. cbn [bind].
      rewrite HfY. rewrite Hout.
      replace (rows_have (ndim (at_output_coords a1)) (map (fun x => vadd (mat_vec A x) b) X))
        with true; [reflexivity|].
      symmetry. apply rows_have_spec. intros r Hr. apply in_map_iff in Hr as (x & <- & _).
      rewrite length_vadd; rewrite length_mat_vec; lia. }
  rewrite linearize_affine_origin0 by (auto using Qc_one_neq_zero). cbn [bind].
  rewrite ?Hin, ?Hout. unfold AffineTransform_new, safe_dtype. cbn [fold_right].
  rewrite Hd, safe_dtype_same3, <- Hd.
  rewrite CoordinateSystem_new_self by (destruct Hw0 as (_ & _ & ? & _); auto).
  rewrite Hd. rewrite CoordinateSystem_new_self by (destruct Hw1 as (_ & _ & _ & ? & _); auto).
  cbn [bind]. rewrite length_hom_of by lia. rewrite HlA, Nat.eqb_refl.
  rewrite rows_have_hom_of by exact HA. reflexivity.
Qed.

(** C1 (corrected): [compose] of a nonempty sequence of well-formed
    [AffineTransform]s that match at every seam, with at most two operands
    or a precision that is not an integer one, returns an
    [AffineTransform] with the input coordinates of the last operand and the
    output coordinates of the first. Its matrix is the product of the
    operands' matrices, each with its last row reset to [[0, ..., 0, 1]];
    when every operand's last row is already [[0, ..., 0, 1]], it is the
    product of the operands' matrices. *)
Theorem compose_affine_product (a1 : AffineTransform) (rest : list AffineTransform) :
  Forall wf_affine (a1 :: rest) -> seams_ok (map Affine (a1 :: rest)) ->
  length rest <= 1 \/ coord_dtype (at_output_coords a1) <> Int64 ->
  compose (map Affine (a1 :: rest))
    = Ok (Affine (mkAffineTransform (mat_prod (map (fun a => hom (affine a)) (a1 :: rest)))
                    (at_input_coords (last (a1 :: rest) a1)) (at_output_coords a1)))
  /\ (Forall hom_last_row (a1 :: rest) ->
      compose (map Affine (a1 :: rest))
        = Ok (Affine (mkAffineTransform (mat_prod (map affine (a1 :: rest)))
                        (at_input_coords (last (a1 :: rest) a1)) (at_output_coords a1)))).
Proof.
  intros Hwf Hs Hp.
  assert (Hlen : length rest <= 1 \/ Forall inv_fits (map Affine (a1 :: rest)))
    by (destruct Hp as [Hp|Hp]; [left; exact Hp|right; apply affines_inv_fits; assumption]).
  split; [apply compose_affines; assumption|].
  intros Hh. rewrite compose_affines by assumption. do 3 f_equal.
  f_equal. apply map_ext_in. intros a Ha. rewrite Forall_forall in Hwf, Hh.
  apply hom_id; auto.
Qed.

Lemma compose_affine_product_witness :
  Forall wf_affine [mkAffineTransform (diag [qc 2; qc 1]) (mkCS ["i"] "" Float64) (mkCS ["x"] "" Float64);
                    mkAffineTransform (diag [qc 3; qc 1]) (mkCS ["j"] "" Float64) (mkCS ["i"] "" Float64)]
  /\ seams_ok (map Affine
       [mkAffineTransform (diag [qc 2; qc 1]) (mkCS ["i"] "" Float64) (mkCS ["x"] "" Float64);
        mkAffineTransform (diag [qc 3; qc 1]) (mkCS ["j"] "" Float64) (mkCS ["i"] "" Float64)])
  /\ Forall hom_last_row
       [mkAffineTransform (diag [qc 2; qc 1]) (mkCS ["i"] "" Float64) (mkCS ["x"] "" Float64);
        mkAffineTransform (diag [qc 3; qc 1]) (mkCS ["j"] "" Float64) (mkCS ["i"] "" Float64)]
  /\ compose (map Affine
       [mkAffineTransform (diag [qc 2; qc 1]) (mkCS ["i"] "" Float64) (mkCS ["x"] "" Float64);
        mkAffineTransform (diag [qc 3; qc 1]) (mkCS ["j"] "" Float64) (mkCS ["i"] "" Float64)])
     = Ok (Affine (mkAffineTransform
              (mat_prod [diag [qc 2; qc 1]; diag [qc 3; qc 1]])
              (mkCS ["j"] "" Float64) (mkCS ["x"] "" Float64))).
Proof.
  assert (Hw : Forall wf_affine
    [mkAffineTransform (diag [qc 2; qc 1]) (mkCS ["i"] "" Float64) (mkCS ["x"] "" Float64);
     mkAffineTransform (diag [qc 3; qc 1]) (mkCS ["j"] "" Float64) (mkCS ["i"] "" Float64)])
    by (repeat constructor; vm_compute; reflexivity).
  assert (Hs : seams_ok (map Affine
       [mkAffineTransform (diag [qc 2; qc 1]) (mkCS ["i"] "" Float64) (mkCS ["x"] "" Float64);
        mkAffineTransform (diag [qc 3; qc 1]) (mkCS ["j"] "" Float64) (mkCS ["i"] "" Float64)]))
    by (simpl; auto).
  assert (Hh : Forall hom_last_row
       [mkAffineTransform (diag [qc 2; qc 1]) (mkCS ["i"] "" Float64) (mkCS ["x"] "" Float64);
        mkAffineTransform (diag [qc 3; qc 1]) (mkCS ["j"] "" Float64) (mkCS ["i"] "" Float64)])
    by (repeat constructor; vm_compute; reflexivity).
  split; [exact Hw|]. split; [exact Hs|]. split; [exact Hh|].
  exact (proj2 (compose_affine_product _ _ Hw Hs (or_introl (le_n 1))) Hh).
Defined.

Lemma compose_affine_product_cex :
  (wf_affine (mkAffineTransform [[qc 1; qc 0]; [qc 0; qc 2]] (mkCS ["i"] "" Float64) (mkCS ["i"] "" Float64))
   /\ seams_ok [Affine (mkAffineTransform [[qc 1; qc 0]; [qc 0; qc 2]] (mkCS ["i"] "" Float64) (mkCS ["i"] "" Float64));
                Affine (mkAffineTransform [[qc 1; qc 0]; [qc 0; qc 2]] (mkCS ["i"] "" Float64) (mkCS ["i"] "" Float64))]
   /\ compose [Affine (mkAffineTransform [[qc 1; qc 0]; [qc 0; qc 2]] (mkCS ["i"] "" Float64) (mkCS ["i"] "" Float64));
               Affine (mkAffineTransform [[qc 1; qc 0]; [qc 0; qc 2]] (mkCS ["i"] "" Float64) (mkCS ["i"] "" Float64))]
      <> Ok (Affine (mkAffineTransform (mat_prod [[[qc 1; qc 0]; [qc 0; qc 2]]; [[qc 1; qc 0]; [qc 0; qc 2]]])
                       (mkCS ["i"] "" Float64) (mkCS ["i"] "" Float64))))
  /\ (wf_affine (mkAffineTransform [[qc 2; qc 1]; [qc 0; qc 1]] (mkCS ["i"] "" Int64) (mkCS ["i"] "" Int64))
      /\ compose [Affine (mkAffineTransform [[qc 2; qc 1]; [qc 0; qc 1]] (mkCS ["i"] "" Int64) (mkCS ["i"] "" Int64));
                  Affine (mkAffineTransform [[qc 2; qc 1]; [qc 0; qc 1]] (mkCS ["i"] "" Int64) (mkCS ["i"] "" Int64));
                  Affine (mkAffineTransform [[qc 2; qc 1]; [qc 0; qc 1]] (mkCS ["i"] "" Int64) (mkCS ["i"] "" Int64))]
         = Err (ValueError ValuesWrongPrecision)).
Proof.
  split; [split; [unfold wf_affine; repeat split; vm_compute; reflexivity|]|].
  - split; [simpl; auto|].
    intro H.
    apply (f_equal (fun r => match r with
                             | Ok (Affine t) => mat_eqb (affine t) [[qc 1; qc 0]; [qc 0; qc 4]]
                             | _ => false end)) in H.
    vm_compute in H. discriminate.
  - split; [unfold wf_affine; repeat split; vm_compute; reflexivity|]. vm_compute. reflexivity.
Qed.

(** ** Seams *)

Lemma CoordinateMap_new_inv f inc outc inv c :
  CoordinateMap_new f inc outc inv = Ok c -> c = Generic (mkCoordinateMap f inc outc inv).
Proof.
  unfold CoordinateMap_new. destruct (call _ _); cbn [bind]; congruence.
Qed.

Lemma compose_step_inv m acc c :
  compose_step m acc = Ok c ->
  exists c1, acc = Ok c1 /\ input_coords m = output_coords c1
    /\ input_coords c = input_coords c1 /\ output_coords c = output_coords m.
Proof.
  unfold compose_step. destruct acc as [c1|e]; cbn [bind]; [|discriminate].
  destruct (cs_eqb (input_coords m) (output_coords c1)) eqn:E; [|discriminate].
  apply cs_eqb_eq in E. destruct (compose2 m c1) as [fb|e]; cbn [bind]; [|discriminate].
  intros H. apply CoordinateMap_new_inv in H. subst c. exists c1. auto.
Qed.

Lemma fold_compose_ok c0 cs c :
  fold_right compose_step (Ok c0) cs = Ok c ->
  input_coords c = input_coords c0 /\ output_coords c = output_coords (hd c0 cs)
  /\ seams_ok (cs ++ [c0]).
Proof.
  revert c; induction cs as [|m cs IH]; intros c H.
  - simpl in H. injection H as <-. simpl. auto.
  - simpl in H. apply compose_step_inv in H as (c1 & H1 & Hseam & Hin & Hout).
    destruct (IH c1 H1) as (Hin1 & Hout1 & Hs). split; [congruence|]. split; [exact Hout|].
    rewrite Hout1 in Hseam. destruct cs as [|m' cs]; simpl in *; auto.
Qed.

Lemma fold_compose_err cs e : fold_right compose_step (Err e) cs = Err e.
Proof. induction cs as [|m cs IH]; simpl; auto. rewrite IH. reflexivity. Qed.

Lemma AffineTransform_new_names M dt inc outc r :
  AffineTransform_new M dt inc outc = Ok r ->
  coord_names (input_coords r) = coord_names inc /\ coord_names (output_coords r) = coord_names outc.
Proof.
  unfold AffineTransform_new, CoordinateSystem_new.
  destruct (distinctb (coord_names inc)); cbn [bind]; [|discriminate].
  destruct (distinctb (coord_names outc)); cbn [bind]; [|discriminate].
  destruct (_ && _); [|discriminate]. intros H. injection H as <-. auto.
Qed.

Lemma compose_ok_inv cs r :
  compose cs = Ok r ->
  exists l c0, cs = l ++ [c0] /\ seams_ok cs
    /\ coord_names (input_coords r) = coord_names (input_coords c0)
    /\ coord_names (output_coords r) = coord_names (output_coords (hd c0 l)).
Proof.
  intros H. destruct cs as [|c cs']; [discriminate|].
  destruct (exists_last (l := c :: cs') ltac:(discriminate)) as (l & c0 & Heq).
  rewrite Heq in H |- *. rewrite compose_app_last in H.
  destruct (fold_right compose_step (Ok c0) l) as [c1|e] eqn:Ef; cbn [bind] in H; [|discriminate].
  destruct (fold_compose_ok _ _ _ Ef) as (Hin & Hout & Hs).
  exists l, c0. split; [reflexivity|]. split; [exact Hs|].
  destruct (forallb is_affine (l ++ [c0])).
  - destruct (linearize _ _ _ _) as [M|e]; cbn [bind] in H; [|discriminate].
    apply AffineTransform_new_names in H as [H1 H2]. rewrite H1, H2, Hin, Hout. auto.
  - injection H as <-. rewrite Hin, Hout. auto.
Qed.

Lemma compose_mismatch l m c' r' :
  Forall well_behaved (c' :: r') -> seams_ok (c' :: r') ->
  length r' <= 1 \/ Forall inv_fits (c' :: r') ->
  input_coords m <> output_coords c' ->
  compose (l ++ m :: c' :: r')
  = Err (ValueError (InputOutputCoordinatesDoNotMatch
                       (cs_dtype (input_coords m)) (cs_dtype (output_coords c')))).
Proof.
  intros Hwb Hs Hlen Hne.
  destruct (exists_last (l := c' :: r') ltac:(discriminate)) as (init & c0 & Heq).
  assert (Hlen' : length init <= 1 \/ Forall inv_fits (init ++ [c0])).
  { rewrite <- Heq. destruct Hlen as [Hlen|Hlen]; [left|right; exact Hlen].
    apply (f_equal (@length _)) in Heq. rewrite length_app in Heq. simpl in Heq. lia. }
  rewrite Heq in Hwb, Hs. rewrite Heq.
  apply Forall_app in Hwb as [Hwi Hw0]. inversion Hw0 as [|? ? Hw0' _]; subst.
  destruct (compose_fold_ok c0 init Hw0' Hwi Hs Hlen') as (c & Hf & _ & _ & _ & Hout & _).
  assert (Hhd : hd c0 init = c') by (destruct init; simpl in Heq; injection Heq; auto).
  rewrite Hhd in Hout.
  replace (l ++ m :: init ++ [c0]) with ((l ++ m :: init) ++ [c0])
    by (rewrite <- app_assoc; reflexivity).
  rewrite compose_app_last, fold_right_app. cbn [fold_right]. rewrite Hf.
  unfold compose_step at 2. cbn [bind]. rewrite Hout.
  destruct (cs_eqb (input_coords m) (output_coords c')) eqn:E.
  { apply cs_eqb_eq in E. contradiction. }
  rewrite fold_compose_err. reflexivity.
Qed.

(** C5 (corrected): [compose] never succeeds across a mismatched seam: a
    successful [compose] has [cmap_i.input_coords = cmap_{i+1}.output_coords]
    at every seam. At the rightmost mismatched seam, when the operands to
    its right are well-behaved and match among themselves, and either number
    at most two or have inverses that keep values representable at the
    precision ([inv_fits]), [compose] fails
    with a [ValueError] whose message names the two coordinate systems of
    that seam (their axis names and precision). *)
Theorem compose_seam_mismatch :
  (forall cs r, compose cs = Ok r -> seams_ok cs)
  /\ (forall l m c' r',
        Forall well_behaved (c' :: r') -> seams_ok (c' :: r') ->
        length r' <= 1 \/ Forall inv_fits (c' :: r') ->
        input_coords m <> output_coords c' ->
        compose (l ++ m :: c' :: r')
        = Err (ValueError (InputOutputCoordinatesDoNotMatch
                             (cs_dtype (input_coords m)) (cs_dtype (output_coords c'))))).
Proof.
  split.
  - intros cs r H. destruct (compose_ok_inv cs r H) as (_ & _ & _ & Hs & _). exact Hs.
  - apply compose_mismatch.
Qed.

Lemma compose_seam_mismatch_witness :
  Forall well_behaved
    [Affine (mkAffineTransform (identity 2) (mkCS ["j"] "" Float64) (mkCS ["y"] "" Float64))]
  /\ seams_ok [Affine (mkAffineTransform (identity 2) (mkCS ["j"] "" Float64) (mkCS ["y"] "" Float64))]
  /\ input_coords (Affine (mkAffineTransform (identity 2) (mkCS ["i"] "" Float64) (mkCS ["x"] "" Float64)))
     <> output_coords (Affine (mkAffineTransform (identity 2) (mkCS ["j"] "" Float64) (mkCS ["y"] "" Float64)))
  /\ compose ([] ++ [Affine (mkAffineTransform (identity 2) (mkCS ["i"] "" Float64) (mkCS ["x"] "" Float64));
                    Affine (mkAffineTransform (identity 2) (mkCS ["j"] "" Float64) (mkCS ["y"] "" Float64))])
     = Err (ValueError (InputOutputCoordinatesDoNotMatch (["i"], Float64) (["y"], Float64))).
Proof.
  assert (Hw : Forall well_behaved
    [Affine (mkAffineTransform (identity 2) (mkCS ["j"] "" Float64) (mkCS ["y"] "" Float64))])
    by (repeat constructor; vm_compute; reflexivity).
  assert (Hne : input_coords (Affine (mkAffineTransform (identity 2) (mkCS ["i"] "" Float64) (mkCS ["x"] "" Float64)))
     <> output_coords (Affine (mkAffineTransform (identity 2) (mkCS ["j"] "" Float64) (mkCS ["y"] "" Float64))))
    by (simpl; intro H; injection H; intros; discriminate).
  split; [exact Hw|]. split; [simpl; exact I|]. split; [exact Hne|].
  exact (proj2 compose_seam_mismatch [] _ _ [] Hw I (or_introl (le_0_n 1)) Hne).
Defined.

Lemma compose_seam_mismatch_cex :
  input_coords (Affine (mkAffineTransform (identity 2) (mkCS ["a"] "" Float64) (mkCS ["x"] "" Float64)))
  <> output_coords (Affine (mkAffineTransform (identity 2) (mkCS ["b"] "" Float64) (mkCS ["y"] "" Float64)))
  /\ compose [Affine (mkAffineTransform (identity 2) (mkCS ["a"] "" Float64) (mkCS ["x"] "" Float64));
              Affine (mkAffineTransform (identity 2) (mkCS ["b"] "" Float64) (mkCS ["y"] "" Float64));
              Affine (mkAffineTransform (identity 2) (mkCS ["c"] "" Float64) (mkCS ["z"] "" Float64))]
     = Err (ValueError (InputOutputCoordinatesDoNotMatch (["b"], Float64) (["z"], Float64)))
  /\ compose [Affine (mkAffineTransform (identity 2) (mkCS ["a"] "" Float64) (mkCS ["x"] "" Float64));
              Affine (mkAffineTransform (identity 2) (mkCS ["b"] "" Float64) (mkCS ["y"] "" Float64));
              Affine (mkAffineTransform (identity 2) (mkCS ["c"] "" Float64) (mkCS ["z"] "" Float64))]
     <> Err (ValueError (InputOutputCoordinatesDoNotMatch (["a"], Float64) (["y"], Float64)))
  /\ Forall well_behaved
       [Affine (mkAffineTransform [[qc 2; qc 1]; [qc 0; qc 1]] (mkCS ["i"] "" Int64) (mkCS ["i"] "" Int64));
        Affine (mkAffineTransform [[qc 2; qc 1]; [qc 0; qc 1]] (mkCS ["i"] "" Int64) (mkCS ["i"] "" Int64));
        Affine (mkAffineTransform [[qc 2; qc 1]; [qc 0; qc 1]] (mkCS ["i"] "" Int64) (mkCS ["i"] "" Int64))]
  /\ seams_ok
       [Affine (mkAffineTransform [[qc 2; qc 1]; [qc 0; qc 1]] (mkCS ["i"] "" Int64) (mkCS ["i"] "" Int64));
        Affine (mkAffineTransform [[qc 2; qc 1]; [qc 0; qc 1]] (mkCS ["i"] "" Int64) (mkCS ["i"] "" Int64));
        Affine (mkAffineTransform [[qc 2; qc 1]; [qc 0; qc 1]] (mkCS ["i"] "" Int64) (mkCS ["i"] "" Int64))]
  /\ input_coords (Affine (mkAffineTransform (identity 2) (mkCS ["a"] "" Int64) (mkCS ["x"] "" Int64)))
     <> output_coords (Affine (mkAffineTransform [[qc 2; qc 1]; [qc 0; qc 1]] (mkCS ["i"] "" Int64) (mkCS ["i"] "" Int64)))
  /\ compose [Affine (mkAffineTransform (identity 2) (mkCS ["a"] "" Int64) (mkCS ["x"] "" Int64));
              Affine (mkAffineTransform [[qc 2; qc 1]; [qc 0; qc 1]] (mkCS ["i"] "" Int64) (mkCS ["i"] "" Int64));
              Affine (mkAffineTransform [[qc 2; qc 1]; [qc 0; qc 1]] (mkCS ["i"] "" Int64) (mkCS ["i"] "" Int64));
              Affine (mkAffineTransform [[qc 2; qc 1]; [qc 0; qc 1]] (mkCS ["i"] "" Int64) (mkCS ["i"] "" Int64))]
     = Err (ValueError ValuesWrongPrecision).
Proof.
  assert (H : compose [Affine (mkAffineTransform (identity 2) (mkCS ["a"] "" Float64) (mkCS ["x"] "" Float64));
              Affine (mkAffineTransform (identity 2) (mkCS ["b"] "" Float64) (mkCS ["y"] "" Float64));
              Affine (mkAffineTransform (identity 2) (mkCS ["c"] "" Float64) (mkCS ["z"] "" Float64))]
     = Err (ValueError (InputOutputCoordinatesDoNotMatch (["b"], Float64) (["z"], Float64))))
    by (vm_compute; reflexivity).
  split; [simpl; intro E; injection E; intros; discriminate|].
  split; [exact H|]. split; [rewrite H; intro E; injection E; intros; discriminate|].
  split; [repeat constructor; vm_compute; reflexivity|].
  split; [simpl; auto|]. split; [simpl; intro E; injection E; intros; discriminate|].
  vm_compute. reflexivity.
Qed.

(** ** Composition of well-behaved transforms *)

Lemma forallb_is_affine_inv cs : forallb is_affine cs = true -> exists ats, cs = map Affine ats.
Proof.
  induction cs as [|c cs IH]; simpl; [exists []; reflexivity|].
  destruct c as [g|a]; simpl; [discriminate|]. intros H. destruct (IH H) as (ats & ->).
  exists (a :: ats). reflexivity.
Qed.

Lemma map_Affine_inj_wf ats :
  Forall well_behaved (map Affine ats) -> Forall wf_affine ats.
Proof.
  induction ats as [|a ats IH]; intros H; constructor; inversion H; subst; auto.
Qed.

Lemma last_map' {A B : Type} (f : A -> B) (l : list A) d : last (map f l) (f d) = f (last l d).
Proof.
  induction l as [|x l IH]; simpl; auto. destruct l as [|y l]; simpl in *; auto.
Qed.

Lemma compose_wb c1 rest :
  Forall well_behaved (c1 :: rest) -> seams_ok (c1 :: rest) ->
  length rest <= 1 \/ Forall inv_fits (c1 :: rest) ->
  exists r, compose (c1 :: rest) = Ok r
    /\ (forallb is_affine (c1 :: rest) = true \/ Forall inv_fits (c1 :: rest) -> well_behaved r)
    /\ input_coords r = input_coords (last (c1 :: rest) c1)
    /\ output_coords r = output_coords c1.
Proof.
  intros Hwb Hs Hlen. destruct (forallb is_affine (c1 :: rest)) eqn:Ea.
  - destruct (forallb_is_affine_inv _ Ea) as ([|a1 ats] & Hats); [discriminate|].
    simpl in Hats. injection Hats as -> ->.
    change (Affine a1 :: map Affine ats) with (map Affine (a1 :: ats)) in *.
    apply map_Affine_inj_wf in Hwb. rewrite length_map in Hlen.
    destruct (chain_affines a1 ats Hwb Hs) as (A & b & Hp & HA & HlA & Hlb & _).
    pose proof (dtype_chain a1 ats Hwb Hs) as Hd.
    pose proof (dtype_all a1 ats Hwb Hs) as Hall.
    assert (Hfits : mat_fits (coord_dtype (at_output_coords a1))
                      (mat_prod (map (fun a => hom (affine a)) (a1 :: ats))) = true).
    { apply mat_fits_mat_prod. apply Forall_map. rewrite Forall_forall in Hwb, Hall |- *.
      intros a Ha. apply mat_fits_hom. rewrite <- (Hall a Ha).
      destruct (Hwb a Ha) as (_ & _ & _ & _ & _ & Hf). exact Hf. }
    rewrite compose_affines by assumption. eexists. split; [reflexivity|].
    replace (last (map Affine (a1 :: ats)) (Affine a1)) with (Affine (last (a1 :: ats) a1))
      by (symmetry; apply last_map').
    cbn [input_coords output_coords well_behaved]. split; [intros _|auto].
    destruct (exists_last (l := a1 :: ats) ltac:(discriminate)) as (l & a0 & Heq).
    assert (Hlast : last (a1 :: ats) a1 = a0) by (rewrite Heq; apply last_last).
    rewrite Hlast in *.
    assert (Hw0 : wf_affine a0)
      by (rewrite Forall_forall in Hwb; apply Hwb; rewrite Heq; apply in_or_app; right; left; auto).
    inversion Hwb as [|? ? Hw1 _]; subst.
    unfold wf_affine. cbn [affine at_input_coords at_output_coords]. rewrite Hd.
    split; [rewrite Hp, length_hom_of by lia; lia|].
    split; [rewrite Hp; apply rows_have_hom_of, HA|].
    split; [apply Hw0|]. split; [apply Hw1|]. split; [reflexivity|]. exact Hfits.
  - destruct (exists_last (l := c1 :: rest) ltac:(discriminate)) as (l & c0 & Heq).
    assert (Hlen' : length l <= 1 \/ Forall inv_fits (l ++ [c0])).
    { rewrite <- Heq. destruct Hlen as [Hlen|Hlen]; [left|right; exact Hlen].
      apply (f_equal (@length _)) in Heq. rewrite length_app in Heq. simpl in Heq. lia. }
    rewrite Heq in Hwb, Hs, Ea |- *.
    apply Forall_app in Hwb as [Hwl Hw0]. inversion Hw0 as [|? ? Hw0' _]; subst.
    destruct (compose_fold_ok c0 l Hw0' Hwl Hs Hlen') as (c & Hf & _ & Hc & Hin & Hout & _).
    rewrite compose_app_last, Hf. cbn [bind]. rewrite Ea.
    exists c. split; [reflexivity|]. split; [intros [H|H]; [discriminate|exact (Hc H)]|].
    rewrite last_last. split; [exact Hin|].
    rewrite Hout. destruct l as [|a l]; simpl in Heq |- *; injection Heq as E1 E2; congruence.
Qed.

(** ** Axis names *)

Lemma distinctb_NoDup l : distinctb l = true <-> NoDup l.
Proof.
  induction l as [|x l IH]; simpl; [split; auto using NoDup_nil|].
  rewrite andb_true_iff, negb_true_iff, IH. split.
  - intros [H1 H2]. constructor; auto. intro Hin.
    assert (existsb (String.eqb x) l = true) by (apply existsb_exists; exists x; split; auto using String.eqb_refl).
    congruence.
  - intros H. inversion H as [|? ? Hn Hd]; subst. split; auto.
    destruct (existsb (String.eqb x) l) eqn:E; auto.
    apply existsb_exists in E as (y & Hy & Exy). apply String.eqb_eq in Exy. subst. contradiction.
Qed.

Lemma distinctb_rev l : distinctb (rev l) = distinctb l.
Proof.
  destruct (distinctb l) eqn:E.
  - apply distinctb_NoDup. apply NoDup_rev. apply distinctb_NoDup. exact E.
  - destruct (distinctb (rev l)) eqn:E'; auto. apply distinctb_NoDup in E'.
    apply NoDup_rev in E'. rewrite rev_involutive in E'. apply distinctb_NoDup in E'. congruence.
Qed.

Lemma mapM_nth_name_rev l :
  mapM (nth_name l) (rev (seq 0 (length l))) = Ok (rev l).
Proof.
  rewrite mapM_map_ok with (g := fun i => nth i l ""%string).
  - rewrite map_rev, map_nth_seq. reflexivity.
  - intros i Hi. apply in_rev in Hi. apply in_seq in Hi. unfold nth_name.
    destruct (nth_error l i) eqn:E.
    + rewrite (nth_error_nth l i ""%string E). reflexivity.
    + apply nth_error_None in E. lia.
Qed.

Lemma mapM_length {A B : Type} (f : A -> result B) l l' : mapM f l = Ok l' -> length l' = length l.
Proof.
  revert l'; induction l as [|a l IH]; intros l' H; simpl in H.
  - injection H as <-. reflexivity.
  - destruct (f a) as [b|e]; cbn [bind] in H; [|discriminate].
    destruct (mapM f l) as [bs|e]; cbn [bind] in H; [|discriminate].
    injection H as <-. simpl. f_equal. apply IH. reflexivity.
Qed.

Lemma rows_have_perm_matrix n order : rows_have (n + 1) (perm_matrix n order) = true.
Proof.
  apply rows_have_spec. intros r Hr. unfold perm_matrix in Hr. apply in_map_iff in Hr as (i & <- & _).
  rewrite length_map, length_seq. lia.
Qed.

Lemma length_perm_matrix n order : length (perm_matrix n order) = n + 1.
Proof. unfold perm_matrix. rewrite length_map, length_seq. lia. Qed.

Lemma vadd_zeros_r y n : length y = n -> vadd y (zeros n) = y.
Proof.
  intros <-. unfold vadd, zeros. induction y as [|a y IH]; simpl; auto.
  f_equal; [apply Qcplus_0_r|exact IH].
Qed.

Lemma nth_error_rev_seq n col : col < n -> nth_error (rev (seq 0 n)) col = Some (n - 1 - col).
Proof.
  intros H. rewrite (nth_error_nth' _ 0) by (rewrite length_rev, length_seq; exact H).
  rewrite rev_nth by (rewrite length_seq; exact H). rewrite length_seq, seq_nth by lia.
  f_equal. lia.
Qed.

Lemma perm_matrix_rev n :
  perm_matrix n (rev (seq 0 n))
  = hom_of (map (fun r => unit_vec n (n - 1 - r)) (seq 0 n)) (zeros n) n.
Proof.
  unfold perm_matrix, hom_of. rewrite seq_S, map_app. cbn [map].
  unfold zeros at 1. rewrite zipWith_map_repeat_n by apply length_seq.
  f_equal.
  - apply map_ext_in. intros r Hr. apply in_seq in Hr. rewrite map_app. cbn [map].
    replace (Nat.eqb r n) with false by (symmetry; apply Nat.eqb_neq; lia). cbn [andb].
    replace (nth_error (rev (seq 0 n)) (0 + n)) with (@None nat)
      by (symmetry; apply nth_error_None; rewrite length_rev, length_seq; lia).
    f_equal. unfold unit_vec. apply map_ext_in. intros col Hc. apply in_seq in Hc.
    rewrite nth_error_rev_seq by lia.
    destruct (Nat.eqb_spec (n - 1 - col) r), (Nat.eqb_spec col (n - 1 - r)); auto; lia.
  - rewrite map_app. cbn [map].
    replace (Nat.eqb (0 + n) n) with true by (symmetry; apply Nat.eqb_eq; lia). cbn [andb].
    f_equal. unfold zeros. rewrite (repeat_as_map _ 0 n). f_equal. apply map_ext_in.
    intros col Hc. apply in_seq in Hc.
    replace (Nat.eqb col n) with false by (symmetry; apply Nat.eqb_neq; lia).
    rewrite nth_error_rev_seq by lia.
    replace (Nat.eqb (n - 1 - col) (0 + n)) with false by (symmetry; apply Nat.eqb_neq; lia).
    reflexivity.
Qed.

Lemma affine_function_perm_rev n x :
  length x = n -> affine_function (perm_matrix n (rev (seq 0 n))) x = Ok (rev x).
Proof.
  intros Hx. rewrite perm_matrix_rev.
  rewrite affine_function_hom_of by (rewrite length_map, length_seq, length_zeros; reflexivity).
  rewrite vadd_zeros_r by (rewrite length_mat_vec, length_map, length_seq; reflexivity).
  f_equal. unfold mat_vec. rewrite map_map.
  rewrite <- (map_nth_seq (rev x) 0%Qc). rewrite length_rev, Hx.
  apply map_ext_in. intros r Hr. apply in_seq in Hr.
  rewrite dot_comm, dot_unit_vec by lia. rewrite rev_nth by lia. f_equal. lia.
Qed.

Lemma AffineTransform_new_function M dt inc outc r :
  AffineTransform_new M dt inc outc = Ok r -> function r = affine_function M.
Proof.
  unfold AffineTransform_new. destruct (CoordinateSystem_new _ _ _); cbn [bind]; [|discriminate].
  destruct (CoordinateSystem_new _ _ _); cbn [bind]; [|discriminate].
  destruct (_ && _); [|discriminate]. intros H. injection H as <-. reflexivity.
Qed.

Lemma removelast_map_comm {A B : Type} (f : A -> B) l :
  removelast (map f l) = map f (removelast l).
Proof.
  induction l as [|a l IH]; [reflexivity|]. destruct l as [|b l]; [reflexivity|].
  change (removelast (map f (a :: b :: l))) with (f a :: removelast (map f (b :: l))).
  change (removelast (a :: b :: l)) with (a :: removelast (b :: l)). rewrite IH. reflexivity.
Qed.

Lemma dot_snoc_one r x :
  length r = S (length x) -> dot r (x ++ [1%Qc]) = (dot (removelast r) x + last r 0%Qc)%Qc.
Proof.
  intros Hr. assert (Hne : r <> []) by (intro E; rewrite E in Hr; discriminate).
  rewrite (app_removelast_last (l := r) 0%Qc Hne) at 1.
  rewrite dot_app by (rewrite length_removelast; lia). rewrite dot_single_one. reflexivity.
Qed.

Lemma affine_function_mat_vec B n x :
  rows_have (S n) B = true -> length x = n ->
  affine_function B x = Ok (removelast (mat_vec B (x ++ [1%Qc]))).
Proof.
  intros HB Hx. rewrite affine_function_tmv. f_equal. unfold to_matrix_vector. cbn [fst snd].
  unfold mat_vec. rewrite removelast_map_comm.
  assert (HR : forall r, In r (removelast B) -> length r = S n).
  { intros r Hr. apply in_removelast in Hr. rewrite rows_have_spec in HB. apply HB, Hr. }
  unfold vadd. revert HR. generalize (removelast B) as R.
  induction R as [|r R IH]; intros HR; [reflexivity|]. cbn [map zipWith].
  rewrite dot_snoc_one by (rewrite (HR r (or_introl eq_refl)); lia). f_equal.
  apply IH. intros r' Hr'. apply HR. right. exact Hr'.
Qed.

Lemma linalg_inv_unique_vec M B P :
  linalg_inv M = Some B -> length P = length M -> rows_have (length M) P = true ->
  (forall w, length w = length M -> mat_vec M (mat_vec P w) = w) ->
  forall w, length w = length M -> mat_vec B w = mat_vec P w.
Proof.
  intros HB HPl HPr HMP w Hw.
  destruct (linalg_inv_some _ _ HB) as (HMr & HBl & HBr & HBM & _).
  assert (HPw : length (mat_vec P w) = length M) by (rewrite length_mat_vec; exact HPl).
  destruct M as [|r0 M'].
  - destruct B; [|discriminate]. destruct P; [|discriminate]. reflexivity.
  - transitivity (mat_vec (identity (length (r0 :: M'))) (mat_vec P w));
      [|apply mat_vec_identity, HPw].
    rewrite <- HBM.
    rewrite (mat_vec_mat_mul (length (r0 :: M')) B (r0 :: M') (mat_vec P w)); try assumption.
    + rewrite HMP by exact Hw. reflexivity.
    + apply ncols_rows_have; [discriminate|exact HMr].
Qed.

Lemma mat_vec_hom_of_zeros A m n x t :
  rows_have n A = true -> length A = m -> length x = n ->
  mat_vec (hom_of A (zeros m) n) (x ++ [t]) = mat_vec A x ++ [t].
Proof.
  intros HA Hm Hx. unfold hom_of, mat_vec. rewrite map_app. cbn [map]. f_equal.
  - subst m. induction A as [|r A IH]; [reflexivity|]. simpl in HA.
    apply andb_prop in HA as [Hr HA]. apply Nat.eqb_eq in Hr.
    change (zeros (length (r :: A))) with (0%Qc :: zeros (length A)). cbn [zipWith map].
    f_equal; [|apply IH, HA]. rewrite dot_app by lia. unfold dot at 2. simpl. ring.
  - f_equal. rewrite dot_app by (rewrite length_zeros; lia). rewrite dot_zeros_l.
    unfold dot. simpl. ring.
Qed.

Lemma mat_vec_perm_rev n x t :
  length x = n -> mat_vec (perm_matrix n (rev (seq 0 n))) (x ++ [t]) = rev x ++ [t].
Proof.
  intros Hx. pose proof (affine_function_perm_rev n x Hx) as H.
  rewrite perm_matrix_rev in H |- *.
  rewrite affine_function_hom_of in H by (rewrite length_map, length_seq, length_zeros; reflexivity).
  rewrite vadd_zeros_r in H by (rewrite length_mat_vec, length_map, length_seq; reflexivity).
  injection H as H. rewrite mat_vec_hom_of_zeros with (m := n); [rewrite H; reflexivity| | |exact Hx].
  - apply rows_have_spec. intros r Hr. apply in_map_iff in Hr as (i & <- & _). apply length_unit_vec.
  - rewrite length_map, length_seq. reflexivity.
Qed.

Lemma perm_rev_involutive n w :
  length w = S n ->
  mat_vec (perm_matrix n (rev (seq 0 n))) (mat_vec (perm_matrix n (rev (seq 0 n))) w) = w.
Proof.
  intros Hw. assert (Hne : w <> []) by (intro E; rewrite E in Hw; discriminate).
  assert (Hl : length (removelast w) = n) by (rewrite length_removelast; lia).
  rewrite (app_removelast_last (l := w) 0%Qc Hne).
  rewrite mat_vec_perm_rev by exact Hl. rewrite mat_vec_perm_rev by (rewrite length_rev; exact Hl).
  rewrite rev_involutive. reflexivity.
Qed.

Lemma vec_fits_perm_rev_inv d n B x y :
  linalg_inv (perm_matrix n (rev (seq 0 n))) = Some B -> length x = n -> vec_fits d x = true ->
  affine_function B x = Ok y -> vec_fits d y = true.
Proof.
  intros HB Hx Hfx E.
  destruct (linalg_inv_some _ _ HB) as (_ & _ & HBr & _).
  rewrite length_perm_matrix, Nat.add_1_r in HBr.
  rewrite (affine_function_mat_vec B n x HBr Hx) in E. injection E as <-.
  rewrite (linalg_inv_unique_vec _ B _ HB eq_refl).
  - apply vec_fits_removelast, vec_fits_mat_vec; [apply mat_fits_perm_matrix|].
    rewrite vec_fits_app, Hfx. simpl. rewrite fits_one. reflexivity.
  - rewrite length_perm_matrix. apply rows_have_perm_matrix.
  - intros w Hw. rewrite length_perm_matrix, Nat.add_1_r in Hw. apply perm_rev_involutive, Hw.
  - rewrite length_app, length_perm_matrix, Hx. reflexivity.
Qed.

Lemma inv_fits_perm_rev a n :
  affine a = perm_matrix n (rev (seq 0 n)) -> ndim (at_output_coords a) = n ->
  coord_dtype (at_input_coords a) = coord_dtype (at_output_coords a) -> inv_fits (Affine a).
Proof.
  intros HP Hn Hd i Hi. unfold inverse in Hi. rewrite HP in Hi.
  destruct (linalg_inv (perm_matrix n (rev (seq 0 n)))) as [B|] eqn:HB; [|discriminate].
  destruct (AffineTransform_new _ _ _ _) as [r|e] eqn:Er; cbn [bind] in Hi; [|discriminate].
  injection Hi as <-. rewrite (AffineTransform_new_function _ _ _ _ _ Er).
  intros x y Hx Hfx E. cbn [output_coords input_coords] in *. rewrite Hn in Hx.
  rewrite <- Hd in Hfx. exact (vec_fits_perm_rev_inv _ n B x y HB Hx Hfx E).
Qed.

(** ** [reordered_input] *)

Lemma reordered_perm_ok (c : cmap) name :
  distinctb (coord_names (input_coords c)) = true ->
  let inc := input_coords c in
  let name' := if String.eqb name "" then cs_name inc else name in
  let newinc := mkCS (rev (coord_names inc)) name' (coord_dtype inc) in
  reordered_input c None name
  = compose [c; Affine (mkAffineTransform (perm_matrix (ndim inc) (rev (seq 0 (ndim inc))))
                          newinc inc)]
  /\ wf_affine (mkAffineTransform (perm_matrix (ndim inc) (rev (seq 0 (ndim inc)))) newinc inc).
Proof.
  intros Hd inc name' newinc. subst inc name' newinc.
  assert (Hnd : distinctb (rev (coord_names (input_coords c))) = true)
    by (rewrite distinctb_rev; exact Hd).
  split.
  - unfold reordered_input, ndims. cbn [fst resolve_order bind].
    unfold ndim. rewrite mapM_nth_name_rev. cbn [bind].
    unfold CoordinateSystem_new at 1. rewrite Hnd. cbn [bind].
    unfold AffineTransform_new, safe_dtype. cbn [fold_right coord_dtype coord_names cs_name].
    rewrite safe_dtype_same3.
    unfold CoordinateSystem_new at 1. rewrite Hnd. cbn [bind].
    rewrite CoordinateSystem_new_self by exact Hd. cbn [bind coord_names].
    rewrite length_perm_matrix, Nat.eqb_refl. unfold ndim. cbn [coord_names]. rewrite length_rev.
    rewrite rows_have_perm_matrix. reflexivity.
  - unfold wf_affine, ndim. cbn [affine at_input_coords at_output_coords coord_names coord_dtype].
    rewrite length_rev, length_perm_matrix. split; [reflexivity|].
    split; [apply rows_have_perm_matrix|]. split; [exact Hnd|]. split; [exact Hd|].
    split; [reflexivity|]. apply mat_fits_perm_matrix.
Qed.

Lemma reordered_none_wb (c : cmap) name :
  well_behaved c -> distinctb (coord_names (input_coords c)) = true ->
  exists r, reordered_input c None name = Ok r /\ well_behaved r
    /\ coord_names (input_coords r) = rev (coord_names (input_coords c))
    /\ output_coords r = output_coords c.
Proof.
  intros Hc Hd. destruct (reordered_perm_ok c name Hd) as (-> & Hwf).
  destruct (compose_wb c [Affine (mkAffineTransform
       (perm_matrix (ndim (input_coords c)) (rev (seq 0 (ndim (input_coords c)))))
       (mkCS (rev (coord_names (input_coords c)))
          (if String.eqb name "" then cs_name (input_coords c) else name)
          (coord_dtype (input_coords c))) (input_coords c))])
    as (r & Hr & Hwb & Hin & Hout).
  - constructor; [exact Hc|constructor; [exact Hwf|constructor]].
  - simpl. auto.
  - left. simpl. lia.
  - exists r. split; [exact Hr|]. split; [|split; [rewrite Hin; reflexivity|exact Hout]].
    apply Hwb. destruct c as [g|a]; [right|left; reflexivity].
    constructor; [apply wb_inv_fits_generic, Hc|constructor; [|constructor]].
    apply inv_fits_perm_rev with (n := ndim (cm_input_coords g)); reflexivity.
Qed.

Lemma reordered_none_names (c r : cmap) name :
  reordered_input c None name = Ok r ->
  coord_names (input_coords r) = rev (coord_names (input_coords c)).
Proof.
  unfold reordered_input. unfold ndims. cbn [fst resolve_order bind].
  unfold ndim at 2. rewrite mapM_nth_name_rev. cbn [bind].
  destruct (CoordinateSystem_new _ _ _) as [newinc|e] eqn:E1; cbn [bind]; [|discriminate].
  destruct (AffineTransform_new _ _ _ _) as [A|e] eqn:E2; cbn [bind]; [|discriminate].
  intros H. destruct (compose_ok_inv _ _ H) as (l & c0 & Heq & _ & Hin & _).
  assert (HA : A = c0) by (apply (app_inj_tail [c] l A c0); exact Heq).
  subst c0. rewrite Hin. apply AffineTransform_new_names in E2 as [-> _].
  unfold CoordinateSystem_new in E1. destruct (distinctb _); [|discriminate].
  injection E1 as <-. reflexivity.
Qed.

(** C8: reversing the input axes of a transform twice ([order] omitted)
    restores the input axis names, and does succeed on a well-behaved
    transform with distinct input axis names. The omitted order is the
    sequence of positions [ndim - 1, ..., 0]; a nonempty sequence of axis
    names is the sequence of their positions. *)
Theorem reordered_input_spec :
  (forall c n1 n2 c1 c2,
      reordered_input c None n1 = Ok c1 -> reordered_input c1 None n2 = Ok c2 ->
      coord_names (input_coords c2) = coord_names (input_coords c))
  /\ (forall c n1 n2,
      well_behaved c -> distinctb (coord_names (input_coords c)) = true ->
      exists c1 c2, reordered_input c None n1 = Ok c1 /\ reordered_input c1 None n2 = Ok c2
        /\ coord_names (input_coords c2) = coord_names (input_coords c))
  /\ (forall c name,
      0 < ndim (input_coords c) ->
      reordered_input c None name
      = reordered_input c (Some (ByPositions (rev (seq 0 (ndim (input_coords c)))))) name)
  /\ (forall c ns ps name,
      ns <> [] -> mapM (cs_index (input_coords c)) ns = Ok ps ->
      reordered_input c (Some (ByNames ns)) name = reordered_input c (Some (ByPositions ps)) name).
Proof.
  split; [|split; [|split]].
  - intros c n1 n2 c1 c2 H1 H2.
    rewrite (reordered_none_names _ _ _ H2), (reordered_none_names _ _ _ H1). apply rev_involutive.
  - intros c n1 n2 Hc Hd.
    destruct (reordered_none_wb c n1 Hc Hd) as (c1 & H1 & Hc1 & Hn1 & _).
    assert (Hd1 : distinctb (coord_names (input_coords c1)) = true)
      by (rewrite Hn1, distinctb_rev; exact Hd).
    destruct (reordered_none_wb c1 n2 Hc1 Hd1) as (c2 & H2 & _ & Hn2 & _).
    exists c1, c2. split; [exact H1|]. split; [exact H2|]. rewrite Hn2, Hn1. apply rev_involutive.
  - intros c name Hn. unfold reordered_input. cbv zeta. unfold resolve_order.
    destruct (rev (seq 0 (ndim (input_coords c)))) as [|p ps] eqn:E; [|reflexivity].
    apply (f_equal (@length nat)) in E. rewrite length_rev, length_seq in E. simpl in E. lia.
  - intros c ns ps name Hns Hm. unfold reordered_input. cbv zeta. unfold resolve_order.
    destruct ns as [|s ns]; [congruence|]. rewrite Hm.
    destruct ps as [|p ps]; [apply mapM_length in Hm; discriminate|]. reflexivity.
Qed.

Lemma reordered_input_spec_witness :
  well_behaved (Affine (mkAffineTransform (identity 3) (mkCS ["i"; "j"] "" Float64)
                                         (mkCS ["x"; "y"] "" Float64)))
  /\ distinctb ["i"; "j"] = true
  /\ (exists c1 c2,
        reordered_input (Affine (mkAffineTransform (identity 3) (mkCS ["i"; "j"] "" Float64)
                                                   (mkCS ["x"; "y"] "" Float64))) None "" = Ok c1
        /\ reordered_input c1 None "" = Ok c2 /\ coord_names (input_coords c2) = ["i"; "j"])
  /\ reordered_input (Affine (mkAffineTransform (identity 3) (mkCS ["i"; "j"] "" Float64)
                                                (mkCS ["x"; "y"] "" Float64))) (Some (ByNames ["j"; "i"])) ""
     = reordered_input (Affine (mkAffineTransform (identity 3) (mkCS ["i"; "j"] "" Float64)
                                                (mkCS ["x"; "y"] "" Float64))) (Some (ByPositions [1; 0])) "".
Proof.
  assert (Hw : well_behaved (Affine (mkAffineTransform (identity 3) (mkCS ["i"; "j"] "" Float64)
                                                      (mkCS ["x"; "y"] "" Float64))))
    by (unfold well_behaved, wf_affine; repeat split; vm_compute; reflexivity).
  assert (Hd : distinctb ["i"; "j"] = true) by reflexivity.
  split; [exact Hw|]. split; [exact Hd|]. split.
  - exact (proj1 (proj2 reordered_input_spec) _ "" "" Hw Hd).
  - apply (proj2 (proj2 (proj2 reordered_input_spec))); [discriminate|reflexivity].
Defined.

(** ** [renamed_input] *)

Lemma existsb_eqb_In k names : existsb (String.eqb k) names = true <-> In k names.
Proof.
  rewrite existsb_exists. split.
  - intros (y & Hy & E). apply String.eqb_eq in E. subst. exact Hy.
  - intros H. exists k. split; [exact H|apply String.eqb_refl].
Qed.

Lemma check_keys_ok names keys :
  (forall k, In k keys -> In k names) -> check_keys names keys = Ok tt.
Proof.
  induction keys as [|k ks IH]; intros H; simpl; [reflexivity|].
  replace (existsb (String.eqb k) names) with true
    by (symmetry; apply existsb_eqb_In, H; left; reflexivity).
  apply IH. intros k' Hk'. apply H. right. exact Hk'.
Qed.

Lemma check_keys_err names keys :
  (exists k, In k keys /\ ~ In k names) ->
  exists k, In k keys /\ ~ In k names
    /\ check_keys names keys = Err (ValueError (NoInputCoordinateNamed k)).
Proof.
  induction keys as [|k ks IH]; intros (k0 & Hin & Hn); [destruct Hin|].
  simpl. destruct (existsb (String.eqb k) names) eqn:E.
  - destruct IH as (k1 & H1 & H2 & H3).
    + destruct Hin as [<-|Hin]; [apply existsb_eqb_In in E; contradiction|]. eauto.
    + exists k1. auto.
  - exists k. split; [left; reflexivity|]. split; [|reflexivity].
    intro H. apply existsb_eqb_In in H. congruence.
Qed.

Lemma safe_dtype_float_not_int dt :
  dt <> Int64 -> dtype_lub Float64 (dtype_lub dt (dtype_lub dt Int64)) = dt.
Proof. destruct dt; auto; congruence. Qed.

Lemma renamed_wb c m name :
  well_behaved c -> distinctb (coord_names (input_coords c)) = true ->
  (forall k, In k (map fst m) -> In k (coord_names (input_coords c))) ->
  distinctb (map (fun n => match lookup n m with Some v => v | None => n end)
                 (coord_names (input_coords c))) = true ->
  coord_dtype (input_coords c) <> Int64 ->
  exists r, renamed_input c m name = Ok r
    /\ coord_names (input_coords r)
       = map (fun n => match lookup n m with Some v => v | None => n end)
             (coord_names (input_coords c)).
Proof.
  intros Hc Hd Hk Hnd Hdt. unfold renamed_input. cbv zeta.
  rewrite check_keys_ok by exact Hk. cbn [bind].
  unfold CoordinateSystem_new at 1. rewrite Hnd. cbn [bind].
  unfold AffineTransform_new, safe_dtype. cbn [fold_right coord_dtype coord_names cs_name].
  rewrite safe_dtype_float_not_int by exact Hdt.
  unfold CoordinateSystem_new at 1. rewrite Hnd. cbn [bind].
  rewrite CoordinateSystem_new_self by exact Hd. cbn [bind].
  unfold ndims, ndim. cbn [fst coord_names]. rewrite length_identity, length_map.
  replace (Nat.eqb (S (length (coord_names (input_coords c))))
                   (length (coord_names (input_coords c)) + 1)) with true
    by (symmetry; apply Nat.eqb_eq; lia).
  replace (length (coord_names (input_coords c)) + 1)
    with (S (length (coord_names (input_coords c)))) by lia.
  rewrite rows_have_identity. cbn [andb].
  set (newinc := mkCS _ _ (coord_dtype (input_coords c))).
  assert (Hwf : wf_affine (mkAffineTransform (identity (S (length (coord_names (input_coords c)))))
                             newinc (input_coords c))).
  { unfold wf_affine, ndim. cbn [affine at_input_coords at_output_coords]. unfold newinc.
    cbn [coord_names coord_dtype]. rewrite length_identity, length_map.
    split; [lia|]. split; [replace (length (coord_names (input_coords c)) + 1)
                            with (S (length (coord_names (input_coords c)))) by lia;
                          apply rows_have_identity|].
    split; [exact Hnd|]. split; [exact Hd|]. split; [reflexivity|]. apply mat_fits_identity. }
  destruct (compose_wb c [Affine (mkAffineTransform (identity (S (length (coord_names (input_coords c)))))
                             newinc (input_coords c))]) as (r & Hr & _ & Hin & _).
  - constructor; [exact Hc|constructor; [exact Hwf|constructor]].
  - simpl. auto.
  - left. simpl. lia.
  - exists r. split; [exact Hr|]. rewrite Hin. reflexivity.
Qed.

(** C7 (corrected): [renamed_input] raises a [ValueError] naming a key of
    the mapping that is not an input axis name whenever there is one. When
    every key is an input axis name, the transform is well-behaved, the
    renamed axis names are distinct and the input precision is not an
    integer one, it returns a transform whose input axes are the original
    ones in order, each mapped name substituted in place. *)
Theorem renamed_input_spec :
  (forall c m name k,
      In k (map fst m) -> ~ In k (coord_names (input_coords c)) ->
      exists k', In k' (map fst m) /\ ~ In k' (coord_names (input_coords c))
        /\ renamed_input c m name = Err (ValueError (NoInputCoordinateNamed k')))
  /\ (forall c m name,
      well_behaved c -> distinctb (coord_names (input_coords c)) = true ->
      (forall k, In k (map fst m) -> In k (coord_names (input_coords c))) ->
      distinctb (map (fun n => match lookup n m with Some v => v | None => n end)
                     (coord_names (input_coords c))) = true ->
      coord_dtype (input_coords c) <> Int64 ->
      exists r, renamed_input c m name = Ok r
        /\ coord_names (input_coords r)
           = map (fun n => match lookup n m with Some v => v | None => n end)
                 (coord_names (input_coords c))).
Proof.
  split.
  - intros c m name k Hk Hn.
    destruct (check_keys_err (coord_names (input_coords c)) (map fst m)) as (k' & H1 & H2 & H3);
      [exists k; auto|].
    exists k'. split; [exact H1|]. split; [exact H2|].
    unfold renamed_input. cbv zeta. rewrite H3. reflexivity.
  - intros c m name. apply renamed_wb.
Qed.

Lemma renamed_input_spec_witness :
  (In "l" (map fst [("i", "phase"); ("l", "slice")])
   /\ ~ In "l" (coord_names (input_coords
         (Affine (mkAffineTransform (identity 3) (mkCS ["i"; "j"] "" Float64) (mkCS ["x"; "y"] "" Float64)))))
   /\ exists k', In k' (map fst [("i", "phase"); ("l", "slice")])
      /\ ~ In k' (coord_names (input_coords
           (Affine (mkAffineTransform (identity 3) (mkCS ["i"; "j"] "" Float64) (mkCS ["x"; "y"] "" Float64)))))
      /\ renamed_input (Affine (mkAffineTransform (identity 3) (mkCS ["i"; "j"] "" Float64)
                                                 (mkCS ["x"; "y"] "" Float64)))
           [("i", "phase"); ("l", "slice")] "" = Err (ValueError (NoInputCoordinateNamed k')))
  /\ exists r, renamed_input (Affine (mkAffineTransform (identity 3) (mkCS ["i"; "j"] "" Float64)
                                                       (mkCS ["x"; "y"] "" Float64)))
                 [("i", "phase")] "" = Ok r
     /\ coord_names (input_coords r) = ["phase"; "j"].
Proof.
  assert (Hk : In "l" (map fst [("i", "phase"); ("l", "slice")])) by (simpl; auto).
  assert (Hn : ~ In "l" (coord_names (input_coords
         (Affine (mkAffineTransform (identity 3) (mkCS ["i"; "j"] "" Float64) (mkCS ["x"; "y"] "" Float64))))))
    by (simpl; intros [H|[H|[]]]; discriminate).
  split; [split; [exact Hk|split; [exact Hn|]]|].
  - exact (proj1 renamed_input_spec _ _ "" "l" Hk Hn).
  - apply (proj2 renamed_input_spec).
    + unfold well_behaved, wf_affine. repeat split; vm_compute; reflexivity.
    + reflexivity.
    + simpl. intros k [<-|[]]. left. reflexivity.
    + reflexivity.
    + discriminate.
Defined.

Lemma renamed_input_cex :
  renamed_input (Affine (mkAffineTransform (identity 3) (mkCS ["i"; "j"] "" Float64)
                                           (mkCS ["x"; "y"] "" Float64)))
    [("i", "j")] "" = Err (ValueError CoordNamesNotDistinct)
  /\ renamed_input (Affine (mkAffineTransform (identity 2) (mkCS ["i"] "" Int64)
                                              (mkCS ["x"] "" Int64)))
       [("i", "k")] ""
     = Err (ValueError (InputOutputCoordinatesDoNotMatch (["i"], Int64) (["i"], Float64))).
Proof. split; vm_compute; reflexivity. Qed.

(** ** [product] *)

Lemma slice_firstn_skipn off k x : slice off (off + k) x = firstn k (skipn off x).
Proof. unfold slice. f_equal. lia. Qed.

Lemma skipn_split {A : Type} off k (x : list A) : skipn off x = firstn k (skipn off x) ++ skipn (off + k) x.
Proof.
  rewrite <- (firstn_skipn k (skipn off x)) at 1. f_equal.
  rewrite skipn_skipn. f_equal. lia.
Qed.

Lemma vadd_app u1 u2 v1 v2 :
  length u1 = length v1 -> vadd (u1 ++ u2) (v1 ++ v2) = vadd u1 v1 ++ vadd u2 v2.
Proof.
  revert v1; induction u1 as [|a u1 IH]; intros [|b v1] H; simpl in *; try discriminate; auto.
  unfold vadd in *. simpl. f_equal. apply IH. lia.
Qed.

Lemma call_single_ok c s :
  fn_ok_cs (function c) (input_coords c) (output_coords c) ->
  length s = ndim (input_coords c) ->
  vec_fits (coord_dtype (input_coords c)) s = true ->
  exists y, call c [s] = Ok [y] /\ function c s = Ok y /\ length y = ndim (output_coords c)
    /\ vec_fits (coord_dtype (output_coords c)) y = true.
Proof.
  intros [Hf Hfit] Hs Hfs. unfold call, checked_values. cbn [rows_have mat_fits forallb].
  rewrite Hs, Nat.eqb_refl, Hfs. cbn [andb bind mapM].
  destruct (Hf s Hs) as (y & Hy & Hly). rewrite Hy. cbn [bind].
  pose proof (Hfit s y Hs Hfs Hy) as Hfy.
  cbn [rows_have mat_fits forallb]. rewrite Hly, Nat.eqb_refl, Hfy. cbn [andb]. eauto.
Qed.

Lemma fits_rank d1 d2 q :
  dtype_rank d1 <= dtype_rank d2 -> fits d1 q = true -> fits d2 q = true.
Proof. destruct d1, d2; simpl; intros H Hq; try reflexivity; try exact Hq; lia. Qed.

Lemma vec_fits_rank d1 d2 x :
  dtype_rank d1 <= dtype_rank d2 -> vec_fits d1 x = true -> vec_fits d2 x = true.
Proof. rewrite !vec_fits_spec. intros Hr H q Hq. apply (fits_rank d1); auto. Qed.

Lemma rank_safe_dtype d ds : In d ds -> dtype_rank d <= dtype_rank (safe_dtype ds).
Proof.
  unfold safe_dtype. induction ds as [|d' ds IH]; intros H; [destruct H|].
  cbn [fold_right]. unfold dtype_lub at 1.
  destruct (Nat.leb_spec (dtype_rank d') (dtype_rank (fold_right dtype_lub Int64 ds)));
    destruct H as [<-|H]; try lia; specialize (IH H); lia.
Qed.

Lemma vec_fits_firstn d n x : vec_fits d x = true -> vec_fits d (firstn n x) = true.
Proof.
  intros H. rewrite <- (firstn_skipn n x), vec_fits_app in H.
  apply andb_prop in H as [H _]. exact H.
Qed.

Lemma vec_fits_skipn d n x : vec_fits d x = true -> vec_fits d (skipn n x) = true.
Proof.
  intros H. rewrite <- (firstn_skipn n x), vec_fits_app in H.
  apply andb_prop in H as [_ H]. exact H.
Qed.

Lemma vec_fits_slice d a b x : vec_fits d x = true -> vec_fits d (slice a b x) = true.
Proof. intro H. unfold slice. apply vec_fits_firstn, vec_fits_skipn, H. Qed.

Lemma product_mapM_wb cs off x :
  Forall well_behaved cs ->
  length x = off + fold_right Nat.add 0 (map (fun c => fst (ndims c)) cs) ->
  Forall (fun c => vec_fits (coord_dtype (input_coords c)) x = true) cs ->
  exists Ys,
    mapM (fun p => call (fst p) [slice (snd p) (snd p + fst (ndims (fst p))) x])
         (combine cs (offsets off cs)) = Ok Ys
    /\ length Ys = length cs
    /\ length (concat (map (hd []) Ys)) = fold_right Nat.add 0 (map (fun c => snd (ndims c)) cs)
    /\ forall d, Forall (fun c => dtype_rank (coord_dtype (output_coords c)) <= dtype_rank d) cs ->
         vec_fits d (concat (map (hd []) Ys)) = true.
Proof.
  revert off; induction cs as [|c cs IH]; intros off Hwb Hx Hfx.
  { exists []. split; [reflexivity|]. split; [reflexivity|]. split; [reflexivity|].
    intros; reflexivity. }
  inversion Hwb as [|? ? Hc Hcs]; subst. inversion Hfx as [|? ? Hfc Hfcs]; subst.
  cbn [combine offsets mapM fst snd].
  cbn [map fold_right] in Hx.
  destruct (call_single_ok c (slice off (off + fst (ndims c)) x) (wb_ok_cs c Hc))
    as (y & Hy & _ & Hly & Hfy).
  { rewrite slice_firstn_skipn, length_firstn, length_skipn, Nat.min_l by lia. reflexivity. }
  { apply vec_fits_slice, Hfc. }
  cbv beta. cbn [fst snd].
  match goal with |- context [call c ?a] => replace (call c a) with (Ok [y]) by exact (eq_sym Hy) end.
  cbn [bind].
  destruct (IH (off + fst (ndims c)) Hcs ltac:(lia) Hfcs) as (Ys & HYs & HlYs & Hcat & Hfcat).
  rewrite HYs. cbn [bind]. exists ([y] :: Ys). split; [reflexivity|].
  split; [simpl; lia|]. cbn [map hd concat fold_right].
  split; [rewrite length_app, Hly, Hcat; reflexivity|].
  intros d Hd. inversion Hd as [|? ? Hdc Hdcs]; subst.
  rewrite vec_fits_app, (vec_fits_rank _ d y Hdc Hfy). cbn [andb]. apply Hfcat, Hdcs.
Qed.

Lemma product_function_zero cs :
  cs <> [] -> Forall well_behaved cs ->
  exists y,
    product_function cs (zeros (fold_right Nat.add 0 (map (fun c => fst (ndims c)) cs))) = Ok y
    /\ length y = fold_right Nat.add 0 (map (fun c => snd (ndims c)) cs)
    /\ vec_fits (safe_dtype (map coord_dtype (map output_coords cs))) y = true.
Proof.
  intros Hne Hwb. unfold product_function.
  set (N := fold_right Nat.add 0 (map (fun c => fst (ndims c)) cs)).
  destruct (product_mapM_wb cs 0 (zeros N) Hwb) as (Ys & HYs & HlYs & Hcat & Hfcat).
  { rewrite length_zeros. reflexivity. }
  { apply Forall_forall. intros c _. apply vec_fits_zeros. }
  rewrite HYs. cbn [bind]. unfold hstack.
  destruct Ys as [|Y Ys]; [destruct cs; [congruence|discriminate]|].
  exists (concat (map (hd []) (Y :: Ys))). split; [reflexivity|]. split; [exact Hcat|].
  apply Hfcat. apply Forall_forall. intros c Hc. apply rank_safe_dtype.
  rewrite map_map. apply (in_map (fun c => coord_dtype (output_coords c))), Hc.
Qed.

Lemma length_concat_names css :
  length (concat (map coord_names css)) = fold_right Nat.add 0 (map ndim css).
Proof. induction css as [|c css IH]; simpl; auto. rewrite length_app, IH. reflexivity. Qed.

Lemma total_in_names ats :
  total_in ats = length (concat (map coord_names (map at_input_coords ats))).
Proof. rewrite length_concat_names, map_map. reflexivity. Qed.

Lemma lin_block_shape ats :
  Forall wf_affine ats ->
  rows_have (total_in ats) (lin_block ats) = true
  /\ length (lin_block ats) = length (concat (map coord_names (map at_output_coords ats)))
  /\ length (concat (map (fun a => snd (to_matrix_vector (affine a))) ats))
     = length (lin_block ats).
Proof.
  induction ats as [|a rest IH]; intros Hwf; [simpl; auto|].
  inversion Hwf as [|? ? Ha Hrest]; subst.
  destruct (IH Hrest) as (HL & HlL & HlB).
  destruct (hom_wf a Ha) as (_ & HA & HlA & Hlb).
  change (total_in (a :: rest)) with (ndim (at_input_coords a) + total_in rest).
  cbn [lin_block map concat]. rewrite !length_app, !length_map.
  unfold ndim in HlA, Hlb. split; [|unfold mat, vec in *; split; lia].
  apply rows_have_spec. intros r Hr. apply in_app_or in Hr as [Hr|Hr];
    apply in_map_iff in Hr as (r' & <- & Hr'); rewrite length_app, length_zeros.
  - rewrite rows_have_spec in HA. rewrite (HA r' Hr'). reflexivity.
  - rewrite rows_have_spec in HL. rewrite (HL r' Hr'). reflexivity.
Qed.

Lemma mat_vec_lin_block_cons a rest s t :
  rows_have (ndim (at_input_coords a)) (fst (to_matrix_vector (affine a))) = true ->
  rows_have (total_in rest) (lin_block rest) = true ->
  length s = ndim (at_input_coords a) -> length t = total_in rest ->
  mat_vec (lin_block (a :: rest)) (s ++ t)
  = mat_vec (fst (to_matrix_vector (affine a))) s ++ mat_vec (lin_block rest) t.
Proof.
  intros HA HL Hs Ht. cbn [lin_block]. unfold mat_vec. rewrite map_app, !map_map.
  rewrite rows_have_spec in HA, HL.
  f_equal; apply map_ext_in; intros r Hr.
  - rewrite dot_app by (rewrite (HA r Hr); lia). rewrite dot_zeros_l. apply Qcplus_0_r.
  - rewrite dot_app by (rewrite length_zeros; lia). rewrite dot_zeros_l. apply Qcplus_0_l.
Qed.

Lemma product_mapM_affine ats off x :
  Forall wf_affine ats -> length x = off + total_in ats ->
  Forall (fun a => vec_fits (coord_dtype (at_input_coords a)) x = true) ats ->
  exists Ys,
    mapM (fun p => call (fst p) [slice (snd p) (snd p + fst (ndims (fst p))) x])
         (combine (map Affine ats) (offsets off (map Affine ats))) = Ok Ys
    /\ length Ys = length ats
    /\ concat (map (hd []) Ys)
       = vadd (mat_vec (lin_block ats) (skipn off x))
              (concat (map (fun a => snd (to_matrix_vector (affine a))) ats)).
Proof.
  revert off; induction ats as [|a rest IH]; intros off Hwf Hx Hfx; [exists []; auto|].
  inversion Hwf as [|? ? Ha Hrest]; subst. inversion Hfx as [|? ? Hfa Hfrest]; subst.
  change (total_in (a :: rest)) with (ndim (at_input_coords a) + total_in rest) in Hx.
  cbn [map combine offsets mapM fst snd].
  set (n := fst (ndims (Affine a))).
  assert (Hn : n = ndim (at_input_coords a)) by reflexivity.
  set (s := slice off (off + n) x).
  assert (Hs : length s = ndim (at_input_coords a))
    by (unfold s; rewrite slice_firstn_skipn, length_firstn, length_skipn, Nat.min_l; lia).
  destruct (call_single_ok (Affine a) s (wb_ok_cs (Affine a) Ha) Hs (vec_fits_slice _ _ _ _ Hfa))
    as (y & Hy & Hfy & _).
  cbn [function] in Hfy. rewrite affine_function_tmv in Hfy. injection Hfy as <-.
  match goal with |- context [call (Affine a) ?u] =>
    replace (call (Affine a) u) with (Ok [vadd (mat_vec (fst (to_matrix_vector (affine a))) s)
                                               (snd (to_matrix_vector (affine a)))])
      by exact (eq_sym Hy) end.
  cbn [bind].
  destruct (IH (off + n) Hrest ltac:(lia) Hfrest) as (Ys & HYs & HlYs & Hcat).
  rewrite HYs. cbn [bind]. eexists. split; [reflexivity|]. split; [simpl; lia|].
  cbn [map hd concat]. rewrite Hcat.
  destruct (hom_wf a Ha) as (_ & HA & HlA & Hlb).
  destruct (lin_block_shape rest Hrest) as (HL & _ & HlB).
  assert (Hsk : skipn off x = s ++ skipn (off + n) x)
    by (unfold s; rewrite slice_firstn_skipn; apply skipn_split).
  rewrite Hsk, mat_vec_lin_block_cons; auto.
  - rewrite vadd_app; [reflexivity|]. rewrite length_mat_vec. lia.
  - rewrite length_skipn. lia.
Qed.

Lemma product_function_affine ats x :
  ats <> [] -> Forall wf_affine ats -> length x = total_in ats ->
  Forall (fun a => vec_fits (coord_dtype (at_input_coords a)) x = true) ats ->
  product_function (map Affine ats) x
  = Ok (vadd (mat_vec (lin_block ats) x)
             (concat (map (fun a => snd (to_matrix_vector (affine a))) ats))).
Proof.
  intros Hne Hwf Hx Hfx. unfold product_function.
  destruct (product_mapM_affine ats 0 x Hwf ltac:(lia) Hfx) as (Ys & HYs & HlYs & Hcat).
  rewrite HYs. cbn [bind]. unfold hstack.
  destruct Ys as [|Y Ys]; [destruct ats; [congruence|discriminate]|].
  rewrite Hcat. reflexivity.
Qed.

Lemma coordsys_product_ok css :
  distinctb (concat (map coord_names css)) = true ->
  coordsys_product css
  = Ok (mkCS (concat (map coord_names css)) "product" (safe_dtype (map coord_dtype css))).
Proof. intro H. unfold coordsys_product, CoordinateSystem_new. rewrite H. reflexivity. Qed.

Lemma product_affines ats :
  ats <> [] -> Forall wf_affine ats ->
  distinctb (concat (map coord_names (map at_input_coords ats))) = true ->
  distinctb (concat (map coord_names (map at_output_coords ats))) = true ->
  product (map Affine ats)
  = Ok (Affine (mkAffineTransform (block_affine ats)
          (mkCS (concat (map coord_names (map at_input_coords ats))) "product"
                (safe_dtype (map coord_dtype (map at_input_coords ats))))
          (mkCS (concat (map coord_names (map at_output_coords ats))) "product"
                (safe_dtype (map coord_dtype (map at_input_coords ats)))))).
Proof.
  intros Hne Hwf Hdi Hdo.
  assert (Hi : map input_coords (map Affine ats) = map at_input_coords ats)
    by (rewrite map_map; reflexivity).
  assert (Ho : map output_coords (map Affine ats) = map at_output_coords ats)
    by (rewrite map_map; reflexivity).
  assert (Hn : fold_right Nat.add 0 (map (fun c => fst (ndims c)) (map Affine ats)) = total_in ats)
    by (rewrite map_map; reflexivity).
  assert (Hd : map coord_dtype (map at_output_coords ats) = map coord_dtype (map at_input_coords ats)).
  { rewrite !map_map. apply map_ext_in. intros a Ha.
    rewrite Forall_forall in Hwf. destruct (Hwf a Ha) as (_ & _ & _ & _ & E & _). auto. }
  destruct (lin_block_shape ats Hwf) as (HL & HlL & HlB).
  unfold product. cbv zeta. rewrite Hn, Hi, Ho, !coordsys_product_ok by assumption.
  cbn [bind]. rewrite forallb_is_affine_map, Hd.
  rewrite (linearize_ext _ (fun xs => Ok (map (fun x => vadd (mat_vec (lin_block ats) x)
             (concat (map (fun a => snd (to_matrix_vector (affine a))) ats))) xs))).
  2:{ reflexivity. }
  2:{ intros X HX HfX. apply mapM_map_ok. intros x Hx. apply product_function_affine; auto.
      - rewrite rows_have_spec in HX. auto.
      - apply Forall_forall. intros a _. apply vec_fits_int_any.
        rewrite mat_fits_spec in HfX. auto. }
  rewrite linearize_affine_origin0 by (auto using Qc_one_neq_zero). cbn [bind].
  set (d := safe_dtype (map coord_dtype (map at_input_coords ats))).
  unfold AffineTransform_new, safe_dtype. cbn [fold_right coord_dtype coord_names cs_name].
  rewrite safe_dtype_same3. unfold CoordinateSystem_new. rewrite Hdi, Hdo. cbn [bind].
  unfold ndim. cbn [coord_names]. unfold block_affine.
  rewrite length_hom_of by lia. rewrite HlL, Nat.eqb_refl, <- total_in_names.
  rewrite rows_have_hom_of by exact HL. reflexivity.
Qed.

(** C3 (corrected): [product] of a nonempty sequence of well-behaved
    transforms whose input precisions all equal the promoted input
    precision, and whose concatenated input axis names, and concatenated
    output axis names, are distinct returns a transform whose input axes are the
    concatenation of the operands' input axes in argument order, likewise
    for the output axes; it is an [AffineTransform] exactly when every
    operand is one. For well-formed [AffineTransform]s the result has the
    block-diagonal matrix [block_affine], both coordinate systems labelled
    ['product'] at the promoted precision. *)
Theorem product_spec :
  (forall cs : list cmap,
     cs <> [] -> Forall well_behaved cs ->
     Forall (fun c => coord_dtype (input_coords c)
                      = safe_dtype (map coord_dtype (map input_coords cs))) cs ->
     distinctb (concat (map coord_names (map input_coords cs))) = true ->
     distinctb (concat (map coord_names (map output_coords cs))) = true ->
     exists r, product cs = Ok r
       /\ coord_names (input_coords r) = concat (map coord_names (map input_coords cs))
       /\ coord_names (output_coords r) = concat (map coord_names (map output_coords cs))
       /\ is_affine r = forallb is_affine cs)
  /\ (forall ats : list AffineTransform,
        ats <> [] -> Forall wf_affine ats ->
        Forall (fun a => coord_dtype (at_input_coords a)
                         = safe_dtype (map coord_dtype (map at_input_coords ats))) ats ->
        distinctb (concat (map coord_names (map at_input_coords ats))) = true ->
        distinctb (concat (map coord_names (map at_output_coords ats))) = true ->
        product (map Affine ats)
        = Ok (Affine (mkAffineTransform (block_affine ats)
                (mkCS (concat (map coord_names (map at_input_coords ats))) "product"
                      (safe_dtype (map coord_dtype (map at_input_coords ats))))
                (mkCS (concat (map coord_names (map at_output_coords ats))) "product"
                      (safe_dtype (map coord_dtype (map at_input_coords ats))))))).
Proof.
  split; [|intros ats Hne Hwf _; exact (product_affines ats Hne Hwf)].
  intros cs Hne Hwb _ Hdi Hdo. destruct (forallb is_affine cs) eqn:Ea.
  - destruct (forallb_is_affine_inv cs Ea) as (ats & ->).
    pose proof (map_Affine_inj_wf ats Hwb) as Hwf.
    assert (Hi : map input_coords (map Affine ats) = map at_input_coords ats)
      by (rewrite map_map; reflexivity).
    assert (Ho : map output_coords (map Affine ats) = map at_output_coords ats)
      by (rewrite map_map; reflexivity).
    rewrite Hi, Ho in *.
    rewrite product_affines; [| intros ->; apply Hne; reflexivity | assumption..].
    eexists. split; [reflexivity|]. auto.
  - unfold product. cbv zeta. rewrite !coordsys_product_ok by assumption. cbn [bind].
    destruct (product_function_zero cs Hne Hwb) as (y & Hy & Hly & Hfy).
    rewrite Ea, (CoordinateMap_new_zero _ _ _ _ y); [eexists; split; [reflexivity|]; auto| | |].
    + unfold ndim. cbn [coord_names]. rewrite length_concat_names, map_map. exact Hy.
    + unfold ndim. cbn [coord_names]. rewrite length_concat_names, map_map. exact Hly.
    + exact Hfy.
Qed.

Lemma product_spec_witness :
  let ats := [mkAffineTransform (diag [qc 2; qc 1]) (mkCS ["i"] "" Float64) (mkCS ["x"] "" Float64);
              mkAffineTransform (diag [qc 4; qc 1]) (mkCS ["k"] "" Float64) (mkCS ["z"] "" Float64);
              mkAffineTransform (diag [qc 3; qc 1]) (mkCS ["j"] "" Float64) (mkCS ["y"] "" Float64)] in
  Forall wf_affine ats
  /\ distinctb (concat (map coord_names (map at_input_coords ats))) = true
  /\ distinctb (concat (map coord_names (map at_output_coords ats))) = true
  /\ Forall (fun a => coord_dtype (at_input_coords a)
                      = safe_dtype (map coord_dtype (map at_input_coords ats))) ats
  /\ product (map Affine ats)
     = Ok (Affine (mkAffineTransform (block_affine ats)
             (mkCS ["i"; "k"; "j"] "product" Float64) (mkCS ["x"; "z"; "y"] "product" Float64)))
  /\ block_affine ats = diag [qc 2; qc 4; qc 3; qc 1].
Proof.
  intro ats.
  assert (Hw : Forall wf_affine ats) by (repeat constructor; vm_compute; reflexivity).
  assert (Hi : distinctb (concat (map coord_names (map at_input_coords ats))) = true)
    by (vm_compute; reflexivity).
  assert (Ho : distinctb (concat (map coord_names (map at_output_coords ats))) = true)
    by (vm_compute; reflexivity).
  split; [exact Hw|]. split; [exact Hi|]. split; [exact Ho|].
  assert (Hp : Forall (fun a => coord_dtype (at_input_coords a)
                                = safe_dtype (map coord_dtype (map at_input_coords ats))) ats)
    by (repeat constructor).
  split; [exact Hp|].
  split; [exact (proj2 product_spec ats ltac:(discriminate) Hw Hp Hi Ho)|].
  apply mat_eqb_eq. vm_compute. reflexivity.
Defined.

Lemma product_spec_cex :
  wf_affine (mkAffineTransform (diag [qc 2; qc 1]) (mkCS ["i"] "" Float64) (mkCS ["x"] "" Float64))
  /\ product [Affine (mkAffineTransform (diag [qc 2; qc 1]) (mkCS ["i"] "" Float64) (mkCS ["x"] "" Float64));
              Affine (mkAffineTransform (diag [qc 2; qc 1]) (mkCS ["i"] "" Float64) (mkCS ["x"] "" Float64))]
     = Err (ValueError CoordNamesNotDistinct)
  /\ product [] = Err (ValueError NeedAtLeastOneArray).
Proof.
  split; [unfold wf_affine; repeat split; vm_compute; reflexivity|].
  split; vm_compute; reflexivity.
Qed.

(* ================================================================== *)
(** * Further properties of the module *)


Lemma compose_eval c1 rest :
  Forall well_behaved (c1 :: rest) -> seams_ok (c1 :: rest) ->
  length rest <= 1 \/ Forall inv_fits (c1 :: rest) ->
  exists r, compose (c1 :: rest) = Ok r
    /\ (forallb is_affine (c1 :: rest) = true \/ Forall inv_fits (c1 :: rest) -> well_behaved r)
    /\ input_coords r = input_coords (last (c1 :: rest) c1)
    /\ output_coords r = output_coords c1
    /\ forall x, length x = ndim (input_coords (last (c1 :: rest) c1)) ->
         function r x = chain (c1 :: rest) x.
Proof.
  intros Hwb Hs Hlen. destruct (compose_wb c1 rest Hwb Hs Hlen) as (r & Hr & Hwr & Hin & Hout).
  exists r. split; [exact Hr|]. split; [exact Hwr|]. split; [exact Hin|]. split; [exact Hout|].
  destruct (forallb is_affine (c1 :: rest)) eqn:Ea.
  - destruct (forallb_is_affine_inv _ Ea) as ([|a1 ats] & Hats); [discriminate|].
    simpl in Hats. injection Hats as -> ->.
    change (Affine a1 :: map Affine ats) with (map Affine (a1 :: ats)) in *.
    apply map_Affine_inj_wf in Hwb. rewrite length_map in Hlen.
    destruct (chain_affines a1 ats Hwb Hs) as (A & b & Hp & HA & HlA & Hlb & Hch).
    rewrite compose_affines in Hr by assumption. injection Hr as <-.
    replace (last (map Affine (a1 :: ats)) (Affine a1)) with (Affine (last (a1 :: ats) a1))
      by (symmetry; apply last_map').
    intros x Hx. rewrite Hch by exact Hx.
    change (affine_function (mat_prod (map (fun a => hom (affine a)) (a1 :: ats))) x
            = Ok (vadd (mat_vec A x) b)).
    rewrite Hp. apply affine_function_hom_of. lia.
  - destruct (exists_last (l := c1 :: rest) ltac:(discriminate)) as (l & c0 & Heq).
    assert (Hlen' : length l <= 1 \/ Forall inv_fits (l ++ [c0])).
    { rewrite <- Heq. destruct Hlen as [Hlen|Hlen]; [left|right; exact Hlen].
      apply (f_equal (@length _)) in Heq. rewrite length_app in Heq. simpl in Heq. lia. }
    rewrite Heq in Hwb, Hs, Ea, Hr |- *.
    apply Forall_app in Hwb as [Hwl Hw0]. inversion Hw0 as [|? ? Hw0' _]; subst.
    destruct (compose_fold_ok c0 l Hw0' Hwl Hs Hlen') as (c & Hf & _ & _ & _ & _ & Hfun).
    rewrite compose_app_last, Hf in Hr. cbn [bind] in Hr. rewrite Ea in Hr.
    injection Hr as <-. intros x _. apply Hfun.
Qed.

Lemma mapM_Forall2 {A B : Type} (f : A -> result B) l l' :
  mapM f l = Ok l' -> Forall2 (fun a b => f a = Ok b) l l'.
Proof.
  revert l'; induction l as [|a l IH]; intros l' H; simpl in H.
  - injection H as <-. constructor.
  - destruct (f a) as [b|e] eqn:Ea; cbn [bind] in H; [|discriminate].
    destruct (mapM f l) as [bs|e]; cbn [bind] in H; [|discriminate].
    injection H as <-. constructor; auto.
Qed.

(** The composition of well-behaved transforms that match at every seam,
    with at most two operands or with inverses that keep values
    representable at the precision ([inv_fits]), exists, goes from the input coordinates of the last operand to the
    output coordinates of the first, and evaluates every point as the
    operands' functions applied from right to left. *)
Theorem compose_function (c1 : cmap) (rest : list cmap) :
  Forall well_behaved (c1 :: rest) -> seams_ok (c1 :: rest) ->
  length rest <= 1 \/ Forall inv_fits (c1 :: rest) ->
  exists r, compose (c1 :: rest) = Ok r
    /\ input_coords r = input_coords (last (c1 :: rest) c1)
    /\ output_coords r = output_coords c1
    /\ forall x, length x = ndim (input_coords (last (c1 :: rest) c1)) ->
         function r x = chain (c1 :: rest) x.
Proof.
  intros Hwb Hs Hlen.
  destruct (compose_eval c1 rest Hwb Hs Hlen) as (r & Hr & _ & Hin & Hout & Hf).
  exists r. auto.
Qed.

Lemma compose_function_witness :
  let g := mkCoordinateMap (fun x => Ok (map (fun q => (q + 1)%Qc) x))
             (mkCS ["i"] "" Float64) (mkCS ["x"] "" Float64) None in
  let a := mkAffineTransform (diag [qc 2; qc 1]) (mkCS ["x"] "" Float64) (mkCS ["y"] "" Float64) in
  Forall well_behaved [Affine a; Generic g] /\ seams_ok [Affine a; Generic g]
  /\ exists r, compose [Affine a; Generic g] = Ok r
     /\ input_coords r = mkCS ["i"] "" Float64 /\ output_coords r = mkCS ["y"] "" Float64
     /\ function r [qc 3] = Ok [qc 8].
Proof.
  intros g a.
  assert (Hw : Forall well_behaved [Affine a; Generic g]).
  { constructor; [unfold well_behaved, wf_affine; repeat split; vm_compute; reflexivity|].
    constructor; [|constructor]. split; [|discriminate]. split.
    - intros x Hx. eexists. split; [reflexivity|]. rewrite length_map. exact Hx.
    - intros x y _ _ _. apply vec_fits_float. discriminate. }
  assert (Hs : seams_ok [Affine a; Generic g]) by (simpl; auto).
  split; [exact Hw|]. split; [exact Hs|].
  destruct (compose_function (Affine a) [Generic g] Hw Hs (or_introl (le_n 1)))
    as (r & Hr & Hin & Hout & Hf).
  exists r. split; [exact Hr|]. split; [exact Hin|]. split; [exact Hout|].
  rewrite Hf by reflexivity. vm_compute. reflexivity.
Defined.

(** [compose()] with no operand raises an [IndexError]; [compose(c)] of a
    generic [CoordinateMap] returns [c] itself; [compose(a)] of a single
    well-formed [AffineTransform] returns the transform with its last
    row reset to [[0, ..., 0, 1]] and the same coordinate systems. *)
Theorem compose_single (a : AffineTransform) (g : CoordinateMap) :
  compose [] = Err IndexError
  /\ compose [Generic g] = Ok (Generic g)
  /\ (wf_affine a ->
      compose [Affine a]
      = Ok (Affine (mkAffineTransform (hom (affine a)) (at_input_coords a) (at_output_coords a)))).
Proof.
  split; [reflexivity|]. split; [reflexivity|].
  intros Ha. exact (compose_affines a [] (Forall_cons _ Ha (Forall_nil _)) I (or_introl (le_0_n 1))).
Qed.

Lemma compose_single_witness :
  wf_affine (mkAffineTransform [[qc 2; qc 1]; [qc 0; qc 3]] (mkCS ["i"] "" Float64)
                               (mkCS ["x"] "" Float64))
  /\ compose [Affine (mkAffineTransform [[qc 2; qc 1]; [qc 0; qc 3]] (mkCS ["i"] "" Float64)
                                        (mkCS ["x"] "" Float64))]
     = Ok (Affine (mkAffineTransform [[qc 2; qc 1]; [qc 0; qc 1]] (mkCS ["i"] "" Float64)
                                     (mkCS ["x"] "" Float64))).
Proof.
  assert (H : wf_affine (mkAffineTransform [[qc 2; qc 1]; [qc 0; qc 3]] (mkCS ["i"] "" Float64)
                                           (mkCS ["x"] "" Float64)))
    by (unfold wf_affine; repeat split; vm_compute; reflexivity).
  split; [exact H|].
  rewrite (proj2 (proj2 (compose_single _ (mkCoordinateMap (fun x => Ok x) (mkCS [] "" Float64)
                                                        (mkCS [] "" Float64) None))) H).
  vm_compute. reflexivity.
Defined.

(** The inverse of a well-behaved [CoordinateMap] (both functions keep the
    dimensions and map representable values to representable values) with
    an inverse function is the map with the two functions and the two coordinate systems
    swapped, and its inverse is the original map. *)
Theorem inverse_generic_involution (g : CoordinateMap) (h : func) :
  well_behaved (Generic g) -> cm_inverse_function g = Some h ->
  exists r, inverse (Generic g) = Ok (Some r)
    /\ r = Generic (mkCoordinateMap h (cm_output_coords g) (cm_input_coords g)
                                    (Some (cm_function g)))
    /\ inverse r = Ok (Some (Generic g)).
Proof.
  intros [Hf Hh] Eh. specialize (Hh h Eh).
  simpl. rewrite Eh, CoordinateMap_new_ok by exact Hh. cbn [bind].
  eexists. split; [reflexivity|]. split; [reflexivity|].
  simpl. rewrite CoordinateMap_new_ok by exact Hf. cbn [bind].
  destruct g as [f inc outc inv]. simpl in Eh. subst inv. reflexivity.
Qed.

Lemma inverse_generic_involution_witness :
  let g := mkCoordinateMap (fun x => Ok (map (fun q => (q + 1)%Qc) x))
             (mkCS ["i"] "" Float64) (mkCS ["x"] "" Float64)
             (Some (fun y => Ok (map (fun q => (q - 1)%Qc) y))) in
  well_behaved (Generic g)
  /\ exists r, inverse (Generic g) = Ok (Some r)
    /\ r = Generic (mkCoordinateMap (fun y => Ok (map (fun q => (q - 1)%Qc) y))
                     (mkCS ["x"] "" Float64) (mkCS ["i"] "" Float64) (Some (cm_function g)))
    /\ inverse r = Ok (Some (Generic g)).
Proof.
  intros g.
  assert (Hw : well_behaved (Generic g)).
  { split; [split|].
    - intros x Hx. eexists. split; [reflexivity|]. rewrite length_map. exact Hx.
    - intros x y _ _ _. apply vec_fits_float. discriminate.
    - intros h Eh. injection Eh as <-. split.
      + intros x Hx. eexists. split; [reflexivity|]. rewrite length_map. exact Hx.
      + intros x y _ _ _. apply vec_fits_float. discriminate. }
  split; [exact Hw|]. exact (inverse_generic_involution g _ Hw eq_refl).
Defined.

(** Calling a transform on a batch raises a [ValueError] when some point
    does not have as many coordinates as the input coordinate system;
    on a well-behaved transform, a batch of points of the right
    dimension whose values are representable at the input precision gives
    as many points, each of the output dimension, each the transform's
    function at the corresponding point. *)
Theorem call_batch (c : cmap) (X : mat) :
  (rows_have (ndim (input_coords c)) X = false ->
   call c X = Err (ValueError ValuesWrongDimension))
  /\ (well_behaved c -> rows_have (ndim (input_coords c)) X = true ->
      mat_fits (coord_dtype (input_coords c)) X = true ->
      exists Y, call c X = Ok Y /\ length Y = length X
        /\ rows_have (ndim (output_coords c)) Y = true
        /\ Forall2 (fun x y => function c x = Ok y) X Y).
Proof.
  split.
  - intros H. unfold call, checked_values. rewrite H. reflexivity.
  - intros Hc HX HfX. destruct (mapM_fn_ok _ _ _ X (wb_function c Hc) HX) as (Y & HY & HYr).
    pose proof (mapM_fn_fits _ _ _ _ X Y (wb_fits c Hc) HX HfX HY) as HfY.
    exists Y. unfold call, checked_values. rewrite HX, HfX. cbn [bind]. rewrite HY. cbn [bind].
    rewrite HYr, HfY. split; [reflexivity|]. split; [apply (mapM_length _ _ _ HY)|].
    split; [reflexivity|]. apply mapM_Forall2, HY.
Qed.

Lemma call_batch_witness :
  let c := Affine (mkAffineTransform (diag [qc 2; qc 1]) (mkCS ["i"] "" Float64)
                                     (mkCS ["x"] "" Float64)) in
  rows_have 1 [[qc 1; qc 2]] = false
  /\ call c [[qc 1; qc 2]] = Err (ValueError ValuesWrongDimension)
  /\ well_behaved c /\ rows_have 1 [[qc 1]; [qc 5]] = true
  /\ mat_fits Float64 [[qc 1]; [qc 5]] = true
  /\ exists Y, call c [[qc 1]; [qc 5]] = Ok Y /\ length Y = 2
     /\ rows_have 1 Y = true /\ Forall2 (fun x y => function c x = Ok y) [[qc 1]; [qc 5]] Y.
Proof.
  intros c.
  assert (Hw : well_behaved c) by (unfold well_behaved, wf_affine; repeat split; vm_compute; reflexivity).
  split; [reflexivity|]. split; [exact (proj1 (call_batch c [[qc 1; qc 2]]) eq_refl)|].
  split; [exact Hw|]. split; [reflexivity|]. split; [reflexivity|].
  exact (proj2 (call_batch c [[qc 1]; [qc 5]]) Hw eq_refl eq_refl).
Defined.

(** ** Identity matrices *)

Lemma map_eqb_seq_out n i : n <= i ->
  map (fun j => if Nat.eqb j i then 1%Qc else 0%Qc) (seq 0 n) = zeros n.
Proof.
  intros H. unfold zeros. rewrite (repeat_as_map _ 0 n). apply map_ext_in.
  intros j Hj. apply in_seq in Hj. destruct (Nat.eqb_spec j i); [lia|reflexivity].
Qed.

Lemma identity_hom n : identity (S n) = hom_of (identity n) (zeros n) n.
Proof.
  unfold identity, hom_of, unit_vec. rewrite seq_S, map_app. cbn [map].
  unfold zeros at 1. rewrite zipWith_map_repeat_n by apply length_seq.
  f_equal.
  - apply map_ext_in. intros i Hi. apply in_seq in Hi. rewrite map_app. cbn [map].
    replace (Nat.eqb (0 + n) i) with false by (symmetry; apply Nat.eqb_neq; lia). reflexivity.
  - rewrite map_app. cbn [map]. rewrite Nat.eqb_refl, map_eqb_seq_out by lia.
    reflexivity.
Qed.

Lemma affine_function_identity n y : length y = n -> affine_function (identity (S n)) y = Ok y.
Proof.
  intros Hy. rewrite identity_hom, affine_function_hom_of
    by (rewrite length_identity, length_zeros; reflexivity).
  rewrite mat_vec_identity, vadd_zeros_r by exact Hy. reflexivity.
Qed.

(** ** [renamed_output] *)

Lemma check_output_keys_ok names keys :
  (forall k, In k keys -> In k names) -> check_output_keys names keys = Ok tt.
Proof.
  induction keys as [|k ks IH]; intros H; simpl; [reflexivity|].
  replace (existsb (String.eqb k) names) with true
    by (symmetry; apply existsb_eqb_In, H; left; reflexivity).
  apply IH. intros k' Hk'. apply H. right. exact Hk'.
Qed.

Lemma check_output_keys_err names keys :
  (exists k, In k keys /\ ~ In k names) ->
  exists k, In k keys /\ ~ In k names
    /\ check_output_keys names keys = Err (ValueError (NoOutputCoordinateNamed k)).
Proof.
  induction keys as [|k ks IH]; intros (k0 & Hin & Hn); [destruct Hin|].
  simpl. destruct (existsb (String.eqb k) names) eqn:E.
  - destruct IH as (k1 & H1 & H2 & H3).
    + destruct Hin as [<-|Hin]; [apply existsb_eqb_In in E; contradiction|]. eauto.
    + exists k1. auto.
  - exists k. split; [left; reflexivity|]. split; [|reflexivity].
    intro H. apply existsb_eqb_In in H. congruence.
Qed.

Lemma chain_two c1 c2 x :
  chain [c1; c2] x = let* y := function c2 x in function c1 y.
Proof. reflexivity. Qed.

Lemma renamed_output_ok c m name :
  well_behaved c -> distinctb (coord_names (output_coords c)) = true ->
  (forall k, In k (map fst m) -> In k (coord_names (output_coords c))) ->
  distinctb (map (fun n => match lookup n m with Some v => v | None => n end)
                 (coord_names (output_coords c))) = true ->
  coord_dtype (output_coords c) <> Int64 ->
  exists r, renamed_output c m name = Ok r
    /\ input_coords r = input_coords c
    /\ output_coords r
       = mkCS (map (fun n => match lookup n m with Some v => v | None => n end)
                   (coord_names (output_coords c)))
              (if String.eqb name "" then cs_name (input_coords c) else name)
              (coord_dtype (output_coords c))
    /\ forall x, length x = ndim (input_coords c) -> function r x = function c x.
Proof.
  intros Hc Hd Hk Hnd Hdt. unfold renamed_output. cbv zeta.
  rewrite check_output_keys_ok by exact Hk. cbn [bind].
  unfold CoordinateSystem_new at 1. rewrite Hnd. cbn [bind].
  unfold AffineTransform_new, safe_dtype. cbn [fold_right coord_dtype coord_names cs_name].
  rewrite safe_dtype_float_not_int by exact Hdt.
  rewrite CoordinateSystem_new_self by exact Hd. cbn [bind].
  unfold CoordinateSystem_new at 1. rewrite Hnd. cbn [bind].
  unfold ndims, ndim. cbn [snd coord_names]. rewrite length_identity, length_map.
  replace (Nat.eqb (S (length (coord_names (output_coords c))))
                   (length (coord_names (output_coords c)) + 1)) with true
    by (symmetry; apply Nat.eqb_eq; lia).
  replace (length (coord_names (output_coords c)) + 1)
    with (S (length (coord_names (output_coords c)))) by lia.
  rewrite rows_have_identity. cbn [andb].
  set (newoutc := mkCS _ _ (coord_dtype (output_coords c))).
  set (n := length (coord_names (output_coords c))).
  assert (Hwf : wf_affine (mkAffineTransform (identity (S n)) (output_coords c) newoutc)).
  { unfold wf_affine, ndim. cbn [affine at_input_coords at_output_coords]. unfold newoutc.
    cbn [coord_names coord_dtype]. rewrite length_identity, length_map.
    fold n. split; [lia|]. split; [replace (n + 1) with (S n) by lia; apply rows_have_identity|].
    split; [auto|]. split; [auto|]. split; [reflexivity|]. apply mat_fits_identity. }
  destruct (compose_eval (Affine (mkAffineTransform (identity (S n)) (output_coords c) newoutc)) [c])
    as (r & Hr & _ & Hin & Hout & Hf).
  - constructor; [exact Hwf|constructor; [exact Hc|constructor]].
  - simpl. auto.
  - left. simpl. lia.
  - exists r. split; [exact Hr|]. split; [exact Hin|]. split; [exact Hout|].
    intros x Hx. rewrite Hf by exact Hx. rewrite chain_two.
    destruct (wb_function c Hc x Hx) as (y & Hy & Hly). rewrite Hy. cbn [bind function affine].
    apply affine_function_identity. exact Hly.
Qed.

(** [renamed_output] raises a [ValueError] naming a key of the mapping that
    is not an output axis name whenever there is one. *)
Theorem renamed_output_missing_key (c : cmap) (m : rename_map) (name k : string) :
  In k (map fst m) -> ~ In k (coord_names (output_coords c)) ->
  exists k', In k' (map fst m) /\ ~ In k' (coord_names (output_coords c))
    /\ renamed_output c m name = Err (ValueError (NoOutputCoordinateNamed k')).
Proof.
  intros Hk Hn.
  destruct (check_output_keys_err (coord_names (output_coords c)) (map fst m)) as (k' & H1 & H2 & H3);
    [exists k; auto|].
  exists k'. split; [exact H1|]. split; [exact H2|].
  unfold renamed_output. cbv zeta. rewrite H3. reflexivity.
Qed.

(** When every key is an output axis name, the transform is
    well-behaved, the renamed output axis names are distinct and the
    output precision is not an integer one, [renamed_output] returns a
    transform with the same input coordinates and the same values at
    every point, whose output axes are the original ones in order with
    each mapped name substituted; the new output coordinate system keeps
    the precision and is labelled [name], or, when [name] is empty, with
    the label of the input coordinate system. *)
Theorem renamed_output_spec (c : cmap) (m : rename_map) (name : string) :
  well_behaved c -> distinctb (coord_names (output_coords c)) = true ->
  (forall k, In k (map fst m) -> In k (coord_names (output_coords c))) ->
  distinctb (map (fun n => match lookup n m with Some v => v | None => n end)
                 (coord_names (output_coords c))) = true ->
  coord_dtype (output_coords c) <> Int64 ->
  exists r, renamed_output c m name = Ok r
    /\ input_coords r = input_coords c
    /\ output_coords r
       = mkCS (map (fun n => match lookup n m with Some v => v | None => n end)
                   (coord_names (output_coords c)))
              (if String.eqb name "" then cs_name (input_coords c) else name)
              (coord_dtype (output_coords c))
    /\ forall x, length x = ndim (input_coords c) -> function r x = function c x.
Proof. apply renamed_output_ok. Qed.

Lemma renamed_output_missing_key_witness :
  let c := Affine (mkAffineTransform (identity 3) (mkCS ["i"; "j"] "in" Float64)
                                     (mkCS ["x"; "y"] "out" Float64)) in
  In "w" (map fst [("x", "u"); ("w", "v")]) /\ ~ In "w" (coord_names (output_coords c))
  /\ exists k', In k' (map fst [("x", "u"); ("w", "v")])
     /\ ~ In k' (coord_names (output_coords c))
     /\ renamed_output c [("x", "u"); ("w", "v")] "" = Err (ValueError (NoOutputCoordinateNamed k')).
Proof.
  intros c.
  assert (Hk : In "w" (map fst [("x", "u"); ("w", "v")])) by (simpl; auto).
  assert (Hn : ~ In "w" (coord_names (output_coords c))) by (simpl; intros [H|[H|[]]]; discriminate).
  split; [exact Hk|]. split; [exact Hn|].
  exact (renamed_output_missing_key c _ "" "w" Hk Hn).
Defined.

Lemma renamed_output_spec_witness :
  let c := Affine (mkAffineTransform (identity 3) (mkCS ["i"; "j"] "in" Float64)
                                     (mkCS ["x"; "y"] "out" Float64)) in
  well_behaved c
  /\ exists r, renamed_output c [("x", "u")] "" = Ok r
     /\ input_coords r = mkCS ["i"; "j"] "in" Float64
     /\ output_coords r = mkCS ["u"; "y"] "in" Float64
     /\ function r [qc 1; qc 2] = function c [qc 1; qc 2].
Proof.
  intros c.
  assert (Hw : well_behaved c) by (unfold well_behaved, wf_affine; repeat split; vm_compute; reflexivity).
  split; [exact Hw|].
  destruct (renamed_output_spec c [("x", "u")] "" Hw eq_refl) as (r & Hr & Hin & Hout & Hf).
  - simpl. intros k [<-|[]]. left. reflexivity.
  - reflexivity.
  - discriminate.
  - exists r. split; [exact Hr|]. split; [exact Hin|]. split; [exact Hout|]. apply Hf. reflexivity.
Defined.

(** ** Permutation matrices *)

Lemma column_perm_matrix n ps i :
  i < S n ->
  column (perm_matrix n ps) i
  = map (fun r => if Nat.eqb r n && Nat.eqb i n then 1%Qc
                  else match nth_error ps i with
                       | Some j => if Nat.eqb j r then 1%Qc else 0%Qc
                       | None => 0%Qc
                       end) (seq 0 (S n)).
Proof.
  intros Hi. unfold column, perm_matrix. rewrite map_map. apply map_ext_in.
  intros r _. rewrite nth_map_in with (d := 0) by (rewrite length_seq; exact Hi).
  rewrite seq_nth by exact Hi. reflexivity.
Qed.

Lemma transpose_perm_matrix n ps :
  length ps = n -> (forall j, In j ps -> j < n) ->
  transpose (S n) (perm_matrix n ps)
  = hom_of (map (fun i => unit_vec n (nth i ps 0)) (seq 0 n)) (zeros n) n.
Proof.
  intros Hl Hb. unfold transpose, hom_of. rewrite seq_S, map_app. cbn [map].
  unfold zeros at 1. rewrite zipWith_map_repeat_n by apply length_seq.
  f_equal.
  - apply map_ext_in. intros i Hi. apply in_seq in Hi.
    rewrite column_perm_matrix by lia. rewrite seq_S, map_app. cbn [map].
    assert (Hnth : nth_error ps i = Some (nth i ps 0)) by (apply nth_error_nth'; lia).
    assert (Hj : nth i ps 0 < n) by (apply Hb, nth_In; lia).
    rewrite Hnth. unfold unit_vec. f_equal.
    + apply map_ext_in. intros r Hr. apply in_seq in Hr.
      replace (Nat.eqb r n) with false by (symmetry; apply Nat.eqb_neq; lia).
      cbn [andb]. rewrite Nat.eqb_sym. reflexivity.
    + replace (Nat.eqb (0 + n) n) with true by (symmetry; apply Nat.eqb_eq; lia).
      replace (Nat.eqb i n) with false by (symmetry; apply Nat.eqb_neq; lia).
      replace (Nat.eqb (nth i ps 0) (0 + n)) with false by (symmetry; apply Nat.eqb_neq; lia).
      reflexivity.
  - rewrite column_perm_matrix by lia. rewrite seq_S, map_app. cbn [map].
    replace (nth_error ps (0 + n)) with (@None nat) by (symmetry; apply nth_error_None; lia).
    replace (Nat.eqb (0 + n) n) with true by (symmetry; apply Nat.eqb_eq; lia).
    cbn [andb]. f_equal. unfold zeros. rewrite (repeat_as_map _ 0 n). f_equal. apply map_ext_in.
    intros r Hr. apply in_seq in Hr.
    replace (Nat.eqb r n) with false by (symmetry; apply Nat.eqb_neq; lia). reflexivity.
Qed.

Lemma affine_function_perm_T n ps y :
  length ps = n -> (forall j, In j ps -> j < n) -> length y = n ->
  affine_function (transpose (S n) (perm_matrix n ps)) y
  = Ok (map (fun j => nth j y 0%Qc) ps).
Proof.
  intros Hl Hb Hy. rewrite transpose_perm_matrix by assumption.
  rewrite affine_function_hom_of by (rewrite length_map, length_seq, length_zeros; reflexivity).
  f_equal. rewrite vadd_zeros_r by (rewrite length_mat_vec, length_map, length_seq; reflexivity).
  unfold mat_vec. rewrite map_map.
  transitivity (map (fun i => nth (nth i ps 0) y 0%Qc) (seq 0 n)).
  - apply map_ext_in. intros i Hi. apply in_seq in Hi.
    rewrite dot_comm, dot_unit_vec; [reflexivity|exact Hy|]. apply Hb, nth_In. lia.
  - rewrite <- Hl, <- (map_map (fun i => nth i ps 0) (fun j => nth j y 0%Qc)), map_nth_seq.
    reflexivity.
Qed.

Lemma rows_have_transpose_perm n ps :
  length ps = n -> (forall j, In j ps -> j < n) ->
  rows_have (n + 1) (transpose (S n) (perm_matrix n ps)) = true
  /\ length (transpose (S n) (perm_matrix n ps)) = n + 1.
Proof.
  intros Hl Hb. rewrite transpose_perm_matrix by assumption.
  split; [|rewrite length_hom_of; rewrite ?length_map, ?length_seq, ?length_zeros; reflexivity].
  apply rows_have_hom_of. apply rows_have_spec. intros r Hr.
  apply in_map_iff in Hr as (i & <- & _). apply length_unit_vec.
Qed.

Lemma column_perm_unit n ps i :
  length ps = n -> (forall j, In j ps -> j < n) -> i < S n ->
  column (perm_matrix n ps) i = unit_vec (S n) (if Nat.eqb i n then n else nth i ps 0).
Proof.
  intros Hl Hb Hi. rewrite column_perm_matrix by exact Hi. unfold unit_vec.
  apply map_ext_in. intros r Hr. apply in_seq in Hr.
  destruct (Nat.eqb_spec i n) as [->|Hin].
  - replace (nth_error ps n) with (@None nat) by (symmetry; apply nth_error_None; lia).
    rewrite andb_true_r. reflexivity.
  - rewrite andb_false_r, (nth_error_nth' ps 0) by lia. rewrite Nat.eqb_sym. reflexivity.
Qed.

Lemma perm_index_inj n ps i j :
  length ps = n -> (forall k, In k ps -> k < n) -> NoDup ps -> i < S n -> j < S n ->
  (if Nat.eqb i n then n else nth i ps 0) = (if Nat.eqb j n then n else nth j ps 0) -> i = j.
Proof.
  intros Hl Hb Hnd Hi Hj. destruct (Nat.eqb_spec i n), (Nat.eqb_spec j n); intros E.
  - lia.
  - assert (nth j ps 0 < n) by (apply Hb, nth_In; lia). lia.
  - assert (nth i ps 0 < n) by (apply Hb, nth_In; lia). lia.
  - apply (proj1 (NoDup_nth ps 0) Hnd); [lia|lia|exact E].
Qed.

Lemma perm_T_mul n ps :
  length ps = n -> (forall j, In j ps -> j < n) -> NoDup ps ->
  mat_mul (transpose (S n) (perm_matrix n ps)) (perm_matrix n ps) = identity (S n).
Proof.
  intros Hl Hb Hnd. unfold mat_mul, transpose, identity.
  replace (ncols (perm_matrix n ps)) with (S n)
    by (unfold ncols, perm_matrix; simpl; rewrite length_map, length_seq; reflexivity).
  rewrite map_map. apply map_ext_in. intros i Hi. apply in_seq in Hi.
  rewrite (column_perm_unit n ps i Hl Hb) by lia.
  change (unit_vec (S n) i) with (map (fun j => if Nat.eqb j i then 1%Qc else 0%Qc) (seq 0 (S n))).
  apply map_ext_in. intros j Hj. apply in_seq in Hj.
  rewrite (column_perm_unit n ps j Hl Hb) by lia.
  assert (Hg : forall k, k < S n -> (if Nat.eqb k n then n else nth k ps 0) < S n).
  { intros k Hk. destruct (Nat.eqb_spec k n); [lia|].
    assert (nth k ps 0 < n) by (apply Hb, nth_In; lia). lia. }
  rewrite dot_unit_vec by (rewrite ?length_unit_vec; auto; apply Hg; lia).
  rewrite nth_unit_vec by (apply Hg; lia).
  destruct (Nat.eqb_spec j i) as [->|Hji].
  - rewrite Nat.eqb_refl. reflexivity.
  - destruct (Nat.eqb_spec (if Nat.eqb j n then n else nth j ps 0)
                           (if Nat.eqb i n then n else nth i ps 0)) as [E|]; [|reflexivity].
    exfalso. apply Hji. apply (perm_index_inj n ps j i Hl Hb Hnd); [lia|lia|exact E].
Qed.

Lemma vec_fits_perm_T_inv d n ps B x y :
  length ps = n -> (forall j, In j ps -> j < n) -> NoDup ps ->
  linalg_inv (transpose (S n) (perm_matrix n ps)) = Some B -> length x = n ->
  vec_fits d x = true -> affine_function B x = Ok y -> vec_fits d y = true.
Proof.
  intros Hl Hb Hnd HB Hx Hfx E.
  destruct (rows_have_transpose_perm n ps Hl Hb) as (HPr & HPl).
  destruct (linalg_inv_some _ _ HB) as (_ & _ & HBr & _).
  rewrite HPl, Nat.add_1_r in HBr.
  rewrite (affine_function_mat_vec B n x HBr Hx) in E. injection E as <-.
  rewrite (linalg_inv_unique_vec _ B (perm_matrix n ps) HB).
  - apply vec_fits_removelast, vec_fits_mat_vec; [apply mat_fits_perm_matrix|].
    rewrite vec_fits_app, Hfx. simpl. rewrite fits_one. reflexivity.
  - rewrite length_perm_matrix, HPl. reflexivity.
  - rewrite HPl. apply rows_have_perm_matrix.
  - intros w Hw. rewrite HPl in Hw.
    rewrite <- (mat_vec_mat_mul (n + 1)).
    + rewrite perm_T_mul by assumption. apply mat_vec_identity. lia.
    + rewrite length_perm_matrix. exact HPr.
    + apply rows_have_perm_matrix.
    + unfold ncols, perm_matrix. simpl. rewrite length_map, length_seq. lia.
    + exact Hw.
  - rewrite length_app, HPl, Hx. simpl. lia.
Qed.

Lemma inv_fits_perm_T a n ps :
  length ps = n -> (forall j, In j ps -> j < n) -> NoDup ps ->
  affine a = transpose (S n) (perm_matrix n ps) -> ndim (at_output_coords a) = n ->
  coord_dtype (at_input_coords a) = coord_dtype (at_output_coords a) -> inv_fits (Affine a).
Proof.
  intros Hl Hb Hnd HP Hn Hd i Hi. unfold inverse in Hi. rewrite HP in Hi.
  destruct (linalg_inv (transpose (S n) (perm_matrix n ps))) as [B|] eqn:HB; [|discriminate].
  destruct (AffineTransform_new _ _ _ _) as [r|e] eqn:Er; cbn [bind] in Hi; [|discriminate].
  injection Hi as <-. rewrite (AffineTransform_new_function _ _ _ _ _ Er).
  intros x y Hx Hfx E. cbn [output_coords input_coords] in *. rewrite Hn in Hx.
  rewrite <- Hd in Hfx. exact (vec_fits_perm_T_inv _ n ps B x y Hl Hb Hnd HB Hx Hfx E).
Qed.

Lemma mapM_nth_name_ok names ps :
  (forall j, In j ps -> j < length names) ->
  mapM (nth_name names) ps = Ok (map (fun i => nth i names ""%string) ps).
Proof.
  intros Hb. apply mapM_map_ok. intros i Hi. unfold nth_name.
  rewrite (nth_error_nth' names ""%string (Hb i Hi)). reflexivity.
Qed.

Lemma NoDup_map_nth_names names ps :
  NoDup names -> NoDup ps -> (forall j, In j ps -> j < length names) ->
  NoDup (map (fun i => nth i names ""%string) ps).
Proof.
  intros Hn. induction ps as [|p ps IH]; intros Hp Hb; simpl; [constructor|].
  inversion Hp as [|? ? Hnp Hps]; subst. constructor.
  - intros Hin. apply in_map_iff in Hin as (q & Eq & Hq). apply Hnp.
    assert (p = q); [|subst; exact Hq].
    apply (proj1 (NoDup_nth names ""%string) Hn).
    + apply Hb. left. reflexivity.
    + apply Hb. right. exact Hq.
    + symmetry. exact Eq.
  - apply IH; auto. intros j Hj. apply Hb. right. exact Hj.
Qed.

(** ** [reordered_output] *)

Lemma reordered_output_core c ord ps name :
  well_behaved c -> distinctb (coord_names (output_coords c)) = true ->
  resolve_order (output_coords c) ord = Ok ps -> length ps = ndim (output_coords c) ->
  (forall j, In j ps -> j < ndim (output_coords c)) -> NoDup ps ->
  exists r, reordered_output c ord name = Ok r
    /\ well_behaved r
    /\ input_coords r = input_coords c
    /\ output_coords r
       = mkCS (map (fun i => nth i (coord_names (output_coords c)) ""%string) ps)
              (if String.eqb name "" then cs_name (output_coords c) else name)
              (coord_dtype (output_coords c))
    /\ forall x y, length x = ndim (input_coords c) -> function c x = Ok y ->
         function r x = Ok (map (fun j => nth j y 0%Qc) ps).
Proof.
  intros Hc Hd Hne Hl Hb Hnd.
  set (n := ndim (output_coords c)) in *.
  set (newaxes := map (fun i => nth i (coord_names (output_coords c)) ""%string) ps).
  assert (Hdn : distinctb newaxes = true).
  { apply distinctb_NoDup, NoDup_map_nth_names; auto. apply distinctb_NoDup, Hd. }
  destruct (rows_have_transpose_perm n ps Hl Hb) as (HPr & HPl).
  unfold reordered_output. cbv zeta. unfold ndims. cbn [snd]. fold n.
  rewrite Hne. cbn [bind].
  rewrite mapM_nth_name_ok by exact Hb. cbn [bind]. fold newaxes.
  unfold CoordinateSystem_new at 1. rewrite Hdn. cbn [bind].
  unfold AffineTransform_new, safe_dtype. cbn [fold_right coord_dtype coord_names cs_name].
  rewrite safe_dtype_same3, CoordinateSystem_new_self by exact Hd. cbn [bind].
  unfold CoordinateSystem_new at 1. rewrite Hdn. cbn [bind].
  unfold ndim at 1 2. cbn [coord_names]. fold n.
  replace (length newaxes) with n by (unfold newaxes; rewrite length_map; auto).
  change (length (coord_names (output_coords c))) with n.
  rewrite HPl, Nat.eqb_refl, HPr. cbn [andb].
  set (newoutc := mkCS newaxes _ (coord_dtype (output_coords c))).
  set (P := transpose (S n) (perm_matrix n ps)).
  assert (Hwf : wf_affine (mkAffineTransform P (output_coords c) newoutc)).
  { unfold wf_affine. cbn [affine at_input_coords at_output_coords].
    unfold newoutc, ndim at 1. cbn [coord_names coord_dtype].
    replace (length newaxes) with n by (unfold newaxes; rewrite length_map; auto).
    split; [exact HPl|]. split; [exact HPr|]. split; [exact Hd|]. split; [exact Hdn|].
    split; [reflexivity|]. unfold P. rewrite transpose_perm_matrix by assumption.
    apply mat_fits_hom_of_intro; [|apply vec_fits_zeros].
    apply mat_fits_spec. intros r Hr. apply in_map_iff in Hr as (i & <- & _).
    apply vec_fits_unit_vec. }
  destruct (compose_eval (Affine (mkAffineTransform P (output_coords c) newoutc)) [c])
    as (r & Hr & Hwr & Hin & Hout & Hf).
  - constructor; [exact Hwf|constructor; [exact Hc|constructor]].
  - simpl. auto.
  - left. simpl. lia.
  - exists r. split; [exact Hr|]. split.
    { apply Hwr. destruct c as [g|a]; [right|left; reflexivity].
      constructor; [|constructor; [apply wb_inv_fits_generic, Hc|constructor]].
      apply (inv_fits_perm_T _ n ps Hl Hb Hnd); [reflexivity| |reflexivity].
      unfold newoutc, ndim. cbn [at_output_coords coord_names]. unfold newaxes.
      rewrite length_map. exact Hl. }
    split; [exact Hin|]. split; [exact Hout|].
    intros x y Hx Hy. rewrite Hf by exact Hx. rewrite chain_two, Hy.
    cbn [bind function affine].
    destruct (wb_function c Hc x Hx) as (y' & Hy' & Hly). rewrite Hy in Hy'. injection Hy' as <-.
    apply affine_function_perm_T; auto.
Qed.

Lemma position_nth s l i : position s l = Some i -> i < length l /\ nth i l ""%string = s.
Proof.
  revert i; induction l as [|x l IH]; intros i H; simpl in H; [discriminate|].
  destruct (String.eqb x s) eqn:E.
  - injection H as <-. apply String.eqb_eq in E. simpl. split; [lia|exact E].
  - destruct (position s l) as [j|] eqn:Ej; [|discriminate]. injection H as <-.
    destruct (IH j eq_refl) as (H1 & H2). simpl. split; [lia|exact H2].
Qed.

Lemma position_In s l : In s l -> exists i, position s l = Some i.
Proof.
  induction l as [|x l IH]; intros H; simpl; [destruct H|].
  destruct (String.eqb x s) eqn:E; [eauto|].
  destruct H as [->|H]; [rewrite String.eqb_refl in E; discriminate|].
  destruct (IH H) as (i & ->). eauto.
Qed.

Lemma mapM_cs_index_ok cs ns :
  (forall s, In s ns -> In s (coord_names cs)) ->
  exists ps, mapM (cs_index cs) ns = Ok ps
    /\ map (fun i => nth i (coord_names cs) ""%string) ps = ns
    /\ forall j, In j ps -> j < ndim cs.
Proof.
  induction ns as [|s ns IH]; intros H.
  - exists []. simpl. split; [reflexivity|]. split; [reflexivity|]. intros j [].
  - destruct (position_In s (coord_names cs) (H s (or_introl eq_refl))) as (i & Hi).
    destruct (IH (fun s' Hs' => H s' (or_intror Hs'))) as (ps & Hps & Hmap & Hb).
    exists (i :: ps). simpl. unfold cs_index at 1. rewrite Hi. cbn [bind]. rewrite Hps.
    destruct (position_nth _ _ _ Hi) as (Hl & Hn).
    split; [reflexivity|]. split; [rewrite Hn, Hmap; reflexivity|].
    intros j [<-|Hj]; [exact Hl|exact (Hb j Hj)].
Qed.

Lemma rev_seq_order n :
  length (rev (seq 0 n)) = n /\ (forall j, In j (rev (seq 0 n)) -> j < n) /\ NoDup (rev (seq 0 n)).
Proof.
  split; [rewrite length_rev, length_seq; reflexivity|]. split.
  - intros j Hj. apply in_rev, in_seq in Hj. lia.
  - apply NoDup_rev, seq_NoDup.
Qed.

Lemma map_nth_rev_seq {A : Type} (l : list A) d :
  map (fun j => nth j l d) (rev (seq 0 (length l))) = rev l.
Proof. rewrite map_rev, map_nth_seq. reflexivity. Qed.

Lemma reordered_output_none c name :
  well_behaved c -> distinctb (coord_names (output_coords c)) = true ->
  exists r, reordered_output c None name = Ok r
    /\ well_behaved r
    /\ input_coords r = input_coords c
    /\ output_coords r
       = mkCS (rev (coord_names (output_coords c)))
              (if String.eqb name "" then cs_name (output_coords c) else name)
              (coord_dtype (output_coords c))
    /\ forall x y, length x = ndim (input_coords c) -> function c x = Ok y ->
         function r x = Ok (rev y).
Proof.
  intros Hc Hd. set (n := ndim (output_coords c)).
  destruct (rev_seq_order n) as (Hl & Hb & Hnd).
  destruct (reordered_output_core c None (rev (seq 0 n)) name Hc Hd eq_refl Hl Hb Hnd)
    as (r & Hr & Hwr & Hin & Hout & Hf).
  exists r. split; [exact Hr|]. split; [exact Hwr|]. split; [exact Hin|]. split.
  - rewrite Hout. f_equal. apply map_nth_rev_seq.
  - intros x y Hx Hy. rewrite (Hf x y Hx Hy).
    destruct (wb_function c Hc x Hx) as (y' & Hy' & Hly). rewrite Hy in Hy'. injection Hy' as <-.
    f_equal. fold n in Hly. rewrite <- Hly. apply map_nth_rev_seq.
Qed.

Lemma mapM_cs_index_err cs ns :
  (exists s, In s ns /\ ~ In s (coord_names cs)) ->
  exists s, In s ns /\ ~ In s (coord_names cs)
    /\ mapM (cs_index cs) ns = Err (ValueError (NoSuchAxis s)).
Proof.
  induction ns as [|s0 ns IH]; intros (s & Hin & Hn); [destruct Hin|].
  simpl. unfold cs_index at 1. destruct (position s0 (coord_names cs)) as [i|] eqn:E.
  - destruct (position_nth _ _ _ E) as (Hl & Hnth).
    assert (H0 : In s0 (coord_names cs)) by (rewrite <- Hnth; apply nth_In; exact Hl).
    destruct IH as (s1 & H1 & H2 & H3).
    + destruct Hin as [<-|Hin]; [contradiction|]. eauto.
    + exists s1. cbn [bind]. rewrite H3. split; [right; exact H1|]. split; [exact H2|reflexivity].
  - exists s0. split; [left; reflexivity|]. split; [|reflexivity].
    intros H. destruct (position_In _ _ H) as (i & Hi). congruence.
Qed.

Lemma mapM_nth_name_err names ps :
  (exists j, In j ps /\ length names <= j) -> mapM (nth_name names) ps = Err IndexError.
Proof.
  induction ps as [|p ps IH]; intros (j & Hin & Hj); [destruct Hin|].
  simpl. unfold nth_name at 1. destruct (nth_error names p) as [s|] eqn:E; [|reflexivity].
  assert (p < length names) by (apply nth_error_Some; congruence).
  destruct Hin as [<-|Hin]; [lia|]. cbn [bind]. rewrite IH by eauto. reflexivity.
Qed.

(** The output axes of [c], as the new order [ps] of their positions,
    taking the values of the point [c x] in that order. *)
Theorem reordered_output_spec (c : cmap) (ps : list nat) (name : string) :
  well_behaved c -> distinctb (coord_names (output_coords c)) = true ->
  ps <> [] -> length ps = ndim (output_coords c) ->
  (forall j, In j ps -> j < ndim (output_coords c)) -> NoDup ps ->
  exists r, reordered_output c (Some (ByPositions ps)) name = Ok r
    /\ input_coords r = input_coords c
    /\ output_coords r
       = mkCS (map (fun i => nth i (coord_names (output_coords c)) ""%string) ps)
              (if String.eqb name "" then cs_name (output_coords c) else name)
              (coord_dtype (output_coords c))
    /\ forall x y, length x = ndim (input_coords c) -> function c x = Ok y ->
         function r x = Ok (map (fun j => nth j y 0%Qc) ps).
Proof.
  intros Hc Hd Hne Hl Hb Hnd.
  assert (Hres : resolve_order (output_coords c) (Some (ByPositions ps)) = Ok ps)
    by (destruct ps; [congruence|reflexivity]).
  destruct (reordered_output_core c _ ps name Hc Hd Hres Hl Hb Hnd) as (r & Hr & _ & H).
  exists r. split; [exact Hr|exact H].
Qed.

(** [reordered_output] with the new order given as the output axis names
    [ns], a permutation of them, returns a transform whose output axes are
    [ns] and which takes the values of the point [c x] at the positions
    [ps] of these names. *)
Theorem reordered_output_by_names (c : cmap) (ns : list string) (name : string) :
  well_behaved c -> distinctb (coord_names (output_coords c)) = true ->
  ns <> [] -> NoDup ns -> length ns = ndim (output_coords c) ->
  (forall s, In s ns -> In s (coord_names (output_coords c))) ->
  exists ps r, map (fun i => nth i (coord_names (output_coords c)) ""%string) ps = ns
    /\ reordered_output c (Some (ByNames ns)) name = Ok r
    /\ input_coords r = input_coords c
    /\ output_coords r
       = mkCS ns (if String.eqb name "" then cs_name (output_coords c) else name)
              (coord_dtype (output_coords c))
    /\ forall x y, length x = ndim (input_coords c) -> function c x = Ok y ->
         function r x = Ok (map (fun j => nth j y 0%Qc) ps).
Proof.
  intros Hc Hd Hne Hnd Hl Hin.
  destruct (mapM_cs_index_ok _ _ Hin) as (ps & Hps & Hmap & Hb).
  assert (Hres : resolve_order (output_coords c) (Some (ByNames ns)) = Ok ps)
    by (destruct ns; [congruence|exact Hps]).
  assert (Hlp : length ps = ndim (output_coords c))
    by (rewrite <- Hl, <- Hmap, length_map; reflexivity).
  assert (Hndp : NoDup ps) by (rewrite <- Hmap in Hnd; exact (NoDup_map_inv _ _ Hnd)).
  destruct (reordered_output_core c _ ps name Hc Hd Hres Hlp Hb Hndp)
    as (r & Hr & _ & Hi & Ho & Hf).
  exists ps, r. split; [exact Hmap|]. split; [exact Hr|]. split; [exact Hi|].
  split; [rewrite Ho, Hmap; reflexivity|exact Hf].
Qed.

(** [reordered_output] with [order] omitted reverses the output axes and
    the values of every point; applied twice it restores the output axis
    names and precision, keeps the input coordinate system and evaluates
    as the original transform. *)
Theorem reordered_output_reverse_twice (c : cmap) (n1 n2 : string) :
  well_behaved c -> distinctb (coord_names (output_coords c)) = true ->
  exists r1 r2, reordered_output c None n1 = Ok r1 /\ reordered_output r1 None n2 = Ok r2
    /\ coord_names (output_coords r1) = rev (coord_names (output_coords c))
    /\ (forall x y, length x = ndim (input_coords c) -> function c x = Ok y ->
          function r1 x = Ok (rev y))
    /\ input_coords r2 = input_coords c
    /\ coord_names (output_coords r2) = coord_names (output_coords c)
    /\ coord_dtype (output_coords r2) = coord_dtype (output_coords c)
    /\ forall x, length x = ndim (input_coords c) -> function r2 x = function c x.
Proof.
  intros Hc Hd.
  destruct (reordered_output_none c n1 Hc Hd) as (r1 & H1 & Hw1 & Hi1 & Ho1 & Hf1).
  assert (Hd1 : distinctb (coord_names (output_coords r1)) = true)
    by (rewrite Ho1; cbn [coord_names]; rewrite distinctb_rev; exact Hd).
  destruct (reordered_output_none r1 n2 Hw1 Hd1) as (r2 & H2 & _ & Hi2 & Ho2 & Hf2).
  exists r1, r2. split; [exact H1|]. split; [exact H2|].
  split; [rewrite Ho1; reflexivity|]. split; [exact Hf1|].
  split; [rewrite Hi2; exact Hi1|].
  split; [rewrite Ho2, Ho1; apply rev_involutive|].
  split; [rewrite Ho2, Ho1; reflexivity|].
  intros x Hx. destruct (wb_function c Hc x Hx) as (y & Hy & _).
  rewrite Hy. rewrite <- Hi1 in Hx. rewrite (Hf2 x (rev y) Hx).
  - rewrite rev_involutive. reflexivity.
  - rewrite Hi1 in Hx. exact (Hf1 x y Hx Hy).
Qed.

(** [reordered_output] raises a [ValueError] naming an axis name of the
    order that is not an output axis name, an [IndexError] for a position
    out of range, and an [IndexError] for an empty order. *)
Theorem reordered_output_errors (c : cmap) :
  (forall ns name, (exists s, In s ns /\ ~ In s (coord_names (output_coords c))) ->
     exists s, In s ns /\ ~ In s (coord_names (output_coords c))
       /\ reordered_output c (Some (ByNames ns)) name = Err (ValueError (NoSuchAxis s)))
  /\ (forall ps name, (exists j, In j ps /\ ndim (output_coords c) <= j) ->
       reordered_output c (Some (ByPositions ps)) name = Err IndexError)
  /\ (forall name, reordered_output c (Some (ByNames [])) name = Err IndexError
                   /\ reordered_output c (Some (ByPositions [])) name = Err IndexError).
Proof.
  split; [|split].
  - intros ns name Hm. destruct (mapM_cs_index_err _ _ Hm) as (s & Hs & Hn & He).
    exists s. split; [exact Hs|]. split; [exact Hn|].
    unfold reordered_output. cbv zeta.
    destruct ns as [|s0 ns]; [destruct Hs|]. cbn [resolve_order]. rewrite He. reflexivity.
  - intros ps name Hm. unfold reordered_output. cbv zeta.
    destruct ps as [|p ps]; [destruct Hm as (j & [] & _)|]. cbn [resolve_order bind].
    rewrite mapM_nth_name_err by exact Hm. reflexivity.
  - intros name. split; reflexivity.
Qed.

Lemma reordered_output_spec_witness :
  let c := Affine (mkAffineTransform (diag [qc 1; qc 2; qc 3; qc 1])
                    (mkCS ["i"; "j"; "k"] "" Float64) (mkCS ["x"; "y"; "z"] "" Float64)) in
  well_behaved c
  /\ exists r, reordered_output c (Some (ByPositions [1; 2; 0])) "neworder" = Ok r
     /\ input_coords r = mkCS ["i"; "j"; "k"] "" Float64
     /\ output_coords r = mkCS ["y"; "z"; "x"] "neworder" Float64
     /\ function r [qc 1; qc 1; qc 1] = Ok [qc 2; qc 3; qc 1].
Proof.
  intros c.
  assert (Hw : well_behaved c) by (unfold well_behaved, wf_affine; repeat split; vm_compute; reflexivity).
  split; [exact Hw|].
  destruct (reordered_output_spec c [1; 2; 0] "neworder" Hw eq_refl ltac:(discriminate) eq_refl
              ltac:(intros j Hj; simpl in Hj; cbn; lia) ltac:(repeat constructor; simpl; lia))
    as (r & Hr & Hi & Ho & Hf).
  exists r. split; [exact Hr|]. split; [rewrite Hi; reflexivity|]. split; [rewrite Ho; reflexivity|].
  rewrite (Hf [qc 1; qc 1; qc 1] [qc 1; qc 2; qc 3]);
    [vm_compute; reflexivity|reflexivity|vm_compute; reflexivity].
Defined.

Lemma reordered_output_by_names_witness :
  let c := Affine (mkAffineTransform (diag [qc 1; qc 2; qc 3; qc 1])
                    (mkCS ["i"; "j"; "k"] "" Float64) (mkCS ["x"; "y"; "z"] "" Float64)) in
  well_behaved c
  /\ exists ps r, map (fun i => nth i ["x"; "y"; "z"] ""%string) ps = ["x"; "z"; "y"]
     /\ reordered_output c (Some (ByNames ["x"; "z"; "y"])) "neworder" = Ok r
     /\ output_coords r = mkCS ["x"; "z"; "y"] "neworder" Float64
     /\ function r [qc 1; qc 1; qc 1] = Ok (map (fun j => nth j [qc 1; qc 2; qc 3] 0%Qc) ps).
Proof.
  intros c.
  assert (Hw : well_behaved c) by (unfold well_behaved, wf_affine; repeat split; vm_compute; reflexivity).
  split; [exact Hw|].
  destruct (reordered_output_by_names c ["x"; "z"; "y"] "neworder" Hw eq_refl ltac:(discriminate)
              ltac:(repeat constructor; simpl; intuition discriminate) eq_refl
              ltac:(intros s Hs; simpl in Hs |- *; intuition))
    as (ps & r & Hm & Hr & Hi & Ho & Hf).
  exists ps, r. split; [exact Hm|]. split; [exact Hr|]. split; [rewrite Ho; reflexivity|].
  apply Hf; [reflexivity|vm_compute; reflexivity].
Defined.

Lemma reordered_output_reverse_twice_witness :
  let c := Affine (mkAffineTransform (diag [qc 1; qc 2; qc 3; qc 1])
                    (mkCS ["i"; "j"; "k"] "" Float64) (mkCS ["x"; "y"; "z"] "" Float64)) in
  well_behaved c
  /\ exists r1 r2, reordered_output c None "" = Ok r1 /\ reordered_output r1 None "" = Ok r2
     /\ coord_names (output_coords r1) = ["z"; "y"; "x"]
     /\ function r1 [qc 1; qc 1; qc 1] = Ok [qc 3; qc 2; qc 1]
     /\ coord_names (output_coords r2) = ["x"; "y"; "z"]
     /\ function r2 [qc 1; qc 1; qc 1] = Ok [qc 1; qc 2; qc 3].
Proof.
  intros c.
  assert (Hw : well_behaved c) by (unfold well_behaved, wf_affine; repeat split; vm_compute; reflexivity).
  split; [exact Hw|].
  destruct (reordered_output_reverse_twice c "" "" Hw eq_refl)
    as (r1 & r2 & H1 & H2 & Hn1 & Hf1 & _ & Hn2 & _ & Hf2).
  exists r1, r2. split; [exact H1|]. split; [exact H2|]. split; [exact Hn1|].
  split; [rewrite (Hf1 [qc 1; qc 1; qc 1] [qc 1; qc 2; qc 3]);
          [vm_compute; reflexivity|reflexivity|vm_compute; reflexivity]|].
  split; [exact Hn2|]. rewrite Hf2 by reflexivity. vm_compute. reflexivity.
Defined.

Lemma reordered_output_errors_witness :
  let c := Affine (mkAffineTransform (diag [qc 1; qc 2; qc 3; qc 1])
                    (mkCS ["i"; "j"; "k"] "" Float64) (mkCS ["x"; "y"; "z"] "" Float64)) in
  (exists s, In s ["x"; "w"] /\ ~ In s ["x"; "y"; "z"]
     /\ reordered_output c (Some (ByNames ["x"; "w"])) "" = Err (ValueError (NoSuchAxis s)))
  /\ reordered_output c (Some (ByPositions [0; 3; 1])) "" = Err IndexError.
Proof.
  intros c. split.
  - apply (proj1 (reordered_output_errors c)).
    exists "w"%string. split; [simpl; auto|]. simpl. intuition discriminate.
  - apply (proj1 (proj2 (reordered_output_errors c))).
    exists 3. split; [simpl; auto|]. cbn. lia.
Defined.

(** ** [from_params], [from_start_step] and [identity] *)

Lemma from_params_shape_err innames outnames params mdt :
  length params <> length outnames + 1 \/ rows_have (length innames + 1) params = false ->
  from_params innames outnames params mdt = Err (ValueError ShapeAndNamesDisagree).
Proof.
  intros H. unfold from_params.
  destruct (Nat.eqb (length params) (length outnames + 1)) eqn:E1; [|reflexivity].
  apply Nat.eqb_eq in E1. destruct H as [H | ->]; [contradiction|reflexivity].
Qed.

Lemma from_params_names_err innames outnames params mdt :
  length params = length outnames + 1 -> rows_have (length innames + 1) params = true ->
  distinctb innames = false \/ distinctb outnames = false ->
  from_params innames outnames params mdt = Err (ValueError CoordNamesNotDistinct).
Proof.
  intros Hl Hr H. unfold from_params. rewrite Hl, Nat.eqb_refl, Hr. cbn [andb].
  unfold CoordinateSystem_new at 1. destruct (distinctb innames) eqn:Ei; [|reflexivity].
  cbn [bind]. unfold CoordinateSystem_new. destruct H as [H|H]; [congruence|rewrite H; reflexivity].
Qed.

Lemma from_params_ok innames outnames params mdt :
  length params = length outnames + 1 -> rows_have (length innames + 1) params = true ->
  distinctb innames = true -> distinctb outnames = true ->
  from_params innames outnames params mdt
  = Ok (Affine (mkAffineTransform params (mkCS innames "input" (dtype_lub mdt Float64))
                                         (mkCS outnames "output" (dtype_lub mdt Float64)))).
Proof.
  intros Hl Hr Hi Ho. unfold from_params. rewrite Hl, Nat.eqb_refl, Hr. cbn [andb].
  unfold CoordinateSystem_new. rewrite Hi, Ho. cbn [bind].
  unfold AffineTransform_new, CoordinateSystem_new. cbn [coord_names cs_name]. rewrite Hi, Ho.
  cbn [bind]. unfold ndim. cbn [coord_names]. rewrite Hl, Nat.eqb_refl, Hr. cbn [andb].
  destruct mdt; reflexivity.
Qed.

Lemma length_diag d : length (diag d) = length d.
Proof. unfold diag. rewrite length_map, length_seq. reflexivity. Qed.

Lemma ncols_diag d : ncols (diag d) = length d.
Proof.
  unfold ncols, diag. destruct d as [|a d]; [reflexivity|].
  cbn [length seq map hd]. rewrite length_map, length_seq. reflexivity.
Qed.

Lemma rows_have_diag d : rows_have (length d) (diag d) = true.
Proof.
  apply rows_have_spec. intros r Hr. unfold diag in Hr. apply in_map_iff in Hr as (i & <- & _).
  rewrite length_map, length_seq. reflexivity.
Qed.

Lemma mat_vec_diag d x :
  length x = length d ->
  mat_vec (diag d) x = map (fun i => (nth i d 0 * nth i x 0)%Qc) (seq 0 (length d)).
Proof.
  intros Hx. unfold mat_vec, diag. rewrite map_map. apply map_ext_in. intros i Hi.
  apply in_seq in Hi.
  replace (map (fun j => if Nat.eqb i j then nth i d 0%Qc else 0%Qc) (seq 0 (length d)))
    with (vscale (nth i d 0%Qc) (unit_vec (length d) i)).
  - rewrite dot_vscale_l, dot_comm, dot_unit_vec by lia. reflexivity.
  - unfold vscale, unit_vec. rewrite map_map. apply map_ext. intros j.
    rewrite Nat.eqb_sym. destruct (Nat.eqb i j); ring.
Qed.

Lemma diag_ones n : diag (repeat 1%Qc n) = identity n.
Proof.
  unfold diag, identity, unit_vec. rewrite repeat_length. apply map_ext_in. intros i Hi.
  apply in_seq in Hi. apply map_ext. intros j. rewrite Nat.eqb_sym.
  destruct (Nat.eqb j i); [apply nth_repeat_lt; lia|reflexivity].
Qed.

Lemma from_start_step_ok innames outnames start step mdt :
  length outnames = length innames -> length start = length innames ->
  length step = length innames ->
  distinctb innames = true -> distinctb outnames = true ->
  from_start_step innames outnames start step mdt
  = Ok (Affine (mkAffineTransform (hom_of (diag step) start (length innames))
                  (mkCS innames "input" (dtype_lub mdt Float64))
                  (mkCS outnames "output" (dtype_lub mdt Float64)))).
Proof.
  intros Ho Hs Hst Hi Hon. unfold from_start_step. cbv zeta.
  rewrite Ho, Nat.eqb_refl. cbn [negb].
  unfold from_matrix_vector. rewrite length_diag, Hs, Hst, Nat.eqb_refl. cbn [bind].
  rewrite ncols_diag, Hst. apply from_params_ok; auto.
  - rewrite length_hom_of by (rewrite length_diag; lia). rewrite length_diag. lia.
  - rewrite <- Hst. apply rows_have_hom_of. apply rows_have_diag.
Qed.

Lemma affine_function_start_step start step x :
  length start = length step -> length x = length step ->
  affine_function (hom_of (diag step) start (length step)) x
  = Ok (map (fun i => (nth i step 0 * nth i x 0 + nth i start 0)%Qc) (seq 0 (length step))).
Proof.
  intros Hs Hx. rewrite affine_function_hom_of by (rewrite length_diag; lia).
  rewrite mat_vec_diag by exact Hx. f_equal.
  transitivity (vadd (map (fun i => (nth i step 0 * nth i x 0)%Qc) (seq 0 (length step)))
                     (map (fun i => nth i start 0%Qc) (seq 0 (length step)))).
  - f_equal. rewrite <- Hs. symmetry. apply map_nth_seq.
  - unfold vadd. apply zipWith_map_map.
Qed.

(** [AffineTransform.from_params] raises a [ValueError] when the matrix is
    not of shape [(len(outnames)+1, len(innames)+1)], and one when either
    list of names has a repeated name. Otherwise it returns the transform
    with this matrix, from the input axes [innames] labelled ['input'] to
    the output axes [outnames] labelled ['output']. *)
Theorem from_params_spec (innames outnames : list string) (params : mat) (mdt : dtype) :
  (length params <> length outnames + 1 \/ rows_have (length innames + 1) params = false ->
     from_params innames outnames params mdt = Err (ValueError ShapeAndNamesDisagree))
  /\ (length params = length outnames + 1 -> rows_have (length innames + 1) params = true ->
      distinctb innames = false \/ distinctb outnames = false ->
      from_params innames outnames params mdt = Err (ValueError CoordNamesNotDistinct))
  /\ (length params = length outnames + 1 -> rows_have (length innames + 1) params = true ->
      distinctb innames = true -> distinctb outnames = true ->
      from_params innames outnames params mdt
      = Ok (Affine (mkAffineTransform params (mkCS innames "input" (dtype_lub mdt Float64))
                                             (mkCS outnames "output" (dtype_lub mdt Float64))))).
Proof.
  split; [apply from_params_shape_err|]. split; [apply from_params_names_err|apply from_params_ok].
Qed.

Lemma from_params_spec_witness :
  from_params ["i"; "j"] ["x"] (identity 3) Float64 = Err (ValueError ShapeAndNamesDisagree)
  /\ from_params ["i"; "i"] ["x"; "y"] (identity 3) Float64 = Err (ValueError CoordNamesNotDistinct)
  /\ from_params ["i"; "j"] ["x"; "y"] (identity 3) Int64
     = Ok (Affine (mkAffineTransform (identity 3) (mkCS ["i"; "j"] "input" Float64)
                                                  (mkCS ["x"; "y"] "output" Float64))).
Proof.
  split; [|split].
  - apply (proj1 (from_params_spec ["i"; "j"] ["x"] (identity 3) Float64)). left. discriminate.
  - apply (proj1 (proj2 (from_params_spec ["i"; "i"] ["x"; "y"] (identity 3) Float64)));
      [reflexivity|vm_compute; reflexivity|left; reflexivity].
  - apply (proj2 (proj2 (from_params_spec ["i"; "j"] ["x"; "y"] (identity 3) Int64)));
      [reflexivity|vm_compute; reflexivity|reflexivity|reflexivity].
Defined.

(** [AffineTransform.from_start_step] raises a [ValueError] when [innames]
    and [outnames] differ in length. With [n] distinct names on each side
    and [start] and [step] of length [n], it returns the transform with
    matrix [[diag(step), start], [0, 1]], which maps [x] to the point with
    coordinates [step_i * x_i + start_i]. *)
Theorem from_start_step_spec (innames outnames : list string) (start step : vec) (mdt : dtype) :
  (length outnames <> length innames ->
     from_start_step innames outnames start step mdt = Err (ValueError InnamesOutnamesLengths))
  /\ (length outnames = length innames -> length start = length innames ->
      length step = length innames ->
      distinctb innames = true -> distinctb outnames = true ->
      exists r, from_start_step innames outnames start step mdt = Ok r
        /\ r = Affine (mkAffineTransform (hom_of (diag step) start (length innames))
                         (mkCS innames "input" (dtype_lub mdt Float64))
                         (mkCS outnames "output" (dtype_lub mdt Float64)))
        /\ forall x, length x = length innames ->
             function r x
             = Ok (map (fun i => (nth i step 0 * nth i x 0 + nth i start 0)%Qc)
                       (seq 0 (length innames)))).
Proof.
  split.
  - intros H. unfold from_start_step. cbv zeta.
    replace (Nat.eqb (length outnames) (length innames)) with false
      by (symmetry; apply Nat.eqb_neq; exact H). reflexivity.
  - intros Ho Hs Hst Hi Hon. eexists. split; [exact (from_start_step_ok _ _ _ _ mdt Ho Hs Hst Hi Hon)|].
    split; [reflexivity|]. intros x Hx. cbn [function affine]. rewrite <- Hst.
    apply affine_function_start_step; lia.
Qed.

Lemma from_start_step_spec_witness :
  from_start_step ["i"; "j"; "k"] ["x"; "y"] [qc 1; qc 2; qc 3] [qc 4; qc 5; qc 6] Int64
  = Err (ValueError InnamesOutnamesLengths)
  /\ exists r, from_start_step ["i"; "j"; "k"] ["x"; "y"; "z"] [qc 1; qc 2; qc 3] [qc 4; qc 5; qc 6] Int64
               = Ok r
     /\ r = Affine (mkAffineTransform
              [[qc 4; qc 0; qc 0; qc 1]; [qc 0; qc 5; qc 0; qc 2];
               [qc 0; qc 0; qc 6; qc 3]; [qc 0; qc 0; qc 0; qc 1]]
              (mkCS ["i"; "j"; "k"] "input" Float64) (mkCS ["x"; "y"; "z"] "output" Float64))
     /\ function r [qc 1; qc 1; qc 1] = Ok [qc 5; qc 7; qc 9].
Proof.
  split.
  - apply (proj1 (from_start_step_spec ["i"; "j"; "k"] ["x"; "y"] [qc 1; qc 2; qc 3]
                    [qc 4; qc 5; qc 6] Int64)). discriminate.
  - destruct (proj2 (from_start_step_spec ["i"; "j"; "k"] ["x"; "y"; "z"] [qc 1; qc 2; qc 3]
                       [qc 4; qc 5; qc 6] Int64) eq_refl eq_refl eq_refl eq_refl eq_refl)
      as (r & Hr & Hrv & Hf).
    exists r. split; [exact Hr|]. split; [rewrite Hrv; vm_compute; reflexivity|].
    rewrite Hf by reflexivity. vm_compute. reflexivity.
Defined.

(** [AffineTransform.identity(names)] with distinct names returns the
    transform with the identity matrix of size [len(names)+1], from the axes
    [names] labelled ['input'] to the same axes labelled ['output'], at
    precision [float64]; it maps every point to itself. A repeated name
    makes it raise a [ValueError]. *)
Theorem AffineTransform_identity_spec (names : list string) :
  (distinctb names = true ->
     exists r, AffineTransform_identity names = Ok r
       /\ r = Affine (mkAffineTransform (identity (S (length names)))
                        (mkCS names "input" Float64) (mkCS names "output" Float64))
       /\ forall x, length x = length names -> function r x = Ok x)
  /\ (distinctb names = false ->
      AffineTransform_identity names = Err (ValueError CoordNamesNotDistinct)).
Proof.
  split.
  - intros Hd. unfold AffineTransform_identity.
    rewrite from_start_step_ok by (rewrite ?length_zeros, ?repeat_length; auto).
    eexists. split; [reflexivity|]. split.
    + rewrite diag_ones, <- identity_hom. reflexivity.
    + intros x Hx. cbn [function affine]. rewrite diag_ones, <- identity_hom.
      apply affine_function_identity. exact Hx.
  - intros Hd. unfold AffineTransform_identity, from_start_step. cbv zeta.
    rewrite Nat.eqb_refl. cbn [negb]. unfold from_matrix_vector.
    rewrite length_diag, repeat_length, length_zeros, Nat.eqb_refl. cbn [bind].
    apply from_params_names_err; [|rewrite ncols_diag, repeat_length, diag_ones; apply rows_have_hom_of, rows_have_identity|left; exact Hd].
    rewrite length_hom_of; rewrite ?length_diag, ?repeat_length, ?length_zeros; reflexivity.
Qed.

Lemma AffineTransform_identity_spec_witness :
  (exists r, AffineTransform_identity ["i"; "j"; "k"] = Ok r
     /\ r = Affine (mkAffineTransform (identity 4)
                      (mkCS ["i"; "j"; "k"] "input" Float64) (mkCS ["i"; "j"; "k"] "output" Float64))
     /\ function r [qc 1; qc 2; qc 3] = Ok [qc 1; qc 2; qc 3])
  /\ AffineTransform_identity ["i"; "i"] = Err (ValueError CoordNamesNotDistinct).
Proof.
  split.
  - destruct (proj1 (AffineTransform_identity_spec ["i"; "j"; "k"]) eq_refl) as (r & Hr & Hrv & Hf).
    exists r. split; [exact Hr|]. split; [exact Hrv|]. apply Hf. reflexivity.
  - apply (proj2 (AffineTransform_identity_spec ["i"; "i"])). reflexivity.
Defined.

(** ** [product] of two transforms and [concat] *)

Lemma product_eval cs :
  cs <> [] -> Forall well_behaved cs ->
  distinctb (concat (map coord_names (map input_coords cs))) = true ->
  distinctb (concat (map coord_names (map output_coords cs))) = true ->
  exists r, product cs = Ok r
    /\ coord_names (input_coords r) = concat (map coord_names (map input_coords cs))
    /\ coord_names (output_coords r) = concat (map coord_names (map output_coords cs))
    /\ is_affine r = forallb is_affine cs
    /\ forall x, length x = fold_right Nat.add 0 (map (fun c => fst (ndims c)) cs) ->
         Forall (fun c => vec_fits (coord_dtype (input_coords c)) x = true) cs ->
         function r x = product_function cs x.
Proof.
  intros Hne Hwb Hdi Hdo. destruct (forallb is_affine cs) eqn:Ea.
  - destruct (forallb_is_affine_inv cs Ea) as (ats & ->).
    pose proof (map_Affine_inj_wf ats Hwb) as Hwf.
    assert (Hi : map input_coords (map Affine ats) = map at_input_coords ats)
      by (rewrite map_map; reflexivity).
    assert (Ho : map output_coords (map Affine ats) = map at_output_coords ats)
      by (rewrite map_map; reflexivity).
    assert (Hn : fold_right Nat.add 0 (map (fun c => fst (ndims c)) (map Affine ats)) = total_in ats)
      by (rewrite map_map; reflexivity).
    assert (Hne' : ats <> []) by (intros ->; apply Hne; reflexivity).
    rewrite Hi, Ho, Hn in *.
    rewrite product_affines by assumption.
    eexists. split; [reflexivity|]. split; [reflexivity|]. split; [reflexivity|].
    split; [reflexivity|].
    intros x Hx Hfx. cbn [function affine]. unfold block_affine.
    destruct (lin_block_shape ats Hwf) as (_ & _ & HlB).
    rewrite affine_function_hom_of by (symmetry; exact HlB).
    symmetry. apply product_function_affine; try assumption.
    apply Forall_map in Hfx. exact Hfx.
  - unfold product. cbv zeta. rewrite !coordsys_product_ok by assumption. cbn [bind].
    destruct (product_function_zero cs Hne Hwb) as (y & Hy & Hly & Hfy).
    rewrite Ea, (CoordinateMap_new_zero _ _ _ _ y).
    + eexists. split; [reflexivity|]. split; [reflexivity|]. split; [reflexivity|].
      split; [reflexivity|]. intros x _ _. reflexivity.
    + unfold ndim. cbn [coord_names]. rewrite length_concat_names, map_map. exact Hy.
    + unfold ndim. cbn [coord_names]. rewrite length_concat_names, map_map. exact Hly.
    + exact Hfy.
Qed.

Lemma product_function_two c1 c2 x1 x2 :
  well_behaved c1 -> well_behaved c2 ->
  length x1 = ndim (input_coords c1) -> length x2 = ndim (input_coords c2) ->
  vec_fits (coord_dtype (input_coords c1)) x1 = true ->
  vec_fits (coord_dtype (input_coords c2)) x2 = true ->
  exists y1 y2, function c1 x1 = Ok y1 /\ function c2 x2 = Ok y2
    /\ product_function [c1; c2] (x1 ++ x2) = Ok (y1 ++ y2).
Proof.
  intros H1 H2 Hx1 Hx2 Hf1x Hf2x. unfold product_function. cbn [combine offsets mapM fst snd].
  unfold ndims. cbn [fst].
  assert (S1 : slice 0 (0 + ndim (input_coords c1)) (x1 ++ x2) = x1).
  { rewrite slice_firstn_skipn. cbn [skipn]. rewrite firstn_app, <- Hx1, firstn_all, Nat.sub_diag.
    apply app_nil_r. }
  assert (S2 : slice (0 + ndim (input_coords c1))
                     (0 + ndim (input_coords c1) + ndim (input_coords c2)) (x1 ++ x2) = x2).
  { rewrite slice_firstn_skipn. rewrite skipn_app, skipn_all2 by lia.
    replace (0 + ndim (input_coords c1) - length x1) with 0 by lia. cbn [skipn app].
    rewrite <- Hx2. apply firstn_all. }
  rewrite S1, S2.
  destruct (call_single_ok c1 x1 (wb_ok_cs c1 H1) Hx1 Hf1x) as (y1 & Hc1 & Hf1 & _).
  destruct (call_single_ok c2 x2 (wb_ok_cs c2 H2) Hx2 Hf2x) as (y2 & Hc2 & Hf2 & _).
  exists y1, y2. split; [exact Hf1|]. split; [exact Hf2|].
  match goal with |- context [call c1 ?a] => replace (call c1 a) with (Ok [y1]) by exact (eq_sym Hc1) end.
  cbn [bind].
  match goal with |- context [call c2 ?a] => replace (call c2 a) with (Ok [y2]) by exact (eq_sym Hc2) end.
  cbn [bind]. unfold hstack.
  cbn [map hd concat]. rewrite app_nil_r. reflexivity.
Qed.

Lemma distinctb_cons_fresh t l :
  ~ In t l -> distinctb l = true -> distinctb (t :: l) = true.
Proof.
  intros Hn Hd. cbn [distinctb]. rewrite Hd, andb_true_r.
  destruct (existsb (String.eqb t) l) eqn:E; [|reflexivity].
  apply existsb_eqb_In in E. contradiction.
Qed.

Lemma distinctb_snoc_fresh t l :
  ~ In t l -> distinctb l = true -> distinctb (l ++ [t]) = true.
Proof.
  intros Hn Hd. apply distinctb_NoDup. apply (Permutation_NoDup (Permutation_cons_append l t)).
  apply distinctb_NoDup, distinctb_cons_fresh; assumption.
Qed.

Lemma distinctb_cons_clash t l : In t l -> distinctb (t :: l) = false.
Proof.
  intros H. cbn [distinctb]. replace (existsb (String.eqb t) l) with true
    by (symmetry; apply existsb_eqb_In; exact H). reflexivity.
Qed.

Lemma distinctb_snoc_clash t l : In t l -> distinctb (l ++ [t]) = false.
Proof.
  intros H. destruct (distinctb (l ++ [t])) eqn:E; [|reflexivity].
  apply distinctb_NoDup in E. apply (Permutation_NoDup (Permutation_sym (Permutation_cons_append l t))) in E.
  apply distinctb_NoDup in E. rewrite distinctb_cons_clash in E by exact H. discriminate.
Qed.

Lemma concat_axis_ok t :
  AffineTransform_new (identity 2) Float64 (mkCS [t] "" Float64) (mkCS [t] "" Float64)
  = Ok (Affine (mkAffineTransform (identity 2) (mkCS [t] "" Float64) (mkCS [t] "" Float64))).
Proof. reflexivity. Qed.

Lemma concat_axis_wb t :
  well_behaved (Affine (mkAffineTransform (identity 2) (mkCS [t] "" Float64) (mkCS [t] "" Float64))).
Proof. unfold well_behaved, wf_affine. repeat split. Qed.

Lemma concat_axis_function t t0 :
  function (Affine (mkAffineTransform (identity 2) (mkCS [t] "" Float64) (mkCS [t] "" Float64))) [t0]
  = Ok [t0].
Proof. apply (affine_function_identity 1). reflexivity. Qed.

(** [concat(c, t, append)], for a new axis name [t] and a transform [c]
    whose input precision is not an integer one, adds the axis [t]
    before (or, with [append], after) both the input and the output axes of
    [c]; the result is affine exactly when [c] is, and it maps a point [x]
    extended with a value [t0] on the new axis to [c x] extended with the
    same [t0]. *)
Theorem concat_cmap_spec (c : cmap) (t : string) (append : bool) :
  well_behaved c ->
  distinctb (coord_names (input_coords c)) = true ->
  distinctb (coord_names (output_coords c)) = true ->
  ~ In t (coord_names (input_coords c)) -> ~ In t (coord_names (output_coords c)) ->
  coord_dtype (input_coords c) <> Int64 ->
  exists r, concat_cmap c t append = Ok r
    /\ coord_names (input_coords r)
       = (if append then coord_names (input_coords c) ++ [t] else t :: coord_names (input_coords c))
    /\ coord_names (output_coords r)
       = (if append then coord_names (output_coords c) ++ [t] else t :: coord_names (output_coords c))
    /\ is_affine r = is_affine c
    /\ forall x y t0, length x = ndim (input_coords c) -> function c x = Ok y ->
         function r (if append then x ++ [t0] else t0 :: x)
         = Ok (if append then y ++ [t0] else t0 :: y).
Proof.
  intros Hc Hdi Hdo Hti Hto Hdt.
  set (cc := Affine (mkAffineTransform (identity 2) (mkCS [t] "" Float64) (mkCS [t] "" Float64))).
  unfold concat_cmap, CS.
  change (CoordinateSystem_new [t] "" Float64) with (Ok (mkCS [t] "" Float64) : result CoordinateSystem).
  cbn [bind]. rewrite concat_axis_ok. cbn [bind]. fold cc.
  destruct append.
  - destruct (product_eval [c; cc]) as (r & Hr & Hin & Hout & Ha & Hf).
    + discriminate.
    + constructor; [exact Hc|constructor; [apply concat_axis_wb|constructor]].
    + cbn [map concat coord_names cc input_coords at_input_coords]. rewrite app_nil_r.
      apply distinctb_snoc_fresh; assumption.
    + cbn [map concat coord_names cc output_coords at_output_coords]. rewrite app_nil_r.
      apply distinctb_snoc_fresh; assumption.
    + exists r. split; [exact Hr|].
      split; [rewrite Hin; cbn [map concat]; rewrite app_nil_r; reflexivity|].
      split; [rewrite Hout; cbn [map concat]; rewrite app_nil_r; reflexivity|].
      split; [rewrite Ha; cbn [forallb cc is_affine]; destruct (is_affine c); reflexivity|].
      intros x y t0 Hx Hy. rewrite Hf.
      * destruct (product_function_two c cc x [t0] Hc (concat_axis_wb t) Hx eq_refl
                    (vec_fits_float _ _ Hdt) eq_refl)
          as (y1 & y2 & H1 & H2 & H12).
        rewrite H12. rewrite Hy in H1. injection H1 as <-.
        unfold cc in H2. rewrite concat_axis_function in H2. injection H2 as <-. reflexivity.
      * rewrite length_app, Hx. reflexivity.
      * constructor; [apply vec_fits_float, Hdt|].
        constructor; [apply vec_fits_float; unfold cc; discriminate|constructor].
  - destruct (product_eval [cc; c]) as (r & Hr & Hin & Hout & Ha & Hf).
    + discriminate.
    + constructor; [apply concat_axis_wb|constructor; [exact Hc|constructor]].
    + cbn [map concat coord_names cc input_coords at_input_coords app]. rewrite app_nil_r.
      apply distinctb_cons_fresh; assumption.
    + cbn [map concat coord_names cc output_coords at_output_coords app]. rewrite app_nil_r.
      apply distinctb_cons_fresh; assumption.
    + exists r. split; [exact Hr|].
      split; [rewrite Hin; cbn [map concat app]; rewrite app_nil_r; reflexivity|].
      split; [rewrite Hout; cbn [map concat app]; rewrite app_nil_r; reflexivity|].
      split; [rewrite Ha; cbn [forallb cc is_affine]; destruct (is_affine c); reflexivity|].
      intros x y t0 Hx Hy. rewrite Hf.
      * destruct (product_function_two cc c [t0] x (concat_axis_wb t) Hc eq_refl Hx
                    eq_refl (vec_fits_float _ _ Hdt))
          as (y1 & y2 & H1 & H2 & H12).
        change (t0 :: x) with ([t0] ++ x). rewrite H12. rewrite Hy in H2. injection H2 as <-.
        unfold cc in H1. rewrite concat_axis_function in H1. injection H1 as <-. reflexivity.
      * cbn [length]. rewrite Hx. cbn. lia.
      * constructor; [apply vec_fits_float; unfold cc; discriminate|].
        constructor; [apply vec_fits_float, Hdt|constructor].
Qed.

(** [concat(c, t, append)] raises a [ValueError] when [t] is already an
    input or an output axis name of [c]. *)
Theorem concat_cmap_clash (c : cmap) (t : string) (append : bool) :
  In t (coord_names (input_coords c)) \/ In t (coord_names (output_coords c)) ->
  concat_cmap c t append = Err (ValueError CoordNamesNotDistinct).
Proof.
  intros H. unfold concat_cmap, CS.
  change (CoordinateSystem_new [t] "" Float64) with (Ok (mkCS [t] "" Float64) : result CoordinateSystem).
  cbn [bind]. rewrite concat_axis_ok. cbn [bind].
  destruct append; unfold product; cbv zeta; unfold coordsys_product, CoordinateSystem_new;
    cbn [map concat input_coords output_coords at_input_coords at_output_coords coord_names app];
    rewrite ?app_nil_r.
  - destruct H as [H|H]; [rewrite (distinctb_snoc_clash _ _ H); reflexivity|].
    destruct (distinctb (coord_names (input_coords c) ++ [t])); cbn [bind]; [|reflexivity].
    rewrite (distinctb_snoc_clash _ _ H). reflexivity.
  - destruct H as [H|H]; [rewrite (distinctb_cons_clash _ _ H); reflexivity|].
    destruct (distinctb (t :: coord_names (input_coords c))); cbn [bind]; [|reflexivity].
    rewrite (distinctb_cons_clash _ _ H). reflexivity.
Qed.

Lemma concat_cmap_spec_witness :
  let c := Affine (mkAffineTransform (diag [qc 3; qc 4; qc 5; qc 1])
                    (mkCS ["i"; "j"; "k"] "" Float64) (mkCS ["x"; "y"; "z"] "" Float64)) in
  well_behaved c /\ coord_dtype (input_coords c) <> Int64
  /\ (exists r, concat_cmap c "t" false = Ok r
       /\ r = Affine (mkAffineTransform (diag [qc 1; qc 3; qc 4; qc 5; qc 1])
                (mkCS ["t"; "i"; "j"; "k"] "product" Float64)
                (mkCS ["t"; "x"; "y"; "z"] "product" Float64))
       /\ function r [qc 7; qc 1; qc 1; qc 1] = Ok [qc 7; qc 3; qc 4; qc 5])
  /\ (exists r, concat_cmap c "t" true = Ok r
       /\ r = Affine (mkAffineTransform (diag [qc 3; qc 4; qc 5; qc 1; qc 1])
                (mkCS ["i"; "j"; "k"; "t"] "product" Float64)
                (mkCS ["x"; "y"; "z"; "t"] "product" Float64))
       /\ function r [qc 1; qc 1; qc 1; qc 7] = Ok [qc 3; qc 4; qc 5; qc 7]).
Proof.
  intros c.
  assert (Hw : well_behaved c) by (unfold well_behaved, wf_affine; repeat split; vm_compute; reflexivity).
  assert (Hti : ~ In "t"%string (coord_names (input_coords c))) by (simpl; intuition discriminate).
  assert (Hto : ~ In "t"%string (coord_names (output_coords c))) by (simpl; intuition discriminate).
  assert (Hdt : coord_dtype (input_coords c) <> Int64) by (simpl; discriminate).
  split; [exact Hw|]. split; [exact Hdt|]. split.
  - destruct (concat_cmap_spec c "t" false Hw eq_refl eq_refl Hti Hto Hdt) as (r & Hr & _ & _ & _ & Hf).
    exists r. split; [exact Hr|]. split.
    + vm_compute in Hr. injection Hr as <-. vm_compute. reflexivity.
    + rewrite (Hf [qc 1; qc 1; qc 1] [qc 3; qc 4; qc 5] (qc 7)); [reflexivity|reflexivity|].
      vm_compute. reflexivity.
  - destruct (concat_cmap_spec c "t" true Hw eq_refl eq_refl Hti Hto Hdt) as (r & Hr & _ & _ & _ & Hf).
    exists r. split; [exact Hr|]. split.
    + vm_compute in Hr. injection Hr as <-. vm_compute. reflexivity.
    + pose proof (Hf [qc 1; qc 1; qc 1] [qc 3; qc 4; qc 5] (qc 7) eq_refl) as E.
      cbn [app] in E. rewrite E; [reflexivity|]. vm_compute. reflexivity.
Defined.

Lemma concat_cmap_clash_witness :
  (In "j"%string ["i"; "j"; "k"] \/ In "j"%string ["x"; "y"; "z"])
  /\ concat_cmap (Affine (mkAffineTransform (diag [qc 3; qc 4; qc 5; qc 1])
                    (mkCS ["i"; "j"; "k"] "" Float64) (mkCS ["x"; "y"; "z"] "" Float64))) "j" false
     = Err (ValueError CoordNamesNotDistinct).
Proof.
  split; [left; simpl; auto|]. apply concat_cmap_clash. left. simpl. auto.
Defined.

(** ** Evaluation of [reordered_input] *)

(** [reordered_input] with [order] omitted returns a transform whose input
    axes are reversed and which evaluates [c] at the reversed point. *)
Theorem reordered_input_function (c : cmap) (name : string) :
  well_behaved c -> distinctb (coord_names (input_coords c)) = true ->
  exists r, reordered_input c None name = Ok r
    /\ coord_names (input_coords r) = rev (coord_names (input_coords c))
    /\ output_coords r = output_coords c
    /\ forall x, length x = ndim (input_coords c) -> function r x = function c (rev x).
Proof.
  intros Hc Hd. destruct (reordered_perm_ok c name Hd) as (-> & Hwf).
  set (n := ndim (input_coords c)) in *.
  set (A := Affine (mkAffineTransform (perm_matrix n (rev (seq 0 n)))
              (mkCS (rev (coord_names (input_coords c)))
                 (if String.eqb name "" then cs_name (input_coords c) else name)
                 (coord_dtype (input_coords c))) (input_coords c))).
  destruct (compose_eval c [A]) as (r & Hr & _ & Hin & Hout & Hf).
  - constructor; [exact Hc|constructor; [exact Hwf|constructor]].
  - simpl. auto.
  - left. simpl. lia.
  - exists r. split; [exact Hr|]. split; [rewrite Hin; reflexivity|]. split; [exact Hout|].
    intros x Hx. rewrite Hf.
    + rewrite chain_two. cbn [A function affine]. rewrite affine_function_perm_rev by exact Hx.
      reflexivity.
    + cbn [last A input_coords at_input_coords]. unfold ndim. cbn [coord_names].
      rewrite length_rev. exact Hx.
Qed.

Lemma reordered_input_function_witness :
  let c := Affine (mkAffineTransform (diag [qc 1; qc 2; qc 3; qc 1])
                    (mkCS ["i"; "j"; "k"] "" Float64) (mkCS ["x"; "y"; "z"] "" Float64)) in
  well_behaved c
  /\ exists r, reordered_input c None "" = Ok r
     /\ coord_names (input_coords r) = ["k"; "j"; "i"]
     /\ function r [qc 7; qc 8; qc 9] = Ok [qc 9; qc 16; qc 21].
Proof.
  intros c.
  assert (Hw : well_behaved c) by (unfold well_behaved, wf_affine; repeat split; vm_compute; reflexivity).
  split; [exact Hw|].
  destruct (reordered_input_function c "" Hw eq_refl) as (r & Hr & Hn & _ & Hf).
  exists r. split; [exact Hr|]. split; [exact Hn|].
  rewrite Hf by reflexivity. vm_compute. reflexivity.
Defined.

(** ** Evaluation of [renamed_input] *)

(** [renamed_input], when it succeeds, keeps the output coordinate system
    and the function: the new transform evaluates as [c] at every point. Its
    input coordinate system has the renamed axes, the input precision, and
    the label [name], or, when [name] is empty, the label of the original
    input coordinate system. *)
Theorem renamed_input_function (c : cmap) (m : rename_map) (name : string) :
  well_behaved c -> distinctb (coord_names (input_coords c)) = true ->
  (forall k, In k (map fst m) -> In k (coord_names (input_coords c))) ->
  distinctb (map (fun n => match lookup n m with Some v => v | None => n end)
                 (coord_names (input_coords c))) = true ->
  coord_dtype (input_coords c) <> Int64 ->
  exists r, renamed_input c m name = Ok r
    /\ input_coords r
       = mkCS (map (fun n => match lookup n m with Some v => v | None => n end)
                   (coord_names (input_coords c)))
              (if String.eqb name "" then cs_name (input_coords c) else name)
              (coord_dtype (input_coords c))
    /\ output_coords r = output_coords c
    /\ forall x, length x = ndim (input_coords c) -> function r x = function c x.
Proof.
  intros Hc Hd Hk Hnd Hdt. unfold renamed_input. cbv zeta.
  rewrite check_keys_ok by exact Hk. cbn [bind].
  unfold CoordinateSystem_new at 1. rewrite Hnd. cbn [bind].
  unfold AffineTransform_new, safe_dtype. cbn [fold_right coord_dtype coord_names cs_name].
  rewrite safe_dtype_float_not_int by exact Hdt.
  unfold CoordinateSystem_new at 1. rewrite Hnd. cbn [bind].
  rewrite CoordinateSystem_new_self by exact Hd. cbn [bind].
  unfold ndims. cbn [fst]. set (n := ndim (input_coords c)).
  unfold ndim at 1. cbn [coord_names]. rewrite length_identity, length_map.
  change (length (coord_names (input_coords c))) with n.
  replace (Nat.eqb (S n) (n + 1)) with true by (symmetry; apply Nat.eqb_eq; lia).
  replace (n + 1) with (S n) by lia.
  rewrite rows_have_identity. cbn [andb].
  set (newinc := mkCS _ _ (coord_dtype (input_coords c))).
  assert (Hwf : wf_affine (mkAffineTransform (identity (S n)) newinc (input_coords c))).
  { unfold wf_affine. cbn [affine at_input_coords at_output_coords]. unfold newinc, ndim.
    cbn [coord_names coord_dtype]. rewrite length_identity, length_map.
    change (length (coord_names (input_coords c))) with n.
    split; [lia|]. split; [replace (n + 1) with (S n) by lia; apply rows_have_identity|].
    split; [auto|]. split; [auto|]. split; [reflexivity|]. apply mat_fits_identity. }
  destruct (compose_eval c [Affine (mkAffineTransform (identity (S n)) newinc (input_coords c))])
    as (r & Hr & _ & Hin & Hout & Hf).
  - constructor; [exact Hc|constructor; [exact Hwf|constructor]].
  - simpl. auto.
  - left. simpl. lia.
  - exists r. split; [exact Hr|]. split; [rewrite Hin; reflexivity|]. split; [exact Hout|].
    intros x Hx. rewrite Hf.
    + rewrite chain_two. cbn [function affine]. rewrite affine_function_identity by exact Hx.
      reflexivity.
    + cbn [last input_coords at_input_coords]. unfold newinc, ndim. cbn [coord_names].
      rewrite length_map. exact Hx.
Qed.

Lemma renamed_input_function_witness :
  let c := Affine (mkAffineTransform (diag [qc 1; qc 2; qc 3; qc 1])
                    (mkCS ["i"; "j"; "k"] "" Float64) (mkCS ["x"; "y"; "z"] "" Float64)) in
  well_behaved c
  /\ exists r, renamed_input c [("j", "u")] "new" = Ok r
     /\ input_coords r = mkCS ["i"; "u"; "k"] "new" Float64
     /\ function r [qc 1; qc 1; qc 1] = Ok [qc 1; qc 2; qc 3].
Proof.
  intros c.
  assert (Hw : well_behaved c) by (unfold well_behaved, wf_affine; repeat split; vm_compute; reflexivity).
  split; [exact Hw|].
  destruct (renamed_input_function c [("j", "u")] "new" Hw eq_refl) as (r & Hr & Hin & _ & Hf).
  - simpl. intros k [<-|[]]. right. left. reflexivity.
  - reflexivity.
  - discriminate.
  - exists r. split; [exact Hr|]. split; [rewrite Hin; reflexivity|].
    rewrite Hf by reflexivity. vm_compute. reflexivity.
Defined.

(** ** The probe of [CoordinateMap.__init__] *)

(** [CoordinateMap(function, ...)] probes [function] on the zero point of
    the input dimension only: it raises the error the function raises
    there, a [ValueError] when the function's value there has the wrong
    dimension or is not representable at the output precision, and
    otherwise builds the map. *)
Theorem CoordinateMap_new_probe (f : func) (inc outc : CoordinateSystem) (inv : option func) :
  (forall e, f (zeros (ndim inc)) = Err e -> CoordinateMap_new f inc outc inv = Err e)
  /\ (forall y, f (zeros (ndim inc)) = Ok y -> length y <> ndim outc ->
        CoordinateMap_new f inc outc inv = Err (ValueError ValuesWrongDimension))
  /\ (forall y, f (zeros (ndim inc)) = Ok y -> length y = ndim outc ->
        vec_fits (coord_dtype outc) y = false ->
        CoordinateMap_new f inc outc inv = Err (ValueError ValuesWrongPrecision))
  /\ (forall y, f (zeros (ndim inc)) = Ok y -> length y = ndim outc ->
        vec_fits (coord_dtype outc) y = true ->
        CoordinateMap_new f inc outc inv = Ok (Generic (mkCoordinateMap f inc outc inv))).
Proof.
  pose proof (checked_values_zeros inc 10) as Hin.
  split; [|split; [|split]].
  - intros e He. unfold CoordinateMap_new, call. cbn [input_coords output_coords function cm_input_coords
      cm_output_coords cm_function]. rewrite Hin. cbn [bind].
    rewrite (mapM_repeat_err f _ e 9 He). reflexivity.
  - intros y Hy Hl. unfold CoordinateMap_new, call. cbn [input_coords output_coords function cm_input_coords
      cm_output_coords cm_function]. rewrite Hin. cbn [bind].
    rewrite (mapM_repeat_ok f _ y 10 Hy). cbn [bind]. unfold checked_values, rows_have.
    cbn [repeat forallb]. replace (Nat.eqb (length y) (ndim outc)) with false
      by (symmetry; apply Nat.eqb_neq; exact Hl). reflexivity.
  - intros y Hy Hl Hf. unfold CoordinateMap_new, call. cbn [input_coords output_coords function
      cm_input_coords cm_output_coords cm_function]. rewrite Hin. cbn [bind].
    rewrite (mapM_repeat_ok f _ y 10 Hy). cbn [bind]. unfold checked_values.
    rewrite rows_have_repeat by exact Hl. unfold mat_fits. cbn [repeat forallb].
    rewrite Hf. reflexivity.
  - intros y Hy Hl Hf. exact (CoordinateMap_new_zero f inc outc inv y Hy Hl Hf).
Qed.

Lemma CoordinateMap_new_probe_witness :
  let inc := mkCS ["i"; "j"] "" Float64 in
  let outc := mkCS ["x"; "y"] "" Float64 in
  let half := Q2Qc (1 # 2) in
  CoordinateMap_new (fun _ => Err IndexError) inc outc None = Err IndexError
  /\ CoordinateMap_new (fun x => Ok (x ++ x)) inc outc None = Err (ValueError ValuesWrongDimension)
  /\ CoordinateMap_new (fun x => Ok (map (fun q => (q + half)%Qc) x))
       (mkCS ["i"] "" Int64) (mkCS ["x"] "" Int64) None
     = Err (ValueError ValuesWrongPrecision)
  /\ CoordinateMap_new (fun x => match x with [a; b] => Ok [b; a] | _ => Err IndexError end) inc outc None
     = Ok (Generic (mkCoordinateMap (fun x => match x with [a; b] => Ok [b; a] | _ => Err IndexError end)
                     inc outc None)).
Proof.
  intros inc outc half. split; [|split; [|split]].
  - apply (proj1 (CoordinateMap_new_probe (fun _ => Err IndexError) inc outc None)). reflexivity.
  - apply (proj1 (proj2 (CoordinateMap_new_probe (fun x => Ok (x ++ x)) inc outc None))
             (zeros 2 ++ zeros 2)); [reflexivity|discriminate].
  - apply (proj1 (proj2 (proj2 (CoordinateMap_new_probe
             (fun x => Ok (map (fun q => (q + half)%Qc) x))
             (mkCS ["i"] "" Int64) (mkCS ["x"] "" Int64) None)))
             (map (fun q => (q + half)%Qc) (zeros 1))); [reflexivity|reflexivity|].
    vm_compute. reflexivity.
  - apply (proj2 (proj2 (proj2 (CoordinateMap_new_probe
             (fun x => match x with [a; b] => Ok [b; a] | _ => Err IndexError end) inc outc None)))
             [0%Qc; 0%Qc]); reflexivity.
Defined.
